(** * SpringValue

    A shallow embedding of [packages/core/src/SpringValue.ts] (react-spring):
    the per-value animation state machine, its numeric integrator
    ([advance]) and its update-merge logic ([_merge]).

    JavaScript numbers are IEEE 754 binary64 values, so they are embedded as
    Rocq's primitive floats: every arithmetic operation and comparison below
    is the one the engine performs, NaN and signed zeros included; the
    counters [_lastCallId] and [_lastToId] are such numbers too.  Objects
    that the source shares by reference (the [AnimatedValue] nodes, reached
    both from the spring's node and from [animation.values]) live in a heap
    indexed by identity.  Callbacks and promise resolutions are recorded, in
    order, in an event log.  A method that throws is a call whose outcome is
    the error and the state it leaves. *)

From Stdlib Require Import ZArith Bool String List Lia.
From Stdlib Require Import Floats.
Import ListNotations.
Set Warnings "-inexact-float".

(** ** JavaScript numbers *)

Module JS.

Local Open Scope float_scope.

(** [ToBoolean] on a number: [0], [-0] and [NaN] are falsy. *)
Definition truthy (x : float) : bool := negb (is_zero x || is_nan x).

(** [a || b] where [a] is a number that may be [undefined]. *)
Definition or_else (a : option float) (b : float) : float :=
  match a with
  | Some x => if truthy x then x else b
  | None => b
  end.

(** A possibly [undefined] number in arithmetic position ([ToNumber]). *)
Definition num (a : option float) : float :=
  match a with
  | Some x => x
  | None => nan
  end.

Definition Math_abs (x : float) : float := abs x.

Definition Number_isNaN (x : float) : bool := is_nan x.

(** [Math.min(a, b)]: NaN is contagious and [-0] is below [+0]. *)
Definition Math_min (a b : float) : float :=
  if is_nan a || is_nan b then nan
  else if a <? b then a
  else if b <? a then b
  else if get_sign a then a else b.

(** [Math.ceil] of a positive finite number, as an integer. *)
Definition ceil_pos (m : positive) (e : Z) : Z :=
  if (0 <=? e)%Z then Z.shiftl (Zpos m) e
  else Z.shiftr (Zpos m + Z.shiftl 1 (- e) - 1) (- e).

(** The number of times the body of
    [for (let n = 0; n < Math.ceil(x); ++n)] is entered when nothing breaks
    out of it.  The counter [n] is itself a binary64 number: it counts
    exactly up to [2^53] and then stays there, so for a larger bound (and
    for [+Infinity]) the loop is left only by a [break]; this embedding
    describes no result for such a call ([None]). *)
Definition loop_count (x : float) : option nat :=
  match Prim2SF x with
  | S754_finite false m e =>
      let c := ceil_pos m e in
      if (c <=? 2 ^ 53)%Z then Some (Z.to_nat c) else None
  | S754_infinity false => None
  | _ => Some 0%nat
  end.

End JS.

(** ** Animatable values *)

(** The values a spring holds: a number, a vector of numbers, or a string
    (interpolable when [isAnimatedString] says so, opaque otherwise). *)
Inductive Value :=
| VNum (x : float)
| VStr (s : string)
| VArr (xs : list float).

(** A [to] / [from] prop: a plain value, or a reference into the fluid value
    graph (compared by identity). *)
Inductive Target :=
| TVal (v : Value)
| TFluid (id : nat).

Fixpoint nums_eq (xs ys : list float) : bool :=
  match xs, ys with
  | [], [] => true
  | x :: xs', y :: ys' => (x =? y)%float && nums_eq xs' ys'
  | _, _ => false
  end.

(** [===] on numbers and strings, element-wise [===] on arrays. *)
Definition value_eq (a b : Value) : bool :=
  match a, b with
  | VNum x, VNum y => (x =? y)%float
  | VStr s, VStr t => String.eqb s t
  | VArr xs, VArr ys => nums_eq xs ys
  | _, _ => false
  end.

(** [isEqual] of [@react-spring/shared]; [None] is [undefined]. *)
Definition isEqual (a b : option Target) : bool :=
  match a, b with
  | None, None => true
  | Some (TVal x), Some (TVal y) => value_eq x y
  | Some (TFluid i), Some (TFluid j) => Nat.eqb i j
  | _, _ => false
  end.

Definition isEqualV (a b : option Value) : bool :=
  isEqual (option_map TVal a) (option_map TVal b).

(** [toArray]: a vector is spread into its components. *)
Definition toArray (v : Value) : list Value :=
  match v with
  | VArr xs => map VNum xs
  | _ => [v]
  end.

(** A channel value read as a number. *)
Definition as_number (v : Value) : float :=
  match v with
  | VNum x => x
  | _ => nan
  end.

(** ** Animated nodes *)

Inductive AnimatedType := TyValue | TyString | TyArray.

Definition AnimatedType_eqb (a b : AnimatedType) : bool :=
  match a, b with
  | TyValue, TyValue | TyString, TyString | TyArray, TyArray => true
  | _, _ => false
  end.

(** Modelled from the spec: the [ChannelState] of one scalar component
    ([AnimatedValue], and [AnimatedString] for an interpolated string, of
    the [animated] package, which is not part of the sources).  An absent
    [elapsedTime] or [lastPosition] is [NaN], as it is in every arithmetic
    use. *)
Module AnimatedValue.

Record t := mk {
  ctor : AnimatedType;
  _value : Value;
  done : bool;
  elapsedTime : float;
  lastPosition : float;
  lastVelocity : option float;
  v0 : option float;
  _string : option string;
  _toString : string * string
}.

Definition set_value (v : Value) (n : t) : t :=
  mk (ctor n) v (done n) (elapsedTime n) (lastPosition n) (lastVelocity n)
     (v0 n) (_string n) (_toString n).

Definition set_done (b : bool) (n : t) : t :=
  mk (ctor n) (_value n) b (elapsedTime n) (lastPosition n) (lastVelocity n)
     (v0 n) (_string n) (_toString n).

Definition set_elapsedTime (x : float) (n : t) : t :=
  mk (ctor n) (_value n) (done n) x (lastPosition n) (lastVelocity n)
     (v0 n) (_string n) (_toString n).

Definition set_lastPosition (x : float) (n : t) : t :=
  mk (ctor n) (_value n) (done n) (elapsedTime n) x (lastVelocity n)
     (v0 n) (_string n) (_toString n).

Definition set_lastVelocity (x : option float) (n : t) : t :=
  mk (ctor n) (_value n) (done n) (elapsedTime n) (lastPosition n) x
     (v0 n) (_string n) (_toString n).

Definition set_v0 (x : option float) (n : t) : t :=
  mk (ctor n) (_value n) (done n) (elapsedTime n) (lastPosition n)
     (lastVelocity n) x (_string n) (_toString n).

Definition set_string (x : option string) (n : t) : t :=
  mk (ctor n) (_value n) (done n) (elapsedTime n) (lastPosition n)
     (lastVelocity n) (v0 n) x (_toString n).

Definition set_toString (x : string * string) (n : t) : t :=
  mk (ctor n) (_value n) (done n) (elapsedTime n) (lastPosition n)
     (lastVelocity n) (v0 n) (_string n) x.

(** [new AnimatedValue(value)]: [done] starts true, [lastPosition] is the
    value when it is a number. *)
Definition create (v : Value) : t :=
  mk TyValue v true nan (as_number v) None None None (EmptyString, EmptyString).

(** [new AnimatedString(from, to)]: the numeric position starts at [0]. *)
Definition createString (from to : string) : t :=
  mk TyString (VNum 0%float) true nan 0%float None None None (from, to).

End AnimatedValue.

(** ** Motion configuration *)

Inductive DecayProp :=
| DecayUndef
| DecayBool (b : bool)
| DecayNum (x : float).

Inductive VelocityProp :=
| VelNum (x : float)
| VelArr (xs : list float).

Module AnimationConfig.

Record t := mk {
  tension : float;
  friction : float;
  mass : float;
  velocity : VelocityProp;
  clamp : bool;
  bounce : option float;
  duration : option float;
  easing : float -> float;
  decay : DecayProp;
  precision : option float;
  restVelocity : option float;
  round : option float;
  progress : option float
}.

End AnimationConfig.

(** [config.decay] in a condition. *)
Definition decay_truthy (d : DecayProp) : bool :=
  match d with
  | DecayUndef => false
  | DecayBool b => b
  | DecayNum x => JS.truthy x
  end.

(** [config.decay === true ? 0.998 : config.decay] *)
Definition decay_rate (d : DecayProp) : float :=
  match d with
  | DecayBool true => 0.998%float
  | DecayNum x => x
  | _ => nan
  end.

Definition decay_eq (a b : DecayProp) : bool :=
  match a, b with
  | DecayUndef, DecayUndef => true
  | DecayBool x, DecayBool y => Bool.eqb x y
  | DecayNum x, DecayNum y => (x =? y)%float
  | _, _ => false
  end.

Definition velocity_eq (a b : VelocityProp) : bool :=
  match a, b with
  | VelNum x, VelNum y => (x =? y)%float
  | VelArr xs, VelArr ys => nums_eq xs ys
  | _, _ => false
  end.

(** [is.arr(config.velocity) ? config.velocity[i] : config.velocity] *)
Definition velocity_at (v : VelocityProp) (i : nat) : float :=
  match v with
  | VelNum x => x
  | VelArr xs => nth i xs nan
  end.

(** ** Results, callbacks and the event log *)

(** [getFinishedResult], [getCancelledResult] and [getNoopResult]: the
    result carries the spring's value ([None] while it has no node). *)
Inductive AnimationResult :=
| Finished (value : option Value) (finished : bool)
| Cancelled (value : option Value)
| Noop (value : option Value).

(** What the spring does to the outside, in the order it does it: calls of
    the user's event props (a handler is named by a number), resolutions of
    the updates' deferred results (an update is named by its [callId]),
    events emitted to observers, and calls into the frame loop and the fluid
    graph.  The handlers are taken not to call back into the spring. *)
Inductive Event :=
| Resolve (callId : float) (r : AnimationResult)
| ResolveAsync (callId : float)
| CallOnRest (h : nat) (r : AnimationResult)
| CallOnStart (h : nat)
| CallOnChange (h : nat) (v : option Value)
| CallOnPause (h : nat)
| CallOnResume (h : nat)
| CallOnProps (h : nat)
| CallOnDelayEnd (h : nat)
| EmitChange (v : option Value) (idle : bool)
| EmitIdle
| FrameLoopStart
| WarnNaN
| AddChild (fluid : nat)
| RemoveChild (fluid : nat).

(** Who a [checkFinishedOnRest] closure reports to: an [onRest] prop, or the
    [resolve] function of an update. *)
Inductive RestCallee :=
| RestHandler (h : nat)
| RestResolver (callId : float).

(** An entry of the [onRest] queue: [noop], or the closure
    [checkFinishedOnRest(onRest, spring)] with the [to] it captured. *)
Inductive OnRestFn :=
| RestNoop
| RestCheck (callee : RestCallee) (to : option Target).

(** ** The animation state *)

Module Animation.

Record t := mk {
  changed : bool;
  values : list nat;
  toValues : option (list Value);
  fromValues : list float;
  to : option Target;
  from : option Target;
  config : AnimationConfig.t;
  immediate : bool;
  onStart : option nat;
  onChange : option nat;
  onPause : option nat;
  onResume : option nat;
  onRest : list OnRestFn
}.

Definition set_changed (x : bool) (a : t) : t :=
  mk x (values a) (toValues a) (fromValues a) (to a) (from a) (config a)
     (immediate a) (onStart a) (onChange a) (onPause a) (onResume a) (onRest a).

Definition set_values (x : list nat) (a : t) : t :=
  mk (changed a) x (toValues a) (fromValues a) (to a) (from a) (config a)
     (immediate a) (onStart a) (onChange a) (onPause a) (onResume a) (onRest a).

Definition set_toValues (x : option (list Value)) (a : t) : t :=
  mk (changed a) (values a) x (fromValues a) (to a) (from a) (config a)
     (immediate a) (onStart a) (onChange a) (onPause a) (onResume a) (onRest a).

Definition set_fromValues (x : list float) (a : t) : t :=
  mk (changed a) (values a) (toValues a) x (to a) (from a) (config a)
     (immediate a) (onStart a) (onChange a) (onPause a) (onResume a) (onRest a).

Definition set_to (x : option Target) (a : t) : t :=
  mk (changed a) (values a) (toValues a) (fromValues a) x (from a) (config a)
     (immediate a) (onStart a) (onChange a) (onPause a) (onResume a) (onRest a).

Definition set_from (x : option Target) (a : t) : t :=
  mk (changed a) (values a) (toValues a) (fromValues a) (to a) x (config a)
     (immediate a) (onStart a) (onChange a) (onPause a) (onResume a) (onRest a).

Definition set_config (x : AnimationConfig.t) (a : t) : t :=
  mk (changed a) (values a) (toValues a) (fromValues a) (to a) (from a) x
     (immediate a) (onStart a) (onChange a) (onPause a) (onResume a) (onRest a).

Definition set_immediate (x : bool) (a : t) : t :=
  mk (changed a) (values a) (toValues a) (fromValues a) (to a) (from a)
     (config a) x (onStart a) (onChange a) (onPause a) (onResume a) (onRest a).

Definition set_handlers (s c p r : option nat) (a : t) : t :=
  mk (changed a) (values a) (toValues a) (fromValues a) (to a) (from a)
     (config a) (immediate a) s c p r (onRest a).

Definition set_onRest (x : list OnRestFn) (a : t) : t :=
  mk (changed a) (values a) (toValues a) (fromValues a) (to a) (from a)
     (config a) (immediate a) (onStart a) (onChange a) (onPause a)
     (onResume a) x.

End Animation.

(** ** Updates *)

(** A prop matched against the spring's key: [true] / [false], or a list of
    keys. *)
Inductive MatchProp :=
| MatchBool (b : bool)
| MatchKeys (ks : list string).

Definition match_truthy (v : option MatchProp) : bool :=
  match v with
  | Some (MatchBool b) => b
  | Some (MatchKeys _) => true
  | None => false
  end.

(** Modelled from the spec: [matchProp] of [helpers.ts], which is not part
    of the sources: [true] matches every key, a list matches the keys it
    holds, and an empty or absent key matches no list. *)
Definition matchProp (v : option MatchProp) (key : option string) : bool :=
  match v with
  | Some (MatchBool b) => b
  | Some (MatchKeys ks) =>
      match key with
      | Some k => negb (String.eqb k EmptyString) && existsb (String.eqb k) ks
      | None => false
      end
  | None => false
  end.

(** A [to] or [from] prop as the caller wrote it: absent, a value or fluid
    value, an object of values by key, or (for [to]) an async chain or
    function. *)
Inductive RangeProp :=
| PropUndef
| PropTarget (t : Target)
| PropObject (fields : list (string * Target))
| PropAsync.

(** A field of a [config] object literal. *)
Inductive ConfigField :=
| Tension (x : float)
| Friction (x : float)
| Mass (x : float)
| Velocity (v : VelocityProp)
| Clamp (b : bool)
| Bounce (x : float)
| Duration (x : float)
| Easing (f : float -> float)
| Decay (d : DecayProp)
| Precision (x : float)
| RestVelocity (x : float)
| Round (x : float)
| Progress (x : float)
| Frequency (x : float)
| Damping (x : float).

(** A [config] prop: the object (compared by identity, [cfg_ref]) and its
    fields. *)
Record ConfigProp := mkConfigProp {
  cfg_ref : nat;
  cfg_fields : list ConfigField
}.

(** The update that reaches [_merge]: the props of the caller with the
    [callId] and [cancel] that [scheduleProps] adds. *)
Module Props.

Record t := mk {
  to : RangeProp;
  from : RangeProp;
  config : option ConfigProp;
  reset : option MatchProp;
  cancel : bool;
  immediate : option MatchProp;
  reverse : bool;
  default : bool;
  onStart : option nat;
  onChange : option nat;
  onPause : option nat;
  onResume : option nat;
  onRest : option nat;
  onProps : option nat;
  onDelayEnd : option nat;
  callId : float
}.

Definition set_callId (x : float) (p : t) : t :=
  mk (to p) (from p) (config p) (reset p) (cancel p) (immediate p)
     (reverse p) (default p) (onStart p) (onChange p) (onPause p)
     (onResume p) (onRest p) (onProps p) (onDelayEnd p) x.

End Props.

Module DefaultProps.

Record t := mk {
  config : option ConfigProp;
  immediate : option MatchProp;
  onStart : option nat;
  onChange : option nat;
  onPause : option nat;
  onResume : option nat;
  onRest : option nat;
  onProps : option nat;
  onDelayEnd : option nat
}.

Definition empty : t := mk None None None None None None None None None.

End DefaultProps.

Definition or_default {A : Type} (x d : option A) : option A :=
  match x with
  | Some _ => x
  | None => d
  end.

(** Modelled from the spec: [mergeDefaultProps] of [helpers.ts], which is
    not part of the sources: every default prop that the update defines
    replaces the stored default. *)
Definition mergeDefaultProps (d : DefaultProps.t) (p : Props.t) : DefaultProps.t :=
  DefaultProps.mk
    (or_default (Props.config p) (DefaultProps.config d))
    (or_default (Props.immediate p) (DefaultProps.immediate d))
    (or_default (Props.onStart p) (DefaultProps.onStart d))
    (or_default (Props.onChange p) (DefaultProps.onChange d))
    (or_default (Props.onPause p) (DefaultProps.onPause d))
    (or_default (Props.onResume p) (DefaultProps.onResume d))
    (or_default (Props.onRest p) (DefaultProps.onRest d))
    (or_default (Props.onProps p) (DefaultProps.onProps d))
    (or_default (Props.onDelayEnd p) (DefaultProps.onDelayEnd d)).

(** The [{ to, from }] range that [_prepareNode] parses from the props. *)
Record AnimationRange := mkRange {
  range_to : option Target;
  range_from : option Target
}.

(** ** The spring *)

(** Modelled from the spec: the [RunAsyncState] of [runAsync.ts], which is
    not part of the sources: the pause flag, the waiters and timers of
    suspended updates, the async [to] in flight (named by the [callId] of
    the update that brought it) and the last cancelled call. *)
Module RunAsyncState.

Record t := mk {
  paused : bool;
  pauseQueue : list nat;
  resumeQueue : list nat;
  timeouts : list nat;
  asyncTo : option float;
  cancelId : option float
}.

Definition initial : t := mk false [] [] [] None None.

End RunAsyncState.

(** Modelled from the spec: the lifecycle flags of [SpringPhase.ts], which
    is not part of the sources. *)
Record Phase := mkPhase {
  phase_hasAnimated : bool;
  phase_isAnimating : bool;
  phase_isPaused : bool
}.

(** The spring's [Animated] node: one node (a number or a string), or an
    array of them.  The nodes are heap cells. *)
Inductive Animated :=
| ASingle (id : nat)
| AArray (ids : list nat).

Module SpringValue.

Record t := mk {
  key : option string;
  animation : Animation.t;
  node : option Animated;
  heap : list AnimatedValue.t;
  phase : Phase;
  _state : RunAsyncState.t;
  _defaultProps : DefaultProps.t;
  _lastCallId : float;
  _lastToId : float;
  _children : nat;
  priority : float;
  frozen : bool;
  log : list Event
}.

Definition set_animation (x : Animation.t) (s : t) : t :=
  mk (key s) x (node s) (heap s) (phase s) (_state s) (_defaultProps s)
     (_lastCallId s) (_lastToId s) (_children s) (priority s) (frozen s) (log s).

Definition set_node (x : option Animated) (s : t) : t :=
  mk (key s) (animation s) x (heap s) (phase s) (_state s) (_defaultProps s)
     (_lastCallId s) (_lastToId s) (_children s) (priority s) (frozen s) (log s).

Definition set_heap (x : list AnimatedValue.t) (s : t) : t :=
  mk (key s) (animation s) (node s) x (phase s) (_state s) (_defaultProps s)
     (_lastCallId s) (_lastToId s) (_children s) (priority s) (frozen s) (log s).

Definition set_phase (x : Phase) (s : t) : t :=
  mk (key s) (animation s) (node s) (heap s) x (_state s) (_defaultProps s)
     (_lastCallId s) (_lastToId s) (_children s) (priority s) (frozen s) (log s).

Definition set_state (x : RunAsyncState.t) (s : t) : t :=
  mk (key s) (animation s) (node s) (heap s) (phase s) x (_defaultProps s)
     (_lastCallId s) (_lastToId s) (_children s) (priority s) (frozen s) (log s).

Definition set_defaultProps (x : DefaultProps.t) (s : t) : t :=
  mk (key s) (animation s) (node s) (heap s) (phase s) (_state s) x
     (_lastCallId s) (_lastToId s) (_children s) (priority s) (frozen s) (log s).

Definition set_lastCallId (x : float) (s : t) : t :=
  mk (key s) (animation s) (node s) (heap s) (phase s) (_state s)
     (_defaultProps s) x (_lastToId s) (_children s) (priority s) (frozen s)
     (log s).

Definition set_lastToId (x : float) (s : t) : t :=
  mk (key s) (animation s) (node s) (heap s) (phase s) (_state s)
     (_defaultProps s) (_lastCallId s) x (_children s) (priority s) (frozen s)
     (log s).

Definition set_priority (x : float) (s : t) : t :=
  mk (key s) (animation s) (node s) (heap s) (phase s) (_state s)
     (_defaultProps s) (_lastCallId s) (_lastToId s) (_children s) x (frozen s)
     (log s).

Definition set_log (x : list Event) (s : t) : t :=
  mk (key s) (animation s) (node s) (heap s) (phase s) (_state s)
     (_defaultProps s) (_lastCallId s) (_lastToId s) (_children s)
     (priority s) (frozen s) x.

End SpringValue.

(** ** The environment *)

(** What the spring reads from its host and from the [shared] package:
    [Math.exp] and [Math.round]; [isAnimatedString] and the string
    interpolator ([interpolate a b x] is
    [createStringInterpolator({ output: [a, b] })(x)]); the [skipAnimation]
    flag; and [mergeConfig] of [AnimationConfig.ts], applied to the current
    config, the props' config and the default config. *)
Record Globals := mkGlobals {
  Math_exp : float -> float;
  Math_round : float -> float;
  isAnimatedString : string -> bool;
  interpolate : string -> string -> float -> string;
  skipAnimation : bool;
  mergeConfig :
    AnimationConfig.t -> list ConfigField -> option (list ConfigField) ->
    AnimationConfig.t
}.

(** A channel of a parent spring's payload, as [advance] reads it. *)
Record ParentChannel := mkParentChannel {
  parent_lastPosition : float;
  parent_done : bool
}.

(** The fluid value graph as one call sees it: the current value of a fluid
    value, the node type and payload of one that is a [FrameValue], and its
    priority. *)
Record FluidGraph := mkFluidGraph {
  fluid_get : nat -> option Value;
  fluid_node : nat -> option (AnimatedType * list ParentChannel);
  fluid_priority : nat -> option float
}.

(** ** Node operations *)

Section Nodes.

Context (G : Globals).

Local Open Scope float_scope.

(** Modelled from the spec: [AnimatedValue.setValue(value, step)] of the
    [animated] package, which is not part of the sources: a number is
    recorded as the last position and, when a rounding step is given,
    rounded to it; the result says whether the stored value changed. *)
Definition AnimatedValue_setValue
  (value : Value) (step : option float) (n : AnimatedValue.t)
  : AnimatedValue.t * bool :=
  let '(n1, value1) :=
    match value with
    | VNum x =>
        let n1 := AnimatedValue.set_lastPosition x n in
        if JS.truthy (JS.num step) then
          let v := Math_round G (x / JS.num step) * JS.num step in
          (if AnimatedValue.done n1 then AnimatedValue.set_lastPosition v n1
           else n1, VNum v)
        else (n1, VNum x)
    | _ => (n, value)
    end in
  if value_eq (AnimatedValue._value n1) value1 then (n1, false)
  else (AnimatedValue.set_value value1 n1, true).

(** Modelled from the spec: [AnimatedString.setValue(value)]: a number is
    the position between the two strings, a string replaces the value
    outright. *)
Definition AnimatedString_setValue (value : Value) (n : AnimatedValue.t)
  : AnimatedValue.t * bool :=
  match value with
  | VNum _ =>
      let '(n1, changed) := AnimatedValue_setValue value None n in
      if changed then (AnimatedValue.set_string None n1, true) else (n1, false)
  | VStr s =>
      (AnimatedValue.set_value (VNum 1)
         (AnimatedValue.set_string (Some s) n), true)
  | VArr _ => (n, true)
  end.

(** [node.setValue(value, step)], by the class of the node. *)
Definition node_setValue
  (value : Value) (step : option float) (n : AnimatedValue.t)
  : AnimatedValue.t * bool :=
  match AnimatedValue.ctor n with
  | TyString => AnimatedString_setValue value n
  | _ => AnimatedValue_setValue value step n
  end.

(** [node.getValue()]: an [AnimatedString] yields the interpolated string. *)
Definition node_getValue (n : AnimatedValue.t) : Value :=
  match AnimatedValue.ctor n with
  | TyString =>
      match AnimatedValue._string n with
      | Some s => VStr s
      | None =>
          VStr (interpolate G (fst (AnimatedValue._toString n))
                  (snd (AnimatedValue._toString n))
                  (as_number (AnimatedValue._value n)))
      end
  | _ => AnimatedValue._value n
  end.

(** Modelled from the spec: [reset] of a node, called when an animation
    (re)starts: [done] is cleared and, for a numeric node, the elapsed time
    returns to [0], the last position to the value, and the velocity is
    forgotten when the node had come to rest. *)
Definition AnimatedValue_reset (n : AnimatedValue.t) : AnimatedValue.t :=
  let was_done := AnimatedValue.done n in
  let n1 := AnimatedValue.set_done false n in
  match AnimatedValue._value n1 with
  | VNum x =>
      let n2 := AnimatedValue.set_lastPosition x
                  (AnimatedValue.set_elapsedTime 0 n1) in
      let n3 := if was_done then AnimatedValue.set_lastVelocity None n2 else n2 in
      AnimatedValue.set_v0 None n3
  | _ => n1
  end.

(** Modelled from the spec: [AnimatedString.reset(goal)]: the interpolation
    restarts at position [0], from the current string to the goal. *)
Definition AnimatedString_reset (goal : option Value) (n : AnimatedValue.t)
  : AnimatedValue.t :=
  let n1 :=
    match goal with
    | Some (VStr g) =>
        if String.eqb g EmptyString then n
        else
          match node_getValue n with
          | VStr cur =>
              AnimatedValue.set_toString (cur, g)
                (AnimatedValue.set_string (Some cur) n)
          | _ => n
          end
    | _ => n
    end in
  AnimatedValue_reset (AnimatedValue.set_value (VNum 0) n1).

Definition node_reset (goal : option Value) (n : AnimatedValue.t)
  : AnimatedValue.t :=
  match AnimatedValue.ctor n with
  | TyString => AnimatedString_reset goal n
  | _ => AnimatedValue_reset n
  end.

End Nodes.

(** ** The integrator: one channel of [advance] *)

(** The local variables [position], [velocity] and [finished] of the
    [forEach] callback of [advance]. *)
Record Motion := mkMotion {
  position : float;
  velocity : float;
  finished : bool
}.

(** What the callback did to one node: the node after it, whether it
    cleared [idle], whether it set [changed], and whether it warned about a
    NaN. *)
Record NodeStep := mkNodeStep {
  step_node : AnimatedValue.t;
  step_busy : bool;
  step_changed : bool;
  step_warned : bool
}.

Section Integrator.

Context (G : Globals).

Local Open Scope float_scope.

(** The goal of channel [i] (lines 164-170): [1] for an animated string, the
    parent's channel when [to] has a payload, else [toValues[i]].  The outer
    [None] is a [TypeError] (the payload has no channel [i], or [toValues]
    is [null]); the inner [None] is [undefined]. *)
Definition channel_to
  (node : AnimatedValue.t) (payload : option (list ParentChannel))
  (toValues : option (list Value)) (i : nat) : option (option Value) :=
  match AnimatedValue.ctor node with
  | TyString => Some (Some (VNum 1))
  | _ =>
      match payload with
      | Some p =>
          option_map (fun c => Some (VNum (parent_lastPosition c)))
            (nth_error p i)
      | None =>
          match toValues with
          | Some tv => Some (nth_error tv i)
          | None => None
          end
      end
  end.

(** Duration easing (lines 197-206). *)
Definition duration_easing
  (config : AnimationConfig.t) (node : AnimatedValue.t)
  (to from dt elapsed d : float) : Motion :=
  let p := JS.or_else (AnimationConfig.progress config) 0 in
  let p := if d <=? 0 then 1
           else p + (1 - p) * JS.Math_min 1 (elapsed / d) in
  let position := from + AnimationConfig.easing config p * (to - from) in
  let velocity := (position - AnimatedValue.lastPosition node) / dt in
  mkMotion position velocity (p =? 1).

(** Decay easing (lines 209-218). *)
Definition decay_easing
  (config : AnimationConfig.t) (node : AnimatedValue.t)
  (v0 from elapsed : float) : Motion :=
  let decay := decay_rate (AnimationConfig.decay config) in
  let e := Math_exp G (- (1 - decay) * elapsed) in
  let position := from + (v0 / (1 - decay)) * (1 - e) in
  let finished :=
    JS.Math_abs (AnimatedValue.lastPosition node - position) <? 0.1 in
  mkMotion position (v0 * e) finished.

(** The sub-step loop of the spring easing (lines 247-273), entered
    [numSteps] times unless it breaks. *)
Fixpoint spring_loop
  (config : AnimationConfig.t) (to precision restVelocity : float)
  (bounceFactor : option float) (isGrowing : bool)
  (numSteps : nat) (m : Motion) : Motion :=
  match numSteps with
  | O => m
  | S k =>
      let isMoving := restVelocity <? JS.Math_abs (velocity m) in
      let finished :=
        if isMoving then finished m
        else JS.Math_abs (to - position m) <=? precision in
      if negb isMoving && finished then
        mkMotion (position m) (velocity m) finished
      else
        let '(position, velocity) :=
          match bounceFactor with
          | Some bf =>
              let isBouncing :=
                (position m =? to)
                || Bool.eqb (to <? position m) isGrowing in
              if isBouncing then (to, - velocity m * bf)
              else (position m, velocity m)
          | None => (position m, velocity m)
          end in
        let step := 1 in
        let springForce :=
          - AnimationConfig.tension config * 0.000001 * (position - to) in
        let dampingForce :=
          - AnimationConfig.friction config * 0.001 * velocity in
        let acceleration :=
          (springForce + dampingForce) / AnimationConfig.mass config in
        let velocity := velocity + acceleration * step in
        let position := position + velocity * step in
        spring_loop config to precision restVelocity bounceFactor isGrowing k
          (mkMotion position velocity finished)
  end.

(** Spring easing (lines 221-274). *)
Definition spring_easing
  (config : AnimationConfig.t) (node : AnimatedValue.t)
  (v0 to from dt : float) : option Motion :=
  let velocity :=
    match AnimatedValue.lastVelocity node with
    | None => v0
    | Some v => v
    end in
  let precision :=
    JS.or_else (AnimationConfig.precision config)
      (if from =? to then 0.005
       else JS.Math_min 1 (JS.Math_abs (to - from) * 0.001)) in
  let restVelocity :=
    JS.or_else (AnimationConfig.restVelocity config) (precision / 10) in
  let bounceFactor :=
    if AnimationConfig.clamp config then Some 0
    else AnimationConfig.bounce config in
  let isGrowing := if from =? to then 0 <? v0 else from <? to in
  let step := 1 in
  match JS.loop_count (dt / step) with
  | None => None
  | Some numSteps =>
      Some (spring_loop config to precision restVelocity bounceFactor
              isGrowing numSteps
              (mkMotion (AnimatedValue.lastPosition node) velocity false))
  end.

(** [payload && !payload[i].done], read the other way round: the parent's
    channel is done, which also holds when [to] has no payload.  [None] is a
    [TypeError] (the payload has no channel [i]). *)
Definition parentDone (payload : option (list ParentChannel)) (i : nat)
  : option bool :=
  match payload with
  | Some p => option_map parent_done (nth_error p i)
  | None => Some true
  end.

(** The end of the callback (lines 284-297): a parent that is not done
    keeps its child running; the node is marked done or the spring is kept
    busy; the position is written to the node. *)
Definition settle
  (config : AnimationConfig.t) (payload : option (list ParentChannel))
  (i : nat) (node : AnimatedValue.t) (position : Value)
  (finished warned : bool) : option NodeStep :=
  match parentDone payload i with
  | None => None
  | Some parentDone =>
      let finished := if parentDone then finished else false in
      let node := if finished then AnimatedValue.set_done true node else node in
      let '(node, changed) :=
        node_setValue G position (AnimationConfig.round config) node in
      Some (mkNodeStep node (negb finished) changed warned)
  end.

(** The seed velocity [v0] of channel [i] (lines 187-192): the one the node
    holds, else the config's. *)
Definition seedVelocity (config : AnimationConfig.t) (i : nat)
  (node : AnimatedValue.t) : float :=
  match AnimatedValue.v0 node with
  | Some v => v
  | None => velocity_at (AnimationConfig.velocity config) i
  end.

(** The goal of a channel as a number; [undefined] is [NaN]. *)
Definition goal_number (to : option Value) : float :=
  match to with
  | Some v => as_number v
  | None => nan
  end.

(** The choice of the motion model (lines 196-274): the duration when the
    config defines one, else the decay when it is truthy, else the spring. *)
Definition channel_motion
  (config : AnimationConfig.t) (node : AnimatedValue.t)
  (v0 to from dt elapsed : float) : option Motion :=
  match AnimationConfig.duration config with
  | Some d => Some (duration_easing config node to from dt elapsed d)
  | None =>
      if decay_truthy (AnimationConfig.decay config) then
        Some (decay_easing config node v0 from elapsed)
      else spring_easing config node v0 to from dt
  end.

(** The callback of [anim.values.forEach] in [advance] (lines 161-298).
    [None]: the call is outside this embedding (a [TypeError] on the goal, an
    immediate channel whose goal is [undefined], or a sub-step loop that
    only a [break] ends). *)
Definition advance_node
  (anim : Animation.t) (payload : option (list ParentChannel))
  (toValues : option (list Value)) (dt : float) (i : nat)
  (node : AnimatedValue.t) : option NodeStep :=
  let config := Animation.config anim in
  if AnimatedValue.done node then Some (mkNodeStep node false false false)
  else
    match channel_to node payload toValues i with
    | None => None
    | Some to =>
        if Animation.immediate anim then
          match to with
          | Some position => settle config payload i node position true false
          | None => None
          end
        else if AnimationConfig.tension config <=? 0 then
          (* Loose springs never move. *)
          Some (mkNodeStep (AnimatedValue.set_done true node) false false false)
        else
          let to := goal_number to in
          let elapsed := AnimatedValue.elapsedTime node + dt in
          let node := AnimatedValue.set_elapsedTime elapsed node in
          let from := nth i (Animation.fromValues anim) nan in
          let v0 := seedVelocity config i node in
          let node := AnimatedValue.set_v0 (Some v0) node in
          match channel_motion config node v0 to from dt elapsed with
          | None => None
          | Some m =>
              let node :=
                AnimatedValue.set_lastVelocity (Some (velocity m)) node in
              let isNaN := JS.Number_isNaN (position m) in
              settle config payload i node (VNum (position m))
                (finished m || isNaN) isNaN
          end
    end.

End Integrator.

(** ** The spring's methods *)

(** A call either returns, or throws; both leave a state.  The errors are
    the two that the source throws itself, and the [TypeError] of the
    engine: a property defined on a frozen spring, or the method of a node
    that is not there. *)
Inductive Error :=
| FrozenError
| TypeMismatchError (nodeType goalType : AnimatedType)
| TypeError.

Inductive Outcome (A : Type) :=
| Returned (a : A) (s : SpringValue.t)
| Threw (e : Error) (s : SpringValue.t).

Arguments Returned {A} a s.
Arguments Threw {A} e s.

Definition outcome_state {A : Type} (o : Outcome A) : SpringValue.t :=
  match o with
  | Returned _ s => s
  | Threw _ s => s
  end.

(** The statements of a method in sequence: what follows a call runs when
    the call returned, and an error ends the method. *)
Definition andThen {B : Type} (o : Outcome unit)
  (k : SpringValue.t -> Outcome B) : Outcome B :=
  match o with
  | Returned _ s => k s
  | Threw e s => Threw e s
  end.

Notation "'let*' s ':=' o 'in' k" := (andThen o (fun s => k))
  (at level 10, s name, o at level 100, k at level 200).

(** The state a call returns with. *)
Definition returned (o : Outcome unit) : option SpringValue.t :=
  match o with
  | Returned _ s => Some s
  | Threw _ _ => None
  end.

(** The heap of nodes. *)
Definition cell (h : list AnimatedValue.t) (id : nat) : AnimatedValue.t :=
  nth id h (AnimatedValue.create (VNum nan)).

Fixpoint update (h : list AnimatedValue.t) (id : nat)
  (f : AnimatedValue.t -> AnimatedValue.t) : list AnimatedValue.t :=
  match h, id with
  | [], _ => []
  | c :: h', O => f c :: h'
  | c :: h', S k => c :: update h' k f
  end.

Definition update_all (ids : list nat) (f : AnimatedValue.t -> AnimatedValue.t)
  (h : list AnimatedValue.t) : list AnimatedValue.t :=
  fold_left (fun h id => update h id f) ids h.

Definition emit (e : Event) (s : SpringValue.t) : SpringValue.t :=
  SpringValue.set_log (SpringValue.log s ++ [e]) s.

(** [callProp(handler, ...)]: an absent handler is not called. *)
Definition callProp (h : option nat) (e : nat -> Event) (s : SpringValue.t)
  : SpringValue.t :=
  match h with
  | Some f => emit (e f) s
  | None => s
  end.

Definition resolve (callId : float) (r : AnimationResult) (s : SpringValue.t)
  : SpringValue.t :=
  emit (Resolve callId r) s.

Definition hasAnimated (s : SpringValue.t) : bool :=
  phase_hasAnimated (SpringValue.phase s).

Definition isAnimating (s : SpringValue.t) : bool :=
  phase_isAnimating (SpringValue.phase s).

Definition isPaused (s : SpringValue.t) : bool :=
  phase_isPaused (SpringValue.phase s).

(** Entering the active state also records that the value has animated. *)
Definition setActiveBit (active : bool) (s : SpringValue.t) : SpringValue.t :=
  let p := SpringValue.phase s in
  SpringValue.set_phase
    (if active then mkPhase true true (phase_isPaused p)
     else mkPhase (phase_hasAnimated p) false (phase_isPaused p)) s.

Definition setPausedBit (paused : bool) (s : SpringValue.t) : SpringValue.t :=
  let p := SpringValue.phase s in
  SpringValue.set_phase
    (mkPhase (phase_hasAnimated p) (phase_isAnimating p) paused) s.

Definition is_some {A : Type} (x : option A) : bool :=
  match x with
  | Some _ => true
  | None => false
  end.

(** [value !== anim.to]: an array is a fresh object each time it is read
    from the node or written by a caller. *)
Definition strict_neq (a b : option Target) : bool :=
  match a, b with
  | Some (TVal (VArr _)), _ => true
  | _, Some (TVal (VArr _)) => true
  | _, _ => negb (isEqual a b)
  end.

Fixpoint assoc (key : string) (fields : list (string * Target))
  : option Target :=
  match fields with
  | [] => None
  | (k, v) :: rest => if String.eqb k key then Some v else assoc key rest
  end.

(** [is.obj(prop) ? prop[key] : prop], with [null], [undefined] and an
    async [to] read as [undefined]. *)
Definition lookup_prop (p : RangeProp) (key : string) : option Target :=
  match p with
  | PropTarget t => Some t
  | PropObject fields => assoc key fields
  | PropUndef => None
  | PropAsync => None
  end.

Definition isAsyncTo (p : RangeProp) : bool :=
  match p with
  | PropAsync => true
  | _ => false
  end.

(** Modelled from the spec: [stopAsync] of [runAsync.ts], which is not part
    of the sources: the pending timers and waiters are released and the
    async [to] in flight is dropped; a cancelling stop records the call it
    cancels up to. *)
Definition stopAsync (cancelId : option float) (st : RunAsyncState.t)
  : RunAsyncState.t :=
  RunAsyncState.mk (RunAsyncState.paused st) [] [] [] None
    (match cancelId with
     | Some id => Some id
     | None => RunAsyncState.cancelId st
     end).

(** A [checkFinishedOnRest] closure passes its result to the [onRest] prop
    or to the [resolve] function it wraps. *)
Definition report (callee : RestCallee) (result : AnimationResult) : Event :=
  match callee with
  | RestHandler h => CallOnRest h result
  | RestResolver id => Resolve id result
  end.

(** The events of a queue of [onRest] entries that are all given [result]. *)
Definition reports (result : AnimationResult) (queue : list OnRestFn)
  : list Event :=
  flat_map (fun f => match f with
                     | RestNoop => []
                     | RestCheck callee _ => [report callee result]
                     end) queue.

(** The events of [callProp(handler, ...)]. *)
Definition called (h : option nat) (e : nat -> Event) : list Event :=
  match h with
  | Some f => [e f]
  | None => []
  end.

Section Spring.

Context (G : Globals) (F : FluidGraph).

Definition getFluidValue (t : option Target) : option Value :=
  match t with
  | Some (TVal v) => Some v
  | Some (TFluid id) => fluid_get F id
  | None => None
  end.

(** [getFluidConfig(t)] is defined. *)
Definition isFluid (t : option Target) : bool :=
  match t with
  | Some (TFluid _) => true
  | _ => false
  end.

(** [getPayload(anim.to)]: the channels of a parent spring. *)
Definition getPayload (t : option Target) : option (list ParentChannel) :=
  match t with
  | Some (TFluid id) => option_map snd (fluid_node F id)
  | _ => None
  end.

(** [computeGoal]: an interpolable string is normalised by the
    interpolator. *)
Definition computeGoal (v : option Value) : option Value :=
  match v with
  | Some (VStr str) =>
      if isAnimatedString G str
      then Some (VStr (interpolate G str str 1%float))
      else v
  | _ => v
  end.

Definition computeGoalT (t : option Target) : option Value :=
  computeGoal (getFluidValue t).

(** [getAnimatedType]: the node class of a fluid value that has a node, else
    the class that fits the value. *)
Definition getAnimatedType (t : Target) : AnimatedType :=
  match t with
  | TFluid id =>
      match fluid_node F id with
      | Some (ty, _) => ty
      | None => TyValue
      end
  | TVal (VArr _) => TyArray
  | TVal (VStr str) => if isAnimatedString G str then TyString else TyValue
  | TVal (VNum _) => TyValue
  end.

(** [node.constructor] *)
Definition animated_ctor (s : SpringValue.t) (nd : Animated) : AnimatedType :=
  match nd with
  | ASingle id => AnimatedValue.ctor (cell (SpringValue.heap s) id)
  | AArray _ => TyArray
  end.

(** [node.getPayload()] *)
Definition animated_payload (nd : Animated) : list nat :=
  match nd with
  | ASingle id => [id]
  | AArray ids => ids
  end.

(** [get()]: the value of the node, [undefined] without a node. *)
Definition get (s : SpringValue.t) : option Value :=
  match SpringValue.node s with
  | None => None
  | Some (ASingle id) => Some (node_getValue G (cell (SpringValue.heap s) id))
  | Some (AArray ids) =>
      Some (VArr (map (fun id =>
                         as_number (node_getValue G (cell (SpringValue.heap s) id)))
                    ids))
  end.

(** [nodeType.create(value)]: fresh nodes, at the end of the heap. *)
Definition Animated_create (v : Value) (h : list AnimatedValue.t)
  : Animated * list AnimatedValue.t :=
  match v with
  | VArr xs =>
      (AArray (seq (length h) (length xs)),
       h ++ map (fun x => AnimatedValue.create (VNum x)) xs)
  | VStr str =>
      (ASingle (length h),
       h ++ [if isAnimatedString G str
             then AnimatedValue.createString str str
             else AnimatedValue.create v])
  | VNum _ => (ASingle (length h), h ++ [AnimatedValue.create v])
  end.

(** Modelled from the spec: [setAnimated(this, node)] of the [animated]
    package, which is not part of the sources: the node is defined as a
    property of the spring.  A frozen spring takes no property: the call
    throws a [TypeError]. *)
Definition setAnimated (nd : Animated) (s : SpringValue.t) : Outcome unit :=
  if SpringValue.frozen s then Threw TypeError s
  else Returned tt (SpringValue.set_node (Some nd) s).

(** [setAnimated(this, nodeType.create(value))] *)
Definition create_node (v : Value) (s : SpringValue.t) : Outcome unit :=
  let '(nd, h) := Animated_create v (SpringValue.heap s) in
  setAnimated nd (SpringValue.set_heap h s).

(** An [AnimatedArray] whose payload is made again for an array of another
    length: the node is the same object, over fresh nodes. *)
Definition remake_payload (v : Value) (s : SpringValue.t) : SpringValue.t :=
  let '(nd, h) := Animated_create v (SpringValue.heap s) in
  SpringValue.set_node (Some nd) (SpringValue.set_heap h s).

(** [oldNode.setValue(value)] on a node of the value's class: an array of
    the same length is written component by component, another length
    remakes the payload. *)
Definition animated_setValue (v : Value) (nd : Animated) (s : SpringValue.t)
  : SpringValue.t :=
  match nd, v with
  | ASingle id, _ =>
      SpringValue.set_heap
        (update (SpringValue.heap s) id
           (fun n => fst (node_setValue G v None n))) s
  | AArray ids, VArr xs =>
      if Nat.eqb (length xs) (length ids) then
        SpringValue.set_heap
          (fold_left
             (fun h ix =>
                update h (fst ix)
                  (fun n => fst (node_setValue G (VNum (snd ix)) None n)))
             (combine ids xs) (SpringValue.heap s)) s
      else remake_payload v s
  | AArray _, _ => s
  end.

(** [_onStart] (lines 859-865). *)
Definition _onStart (s : SpringValue.t) : SpringValue.t :=
  let anim := SpringValue.animation s in
  if Animation.changed anim then s
  else
    callProp (Animation.onStart anim) CallOnStart
      (SpringValue.set_animation (Animation.set_changed true anim) s).

(** [_onChange] (lines 867-878). *)
Definition _onChange (value : option Value) (idle : bool) (s : SpringValue.t)
  : SpringValue.t :=
  let s := if idle then s else _onStart s in
  let s :=
    callProp (Animation.onChange (SpringValue.animation s))
      (fun h => CallOnChange h value) s in
  emit (EmitChange value idle) s.

(** [_set] (lines 833-857). *)
Definition _set (arg : option Target) (force : bool) (s : SpringValue.t)
  : Outcome unit :=
  match getFluidValue arg with
  | None => Returned tt s
  | Some value =>
      let oldNode := SpringValue.node s in
      let differs :=
        match oldNode with
        | None => true
        | Some _ => negb (isEqualV (Some value) (get s))
        end in
      if force || differs then
        match oldNode with
        | None => create_node value s
        | Some nd =>
            (* Create a new node or update the existing node. *)
            let* s :=
              if AnimatedType_eqb (animated_ctor s nd)
                   (getAnimatedType (TVal value))
              then Returned tt (animated_setValue value nd s)
              else create_node value s in
            (* Never emit a "change" event for the initial value. *)
            Returned tt (_onChange (Some value) true s)
        end
      else Returned tt s
  end.

(** [checkFinishedOnRest(onRest, spring)] (lines 956-973). *)
Definition checkFinishedOnRest (onRest : option RestCallee) (s : SpringValue.t)
  : OnRestFn :=
  match onRest with
  | Some callee => RestCheck callee (Animation.to (SpringValue.animation s))
  | None => RestNoop
  end.

(** Calling an entry of the [onRest] queue with [cancel]. *)
Definition call_onRest (cancel : bool) (f : OnRestFn) (s : SpringValue.t)
  : SpringValue.t :=
  match f with
  | RestNoop => s
  | RestCheck callee to =>
      let result :=
        if cancel then Cancelled (get s)
        else Finished (get s) (isEqualV (computeGoal (get s)) (computeGoalT to)) in
      emit (report callee result) s
  end.

Definition call_each (cancel : bool) (queue : list OnRestFn) (s : SpringValue.t)
  : SpringValue.t :=
  fold_left (fun s f => call_onRest cancel f s) queue s.

(** [_stop] (lines 921-948). *)
Definition _stop (cancel : bool) (s : SpringValue.t) : SpringValue.t :=
  if isAnimating s then
    let s := setActiveBit false s in
    let anim := SpringValue.animation s in
    let s :=
      SpringValue.set_heap
        (update_all (Animation.values anim) (AnimatedValue.set_done true)
           (SpringValue.heap s)) s in
    let s := emit EmitIdle s in
    let onRestQueue := Animation.onRest anim in
    match onRestQueue with
    | [] => s
    | first :: rest =>
        (* Preserve the "onRest" prop when the goal is dynamic. *)
        let s :=
          SpringValue.set_animation
            (Animation.set_onRest
               [if is_some (Animation.toValues anim) then RestNoop else first]
               anim) s in
        (* Never call the "onRest" prop for no-op animations. *)
        let onRestQueue :=
          if Animation.changed anim then onRestQueue else RestNoop :: rest in
        call_each cancel onRestQueue s
    end
  else s.

(** [finish] (lines 331-348). *)
Definition finish (s : SpringValue.t) : Outcome unit :=
  if isAnimating s then
    let to := Animation.to (SpringValue.animation s) in
    let config := Animation.config (SpringValue.animation s) in
    let s := _onStart s in
    (* Decay animations have an implicit goal. *)
    let* s := if decay_truthy (AnimationConfig.decay config) then Returned tt s
              else _set to true s in
    Returned tt (_stop false s)
  else Returned tt s.

(** [_resume] (lines 907-914). *)
Definition _resume (s : SpringValue.t) : Outcome unit :=
  if skipAnimation G then finish s else Returned tt (emit FrameLoopStart s).

(** [getAnimated(this)!.reset(goal)]: without a node, the call of [reset]
    on [undefined] throws a [TypeError]. *)
Definition animated_reset (goal : option Value) (s : SpringValue.t)
  : Outcome unit :=
  match SpringValue.node s with
  | Some (ASingle id) =>
      Returned tt
        (SpringValue.set_heap
           (update (SpringValue.heap s) id (node_reset G goal)) s)
  | Some (AArray ids) =>
      Returned tt
        (SpringValue.set_heap
           (update_all ids (node_reset G None) (SpringValue.heap s)) s)
  | None => Threw TypeError s
  end.

(** [_start] (lines 883-905). *)
Definition _start (s : SpringValue.t) : Outcome unit :=
  (* Reset the state of each Animated node. *)
  let* s :=
    animated_reset (getFluidValue (Animation.to (SpringValue.animation s))) s in
  let anim := SpringValue.animation s in
  (* Use the current values as the from values. *)
  let s :=
    if Animation.immediate anim then s
    else
      SpringValue.set_animation
        (Animation.set_fromValues
           (map (fun id => AnimatedValue.lastPosition (cell (SpringValue.heap s) id))
              (Animation.values anim)) anim) s in
  if isAnimating s then Returned tt s
  else
    let s := setActiveBit true s in
    (* Ensure the `onStart` prop will be called. *)
    let s :=
      SpringValue.set_animation
        (Animation.set_changed false (SpringValue.animation s)) s in
    (* Start animating if not paused. *)
    if isPaused s then Returned tt s else _resume s.

(** [_detach] and [_attach] (lines 810-827). *)
Definition _detach (s : SpringValue.t) : SpringValue.t :=
  match Animation.to (SpringValue.animation s) with
  | Some (TFluid id) => emit (RemoveChild id) s
  | _ => s
  end.

Definition _attach (s : SpringValue.t) : SpringValue.t :=
  match Animation.to (SpringValue.animation s) with
  | Some (TFluid id) =>
      SpringValue.set_priority
        (match fluid_priority F id with
         | Some p => p + 1
         | None => 0
         end)%float
        (emit (AddChild id) s)
  | _ => SpringValue.set_priority 0%float s
  end.

(** [_focus] (lines 797-808). *)
Definition _focus (value : option Target) (s : SpringValue.t) : SpringValue.t :=
  if strict_neq value (Animation.to (SpringValue.animation s)) then
    let hasChildren := negb (Nat.eqb (SpringValue._children s) 0) in
    let s := if hasChildren then _detach s else s in
    let s :=
      SpringValue.set_animation
        (Animation.set_to value (SpringValue.animation s)) s in
    if hasChildren then _attach s else s
  else s.

(** [stop] (lines 389-399); [cancel && this._lastCallId] is a call to
    cancel up to when it is truthy. *)
Definition stop (cancel : bool) (s : SpringValue.t) : SpringValue.t :=
  let cancelId :=
    if cancel && JS.truthy (SpringValue._lastCallId s)
    then Some (SpringValue._lastCallId s) else None in
  let s := SpringValue.set_state (stopAsync cancelId (SpringValue._state s)) s in
  (* Ensure the `to` value equals the current value. *)
  let s := _focus (option_map TVal (get s)) s in
  (* Exit the frameloop and notify `onRest` listeners. *)
  _stop cancel s.

(** [idle] (lines 108-110). *)
Definition idle (s : SpringValue.t) : bool :=
  negb (isAnimating s || is_some (RunAsyncState.asyncTo (SpringValue._state s)))
  || isPaused s.

End Spring.

(** ** [advance] *)

Section Advance.

Context (G : Globals) (F : FluidGraph).

(** [anim.values.forEach((node, i) => ...)]: the nodes are advanced in
    order, each through the heap; [idle] and [changed] accumulate. *)
Fixpoint advance_values
  (anim : Animation.t) (payload : option (list ParentChannel))
  (toValues : option (list Value)) (dt : float) (i : nat) (ids : list nat)
  (s : SpringValue.t) (idle changed : bool)
  : option (SpringValue.t * bool * bool) :=
  match ids with
  | [] => Some (s, idle, changed)
  | id :: rest =>
      match advance_node G anim payload toValues dt i
              (cell (SpringValue.heap s) id) with
      | None => None
      | Some r =>
          let s :=
            SpringValue.set_heap
              (update (SpringValue.heap s) id (fun _ => step_node r)) s in
          let s := if step_warned r then emit WarnNaN s else s in
          advance_values anim payload toValues dt (S i) rest s
            (idle && negb (step_busy r)) (changed || step_changed r)
      end
  end.

(** The [toValues] that [advance] uses (lines 151-159): those of the
    animation, or the current value of a fluid [to] without a payload. *)
Definition advance_toValues (anim : Animation.t) : option (list Value) :=
  match getPayload F (Animation.to anim) with
  | Some _ => Animation.toValues anim
  | None =>
      if isFluid (Animation.to anim) then
        Some (match getFluidValue F (Animation.to anim) with
              | Some v => toArray v
              | None => []
              end)
      else Animation.toValues anim
  end.

(** [advance] (lines 146-305).  [None]: the call does not return (a
    channel without a goal, a sub-step loop that only a [break] ends, or a
    [finish] that throws). *)
Definition advance (dt : float) (s : SpringValue.t) : option SpringValue.t :=
  let anim := SpringValue.animation s in
  match advance_values anim (getPayload F (Animation.to anim))
          (advance_toValues anim) dt 0 (Animation.values anim) s true false with
  | None => None
  | Some (s, idle, changed) =>
      if idle then returned (finish G F s)
      else if changed then Some (_onChange (get G s) false s)
      else Some s
  end.

End Advance.

(** ** [_update] and [_merge] *)

(** The locals of [_merge] once the range is merged (lines 568-619): the new
    [to], the new [from] read through the fluid graph, the previous [to],
    what changed, and the [decay] and [velocity] of the config before the
    props' config is merged into it. *)
Record MergeRange := mkMergeRange {
  m_to : option Target;
  m_from : option Value;
  m_prevTo : option Target;
  m_hasToChanged : bool;
  m_hasFromChanged : bool;
  m_decay : DecayProp;
  m_velocity : VelocityProp
}.

Section Merge.

Context (G : Globals) (F : FluidGraph).

(** [_prepareNode] (lines 421-460). *)
Definition _prepareNode (props : Props.t) (s : SpringValue.t)
  : Outcome AnimationRange :=
  let key := match SpringValue.key s with Some k => k | None => EmptyString end in
  let to := lookup_prop (Props.to props) key in
  let from := lookup_prop (Props.from props) key in
  (* Create the range now to avoid "reverse" logic. *)
  let range := mkRange to from in
  if hasAnimated s then Returned range s
  else
    let '(to, from) := if Props.reverse props then (from, to) else (to, from) in
    match getFluidValue F from with
    | Some v =>
        let* s := _set G F (Some (TVal v)) false s in
        Returned range s
    | None =>
        (* Use the "to" value if our node is undefined. *)
        match SpringValue.node s with
        | None =>
            let* s := _set G F to false s in
            Returned range s
        | Some _ => Returned range s
        end
    end.

(** [_update] (lines 463-520), up to the call of [scheduleProps]: the
    result is the range and the props, with their [callId], that
    [scheduleProps] is given. *)
Definition _update (props : Props.t) (s : SpringValue.t)
  : Outcome (AnimationRange * Props.t) :=
  let onProps :=
    or_default (Props.onProps props)
      (DefaultProps.onProps (SpringValue._defaultProps s)) in
  let s := callProp onProps CallOnProps s in
  match _prepareNode props s with
  | Threw e s => Threw e s
  | Returned range s =>
      if SpringValue.frozen s then Threw FrozenError s
      else
        (* [++this._lastCallId], on a binary64 number *)
        let callId := (SpringValue._lastCallId s + 1)%float in
        let s := SpringValue.set_lastCallId callId s in
        Returned (range, Props.set_callId callId props) s
  end.

(** [resolveEventProp(defaultProps, props, 'onRest', key)] as the callee of
    a [checkFinishedOnRest] closure. *)
Definition onRest_prop (props : Props.t) (s : SpringValue.t)
  : option RestCallee :=
  option_map RestHandler
    (or_default (Props.onRest props)
       (DefaultProps.onRest (SpringValue._defaultProps s))).

(** The default props after [if (props.default) mergeDefaultProps(...)]
    (lines 564-566). *)
Definition merged_defaults (props : Props.t) (s : SpringValue.t)
  : DefaultProps.t :=
  if Props.default props
  then mergeDefaultProps (SpringValue._defaultProps s) props
  else SpringValue._defaultProps s.

(** The config after lines 610-619: the props' config is merged into it,
    over the default config unless that is the same object, and not at all
    when the [to] prop is async. *)
Definition merge_config_prop
  (props : Props.t) (defaults : DefaultProps.t) (config : AnimationConfig.t)
  : AnimationConfig.t :=
  match Props.config props with
  | Some c =>
      if isAsyncTo (Props.to props) then config
      else
        mergeConfig G config (cfg_fields c)
          (match DefaultProps.config defaults with
           | Some d =>
               if Nat.eqb (cfg_ref c) (cfg_ref d) then None
               else Some (cfg_fields d)
           | None => None
           end)
  | None => config
  end.

(** The [to] and [from] that the update means (lines 568-578), given the
    previous ones: [(to, from)]. *)
Definition effective_range
  (range : AnimationRange) (props : Props.t) (prevTo prevFrom : option Target)
  : option Target * option Target :=
  let hasToProp := is_some (range_to range) in
  let hasFromProp := is_some (range_from range) in
  let to := or_default (range_to range) prevTo in
  let from := or_default (range_from range) prevFrom in
  (* Focus the "from" value if changing without a "to" value. *)
  let to :=
    if hasFromProp && negb hasToProp
       && (negb (Props.default props) || negb (is_some to))
    then from else to in
  (* Flip the current range if "reverse" is true. *)
  if Props.reverse props then (from, to) else (to, from).

(** Lines 554-619 of [_merge]: [onDelayEnd], the default props, the new
    range, and the config. *)
Definition merge_range
  (range : AnimationRange) (props : Props.t) (s : SpringValue.t)
  : MergeRange * SpringValue.t :=
  let s :=
    callProp
      (or_default (Props.onDelayEnd props)
         (DefaultProps.onDelayEnd (SpringValue._defaultProps s)))
      CallOnDelayEnd s in
  let s := SpringValue.set_defaultProps (merged_defaults props s) s in
  let prevTo := Animation.to (SpringValue.animation s) in
  let prevFrom := Animation.from (SpringValue.animation s) in
  let '(to, from) := effective_range range props prevTo prevFrom in
  let hasFromChanged := negb (isEqual from prevFrom) in
  let s :=
    if hasFromChanged then
      SpringValue.set_animation
        (Animation.set_from from (SpringValue.animation s)) s
    else s in
  let hasToChanged := negb (isEqual to prevTo) in
  let s := if hasToChanged then _focus F to s else s in
  let config := Animation.config (SpringValue.animation s) in
  let s :=
    SpringValue.set_animation
      (Animation.set_config
         (merge_config_prop props (SpringValue._defaultProps s) config)
         (SpringValue.animation s)) s in
  (mkMergeRange to (getFluidValue F from) prevTo hasToChanged hasFromChanged
     (AnimationConfig.decay config) (AnimationConfig.velocity config), s).

(** [reset] (lines 629-635). *)
Definition merge_reset
  (range : AnimationRange) (props : Props.t) (r : MergeRange)
  (s : SpringValue.t) : bool :=
  match Props.reset props with
  | None => is_some (range_from range) && negb (Props.default props)
  | Some _ =>
      is_some (m_from r) && matchProp (Props.reset props) (SpringValue.key s)
  end.

(** [value] (line 638): where the animation starts from. *)
Definition merge_value (reset : bool) (r : MergeRange) (s : SpringValue.t)
  : option Value :=
  if reset then m_from r else get G s.

(** [isAnimatable] (line 644). *)
Definition isAnimatable (goal : option Value) : bool :=
  match goal with
  | Some (VNum _) => true
  | Some (VArr _) => true
  | Some (VStr str) => isAnimatedString G str
  | None => false
  end.

(** [immediate] (lines 647-650). *)
Definition merge_immediate
  (props : Props.t) (goal : option Value) (s : SpringValue.t) : bool :=
  let d := DefaultProps.immediate (SpringValue._defaultProps s) in
  negb (isAsyncTo (Props.to props))
  && (negb (isAnimatable goal)
      || matchProp (if match_truthy d then d else Props.immediate props)
           (SpringValue.key s)).

(** [finished] and [started] as lines 670-691 leave them. *)
Definition merge_finished
  (reset : bool) (value goal : option Value) (r : MergeRange)
  (s : SpringValue.t) : bool :=
  if isFluid (m_to r) then false
  else
    let hasValueChanged := reset || (negb (hasAnimated s) && m_hasFromChanged r) in
    if m_hasToChanged r || hasValueChanged
    then isEqualV (computeGoal G value) goal
    else false.

Definition merge_started
  (reset : bool) (value goal : option Value) (r : MergeRange)
  (s : SpringValue.t) : bool :=
  if isFluid (m_to r) then true
  else
    let hasValueChanged := reset || (negb (hasAnimated s) && m_hasFromChanged r) in
    let config := Animation.config (SpringValue.animation s) in
    (if m_hasToChanged r || hasValueChanged
     then negb (isEqualV (computeGoal G value) goal)
     else false)
    (* Changing "decay" or "velocity" starts the animation. *)
    || negb (decay_eq (AnimationConfig.decay config) (m_decay r))
    || negb (velocity_eq (AnimationConfig.velocity config) (m_velocity r)).

(** Lines 693-703: when an active animation changes its goal to its current
    value.  The result is [started] and the state. *)
Definition merge_settle
  (reset finished started : bool) (s : SpringValue.t)
  : bool * SpringValue.t :=
  if finished && isAnimating s then
    (* Avoid an abrupt stop unless the animation is being reset. *)
    if Animation.changed (SpringValue.animation s) && negb reset then (true, s)
    (* Stop the animation before its first frame. *)
    else if negb started then (started, _stop G F false s)
    else (started, s)
  else (started, s).

Definition set_head (x : OnRestFn) (queue : list OnRestFn) : list OnRestFn :=
  match queue with
  | [] => [x]
  | _ :: rest => x :: rest
  end.

(** Lines 705-764: what an update without an async [to] stores in the
    animation. *)
Definition merge_store
  (props : Props.t) (r : MergeRange) (reset started immediate : bool)
  (goal : option Value) (s : SpringValue.t) : Outcome unit :=
  let callId := Props.callId props in
  let goalType :=
    match SpringValue.node s with
    | Some nd => animated_ctor s nd
    | None => TyValue
    end in
  let s :=
    if started || isFluid (m_prevTo r) then
      let values :=
        match SpringValue.node s with
        | Some nd => animated_payload nd
        | None => []
        end in
      let toValues :=
        if isFluid (m_to r) then None
        else if AnimatedType_eqb goalType TyString then Some [VNum 1%float]
        else Some (match goal with
                   | Some g => toArray g
                   | None => []
                   end) in
      SpringValue.set_animation
        (Animation.set_toValues toValues
           (Animation.set_values values (SpringValue.animation s))) s
    else s in
  let* s :=
    if Bool.eqb (Animation.immediate (SpringValue.animation s)) immediate
    then Returned tt s
    else
      let s :=
        SpringValue.set_animation
          (Animation.set_immediate immediate (SpringValue.animation s)) s in
      (* Ensure the immediate goal is used as from value. *)
      if negb immediate && negb reset then _set G F (m_prevTo r) false s
      else Returned tt s in
  let defaults := SpringValue._defaultProps s in
  let s :=
    if started then
      SpringValue.set_animation
        (Animation.set_handlers
           (or_default (Props.onStart props) (DefaultProps.onStart defaults))
           (or_default (Props.onChange props) (DefaultProps.onChange defaults))
           (or_default (Props.onPause props) (DefaultProps.onPause defaults))
           (or_default (Props.onResume props) (DefaultProps.onResume defaults))
           (SpringValue.animation s)) s
    else s in
  (* The "reset" prop tries to reuse the old "onRest" prop,
     unless you defined a new "onRest" prop. *)
  let onRestQueue := Animation.onRest (SpringValue.animation s) in
  let onRest :=
    if reset && negb (is_some (Props.onRest props))
    then hd RestNoop onRestQueue
    else checkFinishedOnRest (onRest_prop props s) s in
  Returned tt
    (if started then
       let s :=
         SpringValue.set_animation
           (Animation.set_onRest
              [onRest; checkFinishedOnRest (Some (RestResolver callId)) s]
              (SpringValue.animation s)) s in
       (* Flush the "onRest" queue for the previous animation. *)
       call_each G F false (skipn (if reset then 0 else 1) onRestQueue) s
     else if reset || is_some (Props.onRest props) then
       SpringValue.set_animation
         (Animation.set_onRest (set_head onRest onRestQueue)
            (SpringValue.animation s)) s
     else s).

(** Modelled from the spec: the call of [runAsync] with an async [to]
    ([runAsync.ts] is not part of the sources): the chain becomes the async
    [to] in flight, and the update resolves with its result. *)
Definition runAsync (callId : float) (s : SpringValue.t) : SpringValue.t :=
  let st := SpringValue._state s in
  emit (ResolveAsync callId)
    (SpringValue.set_state
       (RunAsyncState.mk (RunAsyncState.paused st) (RunAsyncState.pauseQueue st)
          (RunAsyncState.resumeQueue st) (RunAsyncState.timeouts st)
          (Some callId) (RunAsyncState.cancelId st)) s).

(** Lines 766-793: the node is reset, and the update starts an animation,
    waits for the one in flight, or resolves at once. *)
Definition merge_dispatch
  (props : Props.t) (r : MergeRange) (reset started : bool)
  (value : option Value) (s : SpringValue.t) : Outcome unit :=
  let callId := Props.callId props in
  (* Update our node even if the animation is idle. *)
  let* s :=
    if reset then _set G F (option_map TVal value) false s
    else Returned tt s in
  if isAsyncTo (Props.to props) then Returned tt (runAsync callId s)
  else if started then
    (* Must be idle for "onStart" to be called again. *)
    let s := if reset then setActiveBit false s else s in
    _start G F s
  else if isAnimating s && negb (m_hasToChanged r) then
    Returned tt
      (SpringValue.set_animation
         (Animation.set_onRest
            (Animation.onRest (SpringValue.animation s)
             ++ [checkFinishedOnRest (Some (RestResolver callId)) s])
            (SpringValue.animation s)) s)
  else
    Returned tt
      (resolve callId
         (Noop (match value with
                | Some v => Some v
                | None => get G s
                end)) s).

(** Lines 621-793 of [_merge]. *)
Definition merge_props
  (range : AnimationRange) (props : Props.t) (r : MergeRange)
  (s : SpringValue.t) : Outcome unit :=
  let callId := Props.callId props in
  match SpringValue.node s, m_to r with
  | Some node, Some to =>
      let reset := merge_reset range props r s in
      let value := merge_value reset r s in
      let goal := computeGoalT G F (Some to) in
      let immediate := merge_immediate props goal s in
      let mismatch :=
        m_hasToChanged r
        && negb (AnimatedType_eqb (getAnimatedType G F to) (animated_ctor s node)) in
      if mismatch && negb immediate then
        Threw (TypeMismatchError (animated_ctor s node) (getAnimatedType G F to)) s
      else
        let* s :=
          if mismatch then _set G F (option_map TVal goal) false s
          else Returned tt s in
        let finished := merge_finished reset value goal r s in
        let started := merge_started reset value goal r s in
        let '(started, s) := merge_settle reset finished started s in
        let* s :=
          if isAsyncTo (Props.to props) then Returned tt s
          else merge_store props r reset started immediate goal s in
        merge_dispatch props r reset started value s
  | _, _ => Returned tt (resolve callId (Finished (get G s) true) s)
  end.

(** [_merge] (lines 523-794). *)
Definition _merge
  (range : AnimationRange) (props : Props.t) (s : SpringValue.t)
  : Outcome unit :=
  let callId := Props.callId props in
  (* The "cancel" prop cancels all pending delays and it forces the
     active animation to stop where it is. *)
  if Props.cancel props then
    let s := stop G F true s in
    Returned tt (resolve callId (Cancelled (get G s)) s)
  else
    let hasRange := is_some (range_to range) || is_some (range_from range) in
    (* Avoid merging other props if implicitly prevented, except
       when both the "to" and "from" props are undefined. *)
    if hasRange && negb (SpringValue._lastToId s <? callId)%float then
      Returned tt (resolve callId (Cancelled (get G s)) s)
    else
      let s := if hasRange then SpringValue.set_lastToId callId s else s in
      let '(r, s) := merge_range range props s in
      merge_props range props r s.

End Merge.

(** ** Submitting an update *)

Section Submit.

Context (G : Globals) (F : FluidGraph).

(** Modelled from the spec: [scheduleProps] ([scheduleProps.ts] is not part
    of the sources) for an update without a delay on a spring that is not
    paused: the update reaches [_merge] at once, with the [callId] that
    [_update] assigned to it. *)
Definition submit (props : Props.t) (s : SpringValue.t) : Outcome unit :=
  match _update G F props s with
  | Returned (range, props') s' => _merge G F range props' s'
  | Threw e s' => Threw e s'
  end.

(** [advance] called frame after frame with the same [dt], at most [frames]
    times, while the spring is not idle. *)
Fixpoint run_frames (frames : nat) (dt : float) (s : SpringValue.t)
  : option SpringValue.t :=
  match frames with
  | O => Some s
  | S k =>
      if idle s then Some s
      else
        match advance G F dt s with
        | Some s' => run_frames k dt s'
        | None => None
        end
  end.

(** The channel callback of [advance] called again and again on one node,
    once for each [dt] of a list. *)
Fixpoint advance_node_each
  (anim : Animation.t) (payload : option (list ParentChannel))
  (toValues : option (list Value)) (i : nat) (dts : list float)
  (node : AnimatedValue.t) : option AnimatedValue.t :=
  match dts with
  | [] => Some node
  | dt :: rest =>
      match advance_node G anim payload toValues dt i node with
      | Some r => advance_node_each anim payload toValues i rest (step_node r)
      | None => None
      end
  end.

(** The position of every channel of the animation. *)
Definition positions (s : SpringValue.t) : list float :=
  map (fun id => AnimatedValue.lastPosition (cell (SpringValue.heap s) id))
    (Animation.values (SpringValue.animation s)).

(** [advance] called once for each [dt] of a list. *)
Fixpoint advance_each (dts : list float) (s : SpringValue.t)
  : option SpringValue.t :=
  match dts with
  | [] => Some s
  | dt :: rest =>
      match advance G F dt s with
      | Some s' => advance_each rest s'
      | None => None
      end
  end.

End Submit.

(** ** The motion models in the words of the specification *)

Module Spec.

Local Open Scope float_scope.

(** Duration mode: the progress made after [elapsedTime], from the progress
    the config starts at; a duration of [0] or less is complete at once. *)
Definition duration_progress (configProgress elapsedTime duration : float)
  : float :=
  if duration <=? 0 then 1
  else configProgress
       + (1 - configProgress) * JS.Math_min 1 (elapsedTime / duration).

Definition eased_position (easing : float -> float) (from to p : float)
  : float :=
  from + easing p * (to - from).

Definition discrete_velocity (position lastPosition dt : float) : float :=
  (position - lastPosition) / dt.

(** Decay mode. *)
Definition decayRate (decay : DecayProp) : float :=
  match decay with
  | DecayBool true => 0.998
  | DecayNum x => x
  | _ => nan
  end.

Definition decay_factor (exp : float -> float) (decayRate elapsedTime : float)
  : float :=
  exp (- (1 - decayRate) * elapsedTime).

Definition decay_position (from seedVelocity decayRate e : float) : float :=
  from + (seedVelocity / (1 - decayRate)) * (1 - e).

Definition decay_velocity (seedVelocity e : float) : float :=
  seedVelocity * e.

Definition decay_done (lastPosition position : float) : bool :=
  JS.Math_abs (lastPosition - position) <? 0.1.

(** Spring mode: the thresholds of rest detection. *)
Definition default_precision (from to : float) : float :=
  if from =? to then 0.005
  else JS.Math_min 1 (JS.Math_abs (to - from) * 0.001).

Definition default_restVelocity (precision : float) : float :=
  precision / 10.

(** A channel rests when its velocity does not exceed [restVelocity] and
    its position is within [precision] of the goal. *)
Definition resting (to precision restVelocity position velocity : float)
  : bool :=
  negb (restVelocity <? JS.Math_abs velocity)
  && (JS.Math_abs (to - position) <=? precision).

(** The opt-in bounce: a position on the goal, or past it in the direction
    of travel, is put on the goal with the velocity turned around and
    scaled. *)
Definition deflect
  (bounceFactor : option float) (isGrowing : bool) (to : float)
  (pv : float * float) : float * float :=
  match bounceFactor with
  | Some bf =>
      if (fst pv =? to) || Bool.eqb (to <? fst pv) isGrowing
      then (to, - snd pv * bf)
      else pv
  | None => pv
  end.

(** One semi-implicit Euler sub-step of [step = 1] ms. *)
Definition euler_substep (tension friction mass to : float)
  (pv : float * float) : float * float :=
  let springForce := - tension * 0.000001 * (fst pv - to) in
  let dampingForce := - friction * 0.001 * snd pv in
  let acceleration := (springForce + dampingForce) / mass in
  let velocity := snd pv + acceleration * 1 in
  (fst pv + velocity * 1, velocity).

(** [k] sub-steps in a row. *)
Fixpoint substeps (tension friction mass to : float)
  (bounceFactor : option float) (isGrowing : bool) (k : nat)
  (pv : float * float) : float * float :=
  match k with
  | O => pv
  | S j =>
      substeps tension friction mass to bounceFactor isGrowing j
        (euler_substep tension friction mass to
           (deflect bounceFactor isGrowing to pv))
  end.

(** At most [n] sub-steps, left early at rest: the position, the velocity,
    and whether the channel came to rest. *)
Fixpoint spring_substeps
  (tension friction mass to precision restVelocity : float)
  (bounceFactor : option float) (isGrowing : bool)
  (n : nat) (pv : float * float) : float * float * bool :=
  match n with
  | O => (pv, false)
  | S k =>
      if resting to precision restVelocity (fst pv) (snd pv) then (pv, true)
      else
        spring_substeps tension friction mass to precision restVelocity
          bounceFactor isGrowing k
          (euler_substep tension friction mass to
             (deflect bounceFactor isGrowing to pv))
  end.

End Spec.

(** ** The claims that the code does not bear out, as they are stated *)

Module Stated.

Local Open Scope float_scope.


(** C2 as stated: in spring mode every non-done channel takes the sub-steps
    of [dt], plain Euler sub-steps, and finishes exactly when the loop
    leaves early at rest. *)
Definition spring_mode (G : Globals) : Prop :=
  forall anim payload toValues dt i node to n,
    AnimatedValue.done node = false ->
    Animation.immediate anim = false ->
    AnimationConfig.duration (Animation.config anim) = None ->
    decay_truthy (AnimationConfig.decay (Animation.config anim)) = false ->
    (0 <? dt) = true ->
    JS.loop_count (dt / 1) = Some n ->
    channel_to node payload toValues i = Some to ->
    let config := Animation.config anim in
    let from := nth i (Animation.fromValues anim) nan in
    let goal := goal_number to in
    let start :=
      (AnimatedValue.lastPosition node,
       match AnimatedValue.lastVelocity node with
       | Some v => v
       | None => seedVelocity config i node
       end) in
    let precision :=
      JS.or_else (AnimationConfig.precision config)
        (Spec.default_precision from goal) in
    let restVelocity :=
      JS.or_else (AnimationConfig.restVelocity config)
        (Spec.default_restVelocity precision) in
    let after k :=
      Spec.substeps (AnimationConfig.tension config)
        (AnimationConfig.friction config) (AnimationConfig.mass config)
        goal None false k start in
    let resting k :=
      Spec.resting goal precision restVelocity (fst (after k)) (snd (after k)) in
    exists r k,
      advance_node G anim payload toValues dt i node = Some r
      /\ (k <= n)%nat
      /\ (forall j, (j < k)%nat -> resting j = false)
      /\ ((k < n)%nat -> resting k = true)
      /\ AnimatedValue.lastPosition (step_node r) = fst (after k)
      /\ AnimatedValue.done (step_node r) = (k <? n)%nat.

(** C3 as stated: when the goal of an update is the current value of an
    active animation that has changed the value, the animation is
    restarted. *)
Definition active_animation_restarts (G : Globals) (F : FluidGraph) : Prop :=
  forall range props r s nd to s1,
    SpringValue.node s = Some nd ->
    m_to r = Some to ->
    isAsyncTo (Props.to props) = false ->
    let reset := merge_reset range props r s in
    let value := merge_value G reset r s in
    let goal := computeGoalT G F (Some to) in
    let immediate := merge_immediate G props goal s in
    let mismatch :=
      m_hasToChanged r
      && negb (AnimatedType_eqb (getAnimatedType G F to) (animated_ctor s nd)) in
    (mismatch && negb immediate) = false ->
    (if mismatch then _set G F (option_map TVal goal) false s
     else Returned tt s) = Returned tt s1 ->
    merge_finished G reset value goal r s1 = true ->
    isEqualV goal (get G s1) = true ->
    isAnimating s1 = true ->
    Animation.changed (SpringValue.animation s1) = true ->
    isAnimating (outcome_state (merge_props G F range props r s)) = true.


(** C6 as stated: in duration mode every non-done channel gets the eased
    position and finishes exactly when the progress is [1]. *)
Definition duration_mode (G : Globals) : Prop :=
  forall anim payload toValues dt i node to d,
    AnimatedValue.done node = false ->
    Animation.immediate anim = false ->
    AnimationConfig.duration (Animation.config anim) = Some d ->
    channel_to node payload toValues i = Some to ->
    let config := Animation.config anim in
    let from := nth i (Animation.fromValues anim) nan in
    let p :=
      Spec.duration_progress (JS.or_else (AnimationConfig.progress config) 0)
        (AnimatedValue.elapsedTime node + dt) d in
    let position :=
      Spec.eased_position (AnimationConfig.easing config) from
        (goal_number to) p in
    exists r,
      advance_node G anim payload toValues dt i node = Some r
      /\ AnimatedValue.lastPosition (step_node r) = position
      /\ AnimatedValue.lastVelocity (step_node r)
         = Some (Spec.discrete_velocity position
                   (AnimatedValue.lastPosition node) dt)
      /\ AnimatedValue.done (step_node r) = (p =? 1).

(** C7 as stated: in decay mode every non-done channel gets the decayed
    position and finishes exactly when it moved by less than [0.1]. *)
Definition decay_mode (G : Globals) : Prop :=
  forall anim payload toValues dt i node to,
    AnimatedValue.done node = false ->
    Animation.immediate anim = false ->
    AnimationConfig.duration (Animation.config anim) = None ->
    decay_truthy (AnimationConfig.decay (Animation.config anim)) = true ->
    channel_to node payload toValues i = Some to ->
    let config := Animation.config anim in
    let from := nth i (Animation.fromValues anim) nan in
    let decayRate := Spec.decayRate (AnimationConfig.decay config) in
    let seed := seedVelocity config i node in
    let e :=
      Spec.decay_factor (Math_exp G) decayRate
        (AnimatedValue.elapsedTime node + dt) in
    let position := Spec.decay_position from seed decayRate e in
    exists r,
      advance_node G anim payload toValues dt i node = Some r
      /\ AnimatedValue.lastPosition (step_node r) = position
      /\ AnimatedValue.lastVelocity (step_node r)
         = Some (Spec.decay_velocity seed e)
      /\ AnimatedValue.done (step_node r)
         = Spec.decay_done (AnimatedValue.lastPosition node) position.


(** C9 as stated: with a tension of [0] or less no number of calls of the
    channel callback of [advance] changes the position of the channel. *)
Definition loose_channel_never_moves (G : Globals) : Prop :=
  forall anim payload toValues i dts node node',
    (AnimationConfig.tension (Animation.config anim) <=? 0) = true ->
    advance_node_each G anim payload toValues i dts node = Some node' ->
    AnimatedValue.lastPosition node' = AnimatedValue.lastPosition node.

End Stated.

(** ** Sample springs *)

Module Sample.

Local Open Scope float_scope.

(** [Object.assign] of one config field. *)
Definition assign_field (c : AnimationConfig.t) (f : ConfigField)
  : AnimationConfig.t :=
  let '(AnimationConfig.mk t fr m v cl b d e dc p rv ro pr) := c in
  match f with
  | Tension x => AnimationConfig.mk x fr m v cl b d e dc p rv ro pr
  | Friction x => AnimationConfig.mk t x m v cl b d e dc p rv ro pr
  | Mass x => AnimationConfig.mk t fr x v cl b d e dc p rv ro pr
  | Velocity x => AnimationConfig.mk t fr m x cl b d e dc p rv ro pr
  | Clamp x => AnimationConfig.mk t fr m v x b d e dc p rv ro pr
  | Bounce x => AnimationConfig.mk t fr m v cl (Some x) d e dc p rv ro pr
  | Duration x => AnimationConfig.mk t fr m v cl b (Some x) e dc p rv ro pr
  | Easing x => AnimationConfig.mk t fr m v cl b d x dc p rv ro pr
  | Decay x => AnimationConfig.mk t fr m v cl b d e x p rv ro pr
  | Precision x => AnimationConfig.mk t fr m v cl b d e dc (Some x) rv ro pr
  | RestVelocity x => AnimationConfig.mk t fr m v cl b d e dc p (Some x) ro pr
  | Round x => AnimationConfig.mk t fr m v cl b d e dc p rv (Some x) pr
  | Progress x => AnimationConfig.mk t fr m v cl b d e dc p rv ro (Some x)
  | Frequency _ => c
  | Damping _ => c
  end.

(** A [mergeConfig] that assigns the default fields, then the new ones. *)
Definition assign (c : AnimationConfig.t) (fields : list ConfigField)
  (defaults : option (list ConfigField)) : AnimationConfig.t :=
  fold_left assign_field
    (match defaults with Some d => d | None => [] end ++ fields) c.

(** Globals for the samples: no string is interpolable, nothing is rounded,
    the frame loop is used, and [exp] is cut after its linear term (the
    samples that use it only need some function). *)
Definition G0 : Globals :=
  mkGlobals (fun x => 1 + x) (fun x => x) (fun _ => false) (fun _ b _ => b)
    false assign.

(** A fluid graph with one fluid value, [0], whose value is [1] and which is
    not a spring. *)
Definition F0 : FluidGraph :=
  mkFluidGraph
    (fun id => match id with O => Some (VNum 1) | _ => None end)
    (fun _ => None) (fun _ => None).

(** The default config: tension 170, friction 26, mass 1, linear easing. *)
Definition config0 : AnimationConfig.t :=
  AnimationConfig.mk 170 26 1 (VelNum 0) false None None (fun t => t)
    DecayUndef None None None None.

Definition animation0 : Animation.t :=
  Animation.mk false [] None [] None None config0 false None None None None [].

(** [new SpringValue()] *)
Definition spring0 : SpringValue.t :=
  SpringValue.mk None animation0 None [] (mkPhase false false false)
    RunAsyncState.initial DefaultProps.empty 0 0 0 0 false [].

Definition props0 : Props.t :=
  Props.mk PropUndef PropUndef None None false None false false
    None None None None None None None 0.

Definition with_to (t : Target) (p : Props.t) : Props.t :=
  Props.mk (PropTarget t) (Props.from p) (Props.config p) (Props.reset p)
    (Props.cancel p) (Props.immediate p) (Props.reverse p) (Props.default p)
    (Props.onStart p) (Props.onChange p) (Props.onPause p) (Props.onResume p)
    (Props.onRest p) (Props.onProps p) (Props.onDelayEnd p) (Props.callId p).

Definition with_from (t : Target) (p : Props.t) : Props.t :=
  Props.mk (Props.to p) (PropTarget t) (Props.config p) (Props.reset p)
    (Props.cancel p) (Props.immediate p) (Props.reverse p) (Props.default p)
    (Props.onStart p) (Props.onChange p) (Props.onPause p) (Props.onResume p)
    (Props.onRest p) (Props.onProps p) (Props.onDelayEnd p) (Props.callId p).

Definition with_config (c : ConfigProp) (p : Props.t) : Props.t :=
  Props.mk (Props.to p) (Props.from p) (Some c) (Props.reset p)
    (Props.cancel p) (Props.immediate p) (Props.reverse p) (Props.default p)
    (Props.onStart p) (Props.onChange p) (Props.onPause p) (Props.onResume p)
    (Props.onRest p) (Props.onProps p) (Props.onDelayEnd p) (Props.callId p).

Definition with_reset (p : Props.t) : Props.t :=
  Props.mk (Props.to p) (Props.from p) (Props.config p)
    (Some (MatchBool true))
    (Props.cancel p) (Props.immediate p) (Props.reverse p) (Props.default p)
    (Props.onStart p) (Props.onChange p) (Props.onPause p) (Props.onResume p)
    (Props.onRest p) (Props.onProps p) (Props.onDelayEnd p) (Props.callId p).

Definition with_cancel (p : Props.t) : Props.t :=
  Props.mk (Props.to p) (Props.from p) (Props.config p) (Props.reset p)
    true (Props.immediate p) (Props.reverse p) (Props.default p)
    (Props.onStart p) (Props.onChange p) (Props.onPause p) (Props.onResume p)
    (Props.onRest p) (Props.onProps p) (Props.onDelayEnd p) (Props.callId p).

Definition with_immediate (p : Props.t) : Props.t :=
  Props.mk (Props.to p) (Props.from p) (Props.config p) (Props.reset p)
    (Props.cancel p) (Some (MatchBool true)) (Props.reverse p)
    (Props.default p)
    (Props.onStart p) (Props.onChange p) (Props.onPause p) (Props.onResume p)
    (Props.onRest p) (Props.onProps p) (Props.onDelayEnd p) (Props.callId p).

Definition with_default (p : Props.t) : Props.t :=
  Props.mk (Props.to p) (Props.from p) (Props.config p) (Props.reset p)
    (Props.cancel p) (Props.immediate p) (Props.reverse p) true
    (Props.onStart p) (Props.onChange p) (Props.onPause p) (Props.onResume p)
    (Props.onRest p) (Props.onProps p) (Props.onDelayEnd p) (Props.callId p).

(** The handlers [onStart = 1], [onChange = 2], [onRest = 3]. *)
Definition with_handlers (p : Props.t) : Props.t :=
  Props.mk (Props.to p) (Props.from p) (Props.config p) (Props.reset p)
    (Props.cancel p) (Props.immediate p) (Props.reverse p) (Props.default p)
    (Some 1%nat) (Some 2%nat) (Props.onPause p) (Props.onResume p)
    (Some 3%nat) (Props.onProps p) (Props.onDelayEnd p) (Props.callId p).

(** [Object.freeze(spring)] *)
Definition freeze (s : SpringValue.t) : SpringValue.t :=
  SpringValue.mk (SpringValue.key s) (SpringValue.animation s)
    (SpringValue.node s) (SpringValue.heap s) (SpringValue.phase s)
    (SpringValue._state s) (SpringValue._defaultProps s)
    (SpringValue._lastCallId s) (SpringValue._lastToId s)
    (SpringValue._children s) (SpringValue.priority s) true
    (SpringValue.log s).

Definition or_self (s : SpringValue.t) (o : option SpringValue.t)
  : SpringValue.t :=
  match o with
  | Some s' => s'
  | None => s
  end.


(** [new SpringValue(0)]: the constructor starts [{ from: 0, default: true }]. *)
Definition spring_at_0 : SpringValue.t :=
  Eval vm_compute in
    outcome_state
      (submit G0 F0 (with_default (with_from (TVal (VNum 0)) props0)) spring0).

(** [start({ to: 1, onStart, onChange, onRest })] on it. *)
Definition to_1 : Props.t := with_handlers (with_to (TVal (VNum 1)) props0).

Definition spring_started : SpringValue.t :=
  Eval vm_compute in outcome_state (submit G0 F0 to_1 spring_at_0).

(** Five frames of 16 ms later the spring is on its way ... *)
Definition spring_moving : SpringValue.t :=
  Eval vm_compute in
    or_self spring_started (run_frames G0 F0 5 16 spring_started).

(** ... and after 45 frames (200 are allowed) it has settled at 1. *)
Definition spring_settled : SpringValue.t :=
  Eval vm_compute in
    or_self spring_started (run_frames G0 F0 200 16 spring_started).

(** Update A, [{ to: 10, delay: 100 }], is submitted first: it gets its
    [callId] and waits for its delay. *)
Definition to_10 : Props.t := with_to (TVal (VNum 10)) props0.






(** A spring that follows the fluid value [0], settled on its value. *)
Definition follow : Props.t := with_handlers (with_to (TFluid 0) props0).

Definition spring_following : SpringValue.t :=
  Eval vm_compute in
    let s := outcome_state (submit G0 F0 follow spring_at_0) in
    or_self s (run_frames G0 F0 200 16 s).

(** [{ to: 0, reset: true }], [{ to: [1, 2] }], [{ from: 5, to: 10 }]. *)
Definition back_to_0 : Props.t := with_reset (with_to (TVal (VNum 0)) props0).


Definition from_5_to_10 : Props.t :=
  with_from (TVal (VNum 5)) (with_to (TVal (VNum 10)) props0).

(** One channel from 0 to 10, not started yet, under a config. *)
Definition channel_animation (immediate : bool) (config : AnimationConfig.t)
  : Animation.t :=
  Animation.mk false [0%nat] (Some [VNum 10]) [0] (Some (TVal (VNum 10)))
    (Some (TVal (VNum 0))) config immediate None None None None [].

Definition channel_node : AnimatedValue.t :=
  AnimatedValue.mk TyValue (VNum 0) false 0 0 None None None
    (EmptyString, EmptyString).

(** Configs: a loose spring, a duration of one second, a decay with a seed
    velocity of 1, each also with a tension of 0. *)
Definition loose_config : AnimationConfig.t := assign config0 [Tension 0] None.

Definition duration_config : AnimationConfig.t :=
  assign config0 [Duration 1000] None.

Definition loose_duration_config : AnimationConfig.t :=
  assign config0 [Duration 1000; Tension 0] None.

Definition decay_config : AnimationConfig.t :=
  assign config0 [Decay (DecayBool true); Velocity (VelNum 1)] None.

Definition loose_decay_config : AnimationConfig.t :=
  assign config0 [Decay (DecayBool true); Velocity (VelNum 1); Tension 0] None.

(** [start({ to: 1, config: { tension: 0 } })] on the spring at 0. *)
Definition loose_to_1 : Props.t :=
  with_config (mkConfigProp 1 [Tension 0]) (with_to (TVal (VNum 1)) props0).

Definition spring_loose : SpringValue.t :=
  Eval vm_compute in outcome_state (submit G0 F0 loose_to_1 spring_at_0).

(** [{ to: <the value of the moving spring> }] as [_merge] gets it, and the
    spring once lines 554-619 have merged its range. *)
Definition to_current : Props.t :=
  Props.set_callId 3 (with_to (TVal (VNum 0.28451838280769204)) props0).

Definition range_current : AnimationRange :=
  mkRange (Some (TVal (VNum 0.28451838280769204))) None.

Definition merged_current : MergeRange * SpringValue.t :=
  Eval vm_compute in
    merge_range G0 F0 range_current to_current
      (SpringValue.set_lastToId 3 spring_moving).

(** The same with [{ from: <that value>, to: <that value>, reset: true }]. *)
Definition reset_here : Props.t :=
  Props.set_callId 3
    (with_reset
       (with_from (TVal (VNum 0.28451838280769204))
          (with_to (TVal (VNum 0.28451838280769204)) props0))).

Definition range_here : AnimationRange :=
  mkRange (Some (TVal (VNum 0.28451838280769204)))
    (Some (TVal (VNum 0.28451838280769204))).

Definition merged_here : MergeRange * SpringValue.t :=
  Eval vm_compute in
    merge_range G0 F0 range_here reset_here
      (SpringValue.set_lastToId 3 spring_moving).

Definition is_onStart (e : Event) : bool :=
  match e with
  | CallOnStart _ => true
  | _ => false
  end.

End Sample.

(** ** The other methods of the spring *)

(** An event of the parent of a spring, as [onParentChange] tells them
    apart. *)
Inductive ParentEvent :=
| ParentChange
| ParentPriority (priority : float)
| ParentOther.

(** What [start] is called with: nothing, an update, or a goal with
    optional props. *)
Inductive StartArgs :=
| StartQueue
| StartProps (props : Props.t)
| StartTo (to : Target) (arg2 : option Props.t).

(** The first argument of the constructor: a [from] value, or a props
    object. *)
Inductive ConstructorArg :=
| ArgValue (from : Target)
| ArgProps (props : Props.t).

(** The spring with its [queue] of pending props; [None] is the queue that
    was never created. *)
Record Queued := mkQueued {
  spring : SpringValue.t;
  queue : option (list Props.t)
}.

Section Methods.

Context (G : Globals) (F : FluidGraph).

(** The getter [goal] (lines 112-114). *)
Definition get_goal (s : SpringValue.t) : option Value :=
  getFluidValue F (Animation.to (SpringValue.animation s)).

(** The getter [velocity] (lines 116-121): [node.lastVelocity || 0] of the node, or of
    each node of the payload.  [None] is the [TypeError] of a spring without
    a node. *)
Definition velocity_of (n : AnimatedValue.t) : float :=
  JS.or_else (AnimatedValue.lastVelocity n) 0.

Definition get_velocity (s : SpringValue.t) : option VelocityProp :=
  match SpringValue.node s with
  | Some (ASingle id) => Some (VelNum (velocity_of (cell (SpringValue.heap s) id)))
  | Some (AArray ids) =>
      Some (VelArr (map (fun id => velocity_of (cell (SpringValue.heap s) id)) ids))
  | None => None
  end.

(** [set] (lines 308-315). *)
Definition set (value : option Target) (s : SpringValue.t) : Outcome unit :=
  let s := _focus F value s in
  let* s := _set G F value false s in
  Returned tt (_stop G F false s).

(** [onParentChange] (lines 407-413). *)
Definition onParentChange (event : ParentEvent) (s : SpringValue.t)
  : Outcome unit :=
  match event with
  | ParentChange => _start G F s
  | ParentPriority p => Returned tt (SpringValue.set_priority (p + 1)%float s)
  | ParentOther => Returned tt s
  end.

(** Modelled from the spec: [flushCalls(queue)] of the [shared] package,
    which is not part of the sources: the waiters are called and the queue
    is left empty.  The waiters belong to [runAsync]; their calls are not
    events of the spring. *)
Definition flush_pauseQueue (st : RunAsyncState.t) : RunAsyncState.t :=
  RunAsyncState.mk (RunAsyncState.paused st) [] (RunAsyncState.resumeQueue st)
    (RunAsyncState.timeouts st) (RunAsyncState.asyncTo st)
    (RunAsyncState.cancelId st).

Definition flush_resumeQueue (st : RunAsyncState.t) : RunAsyncState.t :=
  RunAsyncState.mk (RunAsyncState.paused st) (RunAsyncState.pauseQueue st) []
    (RunAsyncState.timeouts st) (RunAsyncState.asyncTo st)
    (RunAsyncState.cancelId st).

(** The [pause] action that [_update] gives to [scheduleProps]
    (lines 492-498). *)
Definition pause_action (s : SpringValue.t) : SpringValue.t :=
  if isPaused s then s
  else
    let s := setPausedBit true s in
    let s := SpringValue.set_state (flush_pauseQueue (SpringValue._state s)) s in
    callProp (Animation.onPause (SpringValue.animation s)) CallOnPause s.

(** The [resume] action (lines 499-508). *)
Definition resume_action (s : SpringValue.t) : Outcome unit :=
  if isPaused s then
    let s := setPausedBit false s in
    let* s := if isAnimating s then _resume G F s else Returned tt s in
    let s := SpringValue.set_state (flush_resumeQueue (SpringValue._state s)) s in
    Returned tt
      (callProp (Animation.onResume (SpringValue.animation s)) CallOnResume s)
  else Returned tt s.

(** [queue.map(props => this._update(props))]: the updates are submitted in
    order; an error ends the loop. *)
Fixpoint submit_each (ps : list Props.t) (s : SpringValue.t) : Outcome unit :=
  match ps with
  | [] => Returned tt s
  | p :: rest =>
      match submit G F p s with
      | Returned _ s' => submit_each rest s'
      | Threw e s' => Threw e s'
      end
  end.

(** [{ ...arg2, to }] *)
Definition props_with_to (to : Target) (p : Props.t) : Props.t :=
  Props.mk (PropTarget to) (Props.from p) (Props.config p) (Props.reset p)
    (Props.cancel p) (Props.immediate p) (Props.reverse p) (Props.default p)
    (Props.onStart p) (Props.onChange p) (Props.onPause p) (Props.onResume p)
    (Props.onRest p) (Props.onProps p) (Props.onDelayEnd p) (Props.callId p).

(** [{}] *)
Definition no_props : Props.t :=
  Props.mk PropUndef PropUndef None None false None false false
    None None None None None None None 0.

(** [start] (lines 370-382): the updates it submits, and the queue it
    leaves. *)
Definition start (args : StartArgs) (q : Queued) : Outcome unit * option (list Props.t) :=
  match args with
  | StartProps props => (submit_each [props] (spring q), queue q)
  | StartTo to arg2 =>
      (submit_each
         [props_with_to to (match arg2 with Some p => p | None => no_props end)]
         (spring q), queue q)
  | StartQueue =>
      (submit_each (match queue q with Some ps => ps | None => [] end) (spring q),
       Some [])
  end.

(** [{ ...arg2, from: arg1 }] *)
Definition props_with_from (from : option Target) (p : Props.t) : Props.t :=
  Props.mk (Props.to p)
    (match from with Some t => PropTarget t | None => PropUndef end)
    (Props.config p) (Props.reset p)
    (Props.cancel p) (Props.immediate p) (Props.reverse p) (Props.default p)
    (Props.onStart p) (Props.onChange p) (Props.onPause p) (Props.onResume p)
    (Props.onRest p) (Props.onProps p) (Props.onDelayEnd p) (Props.callId p).

(** [props.default = true] *)
Definition props_as_default (p : Props.t) : Props.t :=
  Props.mk (Props.to p) (Props.from p) (Props.config p) (Props.reset p)
    (Props.cancel p) (Props.immediate p) (Props.reverse p) true
    (Props.onStart p) (Props.onChange p) (Props.onPause p) (Props.onResume p)
    (Props.onRest p) (Props.onProps p) (Props.onDelayEnd p) (Props.callId p).

(** The constructor (lines 98-105), called with a [from] value or with a
    props object as its first argument.  The spring it starts from, with
    its [new Animation()], is [Sample.spring0]. *)
Definition construct (arg1 : option ConstructorArg) (arg2 : option Props.t)
  : Outcome unit :=
  match arg1, arg2 with
  | None, None => Returned tt Sample.spring0
  | _, _ =>
      let rest := match arg2 with Some p => p | None => no_props end in
      let props :=
        match arg1 with
        | Some (ArgProps p) => p
        | Some (ArgValue from) => props_with_from (Some from) rest
        | None => props_with_from None rest
        end in
      fst (start (StartProps (props_as_default props))
             (mkQueued Sample.spring0 None))
  end.

End Methods.

(** ** [createUpdate] *)

(** A [to] or [from] prop as [createUpdate] sees it: absent, a value, or an
    object whose props may be [null] or [undefined] ([None]). *)
Inductive LookupProp :=
| LookupNone
| LookupValue (t : Target)
| LookupObject (fields : list (string * option Target)).

(** [keys.add(key)] on a [Set] kept in insertion order. *)
Definition Set_add (key : string) (keys : list string) : list string :=
  if existsb (String.eqb key) keys then keys else keys ++ [key].

(** [findDefined] (lines 1045-1047). *)
Definition findDefined (values : list (string * option Target))
  (keys : list string) : list string :=
  fold_left
    (fun keys kv =>
       match snd kv with
       | Some _ => Set_add (fst kv) keys
       | None => keys
       end)
    values keys.

(** The [keys] prop that [createUpdate] (lines 1018-1031) computes from the
    [to] and [from] props that [inferTo] returns; [None] is [null]. *)
Definition createUpdate_keys (to from : LookupProp) : option (list string) :=
  let keys := [] in
  let keys := match to with LookupObject f => findDefined f keys | _ => keys end in
  let keys :=
    match from with LookupObject f => findDefined f keys | _ => keys end in
  match keys with
  | [] => None
  | _ => Some keys
  end.

(** The key is one of the props of the object, with a value that is neither
    [null] nor [undefined]. *)
Definition defines (p : LookupProp) (key : string) : Prop :=
  match p with
  | LookupObject fields => exists v, In (key, Some v) fields
  | _ => False
  end.

(** ** What the properties speak of *)

(** The call returned, in a state of which [P] holds; or it threw the
    [TypeError] of the engine, which takes [excuse]: the call never throws
    without it. *)
Definition returns_or (excuse : Prop) (o : Outcome unit)
  (P : SpringValue.t -> Prop) : Prop :=
  match o with
  | Returned _ s' => P s'
  | Threw e _ => e = TypeError /\ excuse
  end.

(** Every channel of the animation is done. *)
Definition all_done (s : SpringValue.t) : bool :=
  forallb (fun id => AnimatedValue.done (cell (SpringValue.heap s) id))
    (Animation.values (SpringValue.animation s)).

(** The state in which the channel callback of [advance] has marked every
    channel done. *)
Definition mark_done (s : SpringValue.t) : SpringValue.t :=
  SpringValue.set_heap
    (update_all (Animation.values (SpringValue.animation s))
       (AnimatedValue.set_done true) (SpringValue.heap s)) s.

(** The calls of the [onStart] prop in a log. *)
Definition onStart_calls (l : list Event) : list Event :=
  filter (fun e => match e with CallOnStart _ => true | _ => false end) l.

(** What an entry of the [onRest] queue reports when it is called without
    [cancel] on a spring whose value is [value]. *)
Definition rest_report (G : Globals) (F : FluidGraph) (value : option Value)
  (f : OnRestFn) : list Event :=
  match f with
  | RestNoop => []
  | RestCheck callee to =>
      [report callee
         (Finished value
            (isEqualV (computeGoal G value) (computeGoalT G F to)))]
  end.

(** ** More sample springs *)

Module Run.

Import Sample.

Local Open Scope float_scope.

(** The globals of the samples with [skipAnimation] set. *)
Definition G1 : Globals :=
  mkGlobals (Math_exp G0) (Math_round G0) (isAnimatedString G0)
    (interpolate G0) true (mergeConfig G0).

(** The first frame of the spring started towards 1. *)
Definition spring_first_frame : SpringValue.t :=
  Eval vm_compute in or_self spring_started (advance G0 F0 16 spring_started).

(** [start({ to: 1, immediate: true })] on the spring at 0. *)
Definition immediate_to_1 : Props.t :=
  with_immediate (with_to (TVal (VNum 1)) props0).

Definition spring_immediate : SpringValue.t :=
  Eval vm_compute in outcome_state (submit G0 F0 immediate_to_1 spring_at_0).

(** The settled spring, paused. *)
Definition spring_paused : SpringValue.t :=
  Eval vm_compute in pause_action spring_settled.


(** The spring at 0 after 2^53 updates with a goal: the next binary64 number
    after its counters is two away, and [++this._lastCallId] leaves
    [_lastCallId] as it is. *)
Definition spring_worn : SpringValue.t :=
  SpringValue.set_lastToId 9007199254740992
    (SpringValue.set_lastCallId 9007199254740992 spring_at_0).

End Run.

(** ** The channel callback of [advance] *)

Section IntegratorProperties.

Context (G : Globals).

Local Open Scope float_scope.

Lemma AnimatedValue_setValue_fields value step n :
  let n' := fst (AnimatedValue_setValue G value step n) in
  AnimatedValue.done n' = AnimatedValue.done n
  /\ AnimatedValue.elapsedTime n' = AnimatedValue.elapsedTime n
  /\ AnimatedValue.lastVelocity n' = AnimatedValue.lastVelocity n
  /\ AnimatedValue.v0 n' = AnimatedValue.v0 n
  /\ AnimatedValue.ctor n' = AnimatedValue.ctor n.
Proof.
  unfold AnimatedValue_setValue.
  destruct n as [c v d e lp lv v0 str ts].
  destruct value as [x | s | xs]; cbn;
    repeat match goal with
           | |- context [if ?b then _ else _] => destruct b; cbn
           end;
    repeat split; reflexivity.
Qed.

Lemma node_setValue_fields value step n :
  let n' := fst (node_setValue G value step n) in
  AnimatedValue.done n' = AnimatedValue.done n
  /\ AnimatedValue.elapsedTime n' = AnimatedValue.elapsedTime n
  /\ AnimatedValue.lastVelocity n' = AnimatedValue.lastVelocity n
  /\ AnimatedValue.v0 n' = AnimatedValue.v0 n
  /\ AnimatedValue.ctor n' = AnimatedValue.ctor n.
Proof.
  unfold node_setValue.
  destruct (AnimatedValue.ctor n) eqn:Hc;
    try (rewrite <- Hc; apply AnimatedValue_setValue_fields).
  unfold AnimatedString_setValue.
  destruct value as [x | str | xs].
  - pose proof (AnimatedValue_setValue_fields (VNum x) None n) as H.
    destruct (AnimatedValue_setValue G (VNum x) None n) as [n1 changed].
    cbn in H. destruct changed; cbn; rewrite <- Hc; exact H.
  - cbn. rewrite Hc. repeat split; reflexivity.
  - cbn. rewrite Hc. repeat split; reflexivity.
Qed.

(** Without rounding, the position written to a node is its last position. *)
Lemma node_setValue_lastPosition x step n :
  JS.truthy (JS.num step) = false ->
  AnimatedValue.lastPosition (fst (node_setValue G (VNum x) step n)) = x.
Proof.
  intros Hstep.
  assert (Hv : forall st, JS.truthy (JS.num st) = false ->
            AnimatedValue.lastPosition
              (fst (AnimatedValue_setValue G (VNum x) st n)) = x).
  { intros st Hst. unfold AnimatedValue_setValue. rewrite Hst. cbn.
    match goal with |- context [if ?b then _ else _] => destruct b end;
      reflexivity. }
  unfold node_setValue.
  destruct (AnimatedValue.ctor n); try (apply Hv; exact Hstep).
  unfold AnimatedString_setValue.
  specialize (Hv None eq_refl).
  destruct (AnimatedValue_setValue G (VNum x) None n) as [n1 changed].
  cbn in Hv. destruct changed; cbn; exact Hv.
Qed.

(** The node that the callback leaves behind, given the motion it computed:
    the elapsed time, the seed velocity and the velocity are stored, the
    node is marked done when it finished, and the position is written. *)
Lemma advance_node_motion anim payload toValues dt i node to pd m :
  AnimatedValue.done node = false ->
  Animation.immediate anim = false ->
  (AnimationConfig.tension (Animation.config anim) <=? 0) = false ->
  channel_to node payload toValues i = Some to ->
  parentDone payload i = Some pd ->
  let config := Animation.config anim in
  let elapsed := AnimatedValue.elapsedTime node + dt in
  let v0 := seedVelocity config i node in
  let node1 :=
    AnimatedValue.set_v0 (Some v0) (AnimatedValue.set_elapsedTime elapsed node) in
  channel_motion G config node1 v0 (goal_number to)
    (nth i (Animation.fromValues anim) nan) dt elapsed = Some m ->
  let fin := (finished m || JS.Number_isNaN (position m)) && pd in
  exists r,
    advance_node G anim payload toValues dt i node = Some r
    /\ step_busy r = negb fin
    /\ step_warned r = JS.Number_isNaN (position m)
    /\ AnimatedValue.done (step_node r) = fin
    /\ AnimatedValue.elapsedTime (step_node r) = elapsed
    /\ AnimatedValue.v0 (step_node r) = Some v0
    /\ AnimatedValue.lastVelocity (step_node r) = Some (velocity m)
    /\ (JS.truthy (JS.num (AnimationConfig.round config)) = false ->
        AnimatedValue.lastPosition (step_node r) = position m).
Proof.
  intros Hdone Himm Hten Hto Hpd config elapsed v0 node1 Hm fin.
  unfold advance_node. rewrite Hdone, Hto, Himm, Hten.
  fold config. fold elapsed.
  change (seedVelocity config i (AnimatedValue.set_elapsedTime elapsed node))
    with v0.
  fold node1. rewrite Hm.
  unfold settle. rewrite Hpd.
  set (fin' := if pd then finished m || JS.Number_isNaN (position m) else false).
  assert (Hfin : fin' = fin).
  { unfold fin', fin. destruct pd; [rewrite andb_true_r | rewrite andb_false_r];
      reflexivity. }
  set (node2 := AnimatedValue.set_lastVelocity (Some (velocity m)) node1).
  set (node3 := if fin' then AnimatedValue.set_done true node2 else node2).
  pose proof (node_setValue_fields (VNum (position m))
                (AnimationConfig.round config) node3) as Hf.
  pose proof (node_setValue_lastPosition (position m)
                (AnimationConfig.round config) node3) as Hp.
  destruct (node_setValue G (VNum (position m)) (AnimationConfig.round config)
              node3) as [node4 changed].
  cbn in Hf, Hp. destruct Hf as (Hd & He & Hv & Hv0 & _).
  eexists. split; [reflexivity |]. cbn.
  rewrite Hd, He, Hv, Hv0, <- Hfin.
  repeat split; try exact Hp;
    unfold node3, node2, node1; destruct fin'; cbn; auto.
Qed.

(** C6: in duration mode, with a tension above 0, one call of the channel
    callback on a node that is not done and not immediate adds [dt] to the
    elapsed time, computes the progress [p], the eased position and the
    discrete velocity of the specification, stores the velocity, stores the
    position when nothing is rounded, and marks the node done exactly when
    [p == 1] or the position is [NaN], and the parent channel, if there is
    one, is done.  With a duration of 0 or less the node is done as soon as
    the parent channel is. *)
Theorem duration_mode_advance anim payload toValues dt i node to pd d :
  AnimatedValue.done node = false ->
  Animation.immediate anim = false ->
  (AnimationConfig.tension (Animation.config anim) <=? 0) = false ->
  AnimationConfig.duration (Animation.config anim) = Some d ->
  channel_to node payload toValues i = Some to ->
  parentDone payload i = Some pd ->
  let config := Animation.config anim in
  let from := nth i (Animation.fromValues anim) nan in
  let elapsedTime := AnimatedValue.elapsedTime node + dt in
  let p :=
    Spec.duration_progress (JS.or_else (AnimationConfig.progress config) 0)
      elapsedTime d in
  let position :=
    Spec.eased_position (AnimationConfig.easing config) from (goal_number to) p in
  let velocity :=
    Spec.discrete_velocity position (AnimatedValue.lastPosition node) dt in
  let finished := ((p =? 1) || JS.Number_isNaN position) && pd in
  exists r,
    advance_node G anim payload toValues dt i node = Some r
    /\ AnimatedValue.elapsedTime (step_node r) = elapsedTime
    /\ AnimatedValue.lastVelocity (step_node r) = Some velocity
    /\ (JS.truthy (JS.num (AnimationConfig.round config)) = false ->
        AnimatedValue.lastPosition (step_node r) = position)
    /\ AnimatedValue.done (step_node r) = finished
    /\ step_busy r = negb finished
    /\ ((d <=? 0) = true -> AnimatedValue.done (step_node r) = pd).
Proof.
  intros Hdone Himm Hten Hdur Hto Hpd config from elapsedTime p position
    velocity finished.
  destruct (advance_node_motion anim payload toValues dt i node to pd
              (mkMotion position velocity (p =? 1)) Hdone Himm Hten Hto Hpd)
    as (r & Hr & Hbusy & _ & Hd & He & _ & Hv & Hp).
  { unfold channel_motion. cbv zeta. rewrite Hdur. reflexivity. }
  exists r. cbn in Hbusy, Hd, Hv, Hp.
  repeat split; try assumption.
  intros Hle. rewrite Hd. unfold p, Spec.duration_progress. rewrite Hle.
  reflexivity.
Qed.

(** C7: in decay mode (a truthy [decay], no duration), with a tension above
    0, one call of the channel callback on a node that is not done and not
    immediate adds [dt] to the elapsed time, computes the decay rate, [e],
    the position and the velocity of the specification, stores the velocity,
    stores the position when nothing is rounded, and marks the node done
    exactly when the position moved by less than 0.1 or is [NaN], and the
    parent channel, if there is one, is done. *)
Theorem decay_mode_advance anim payload toValues dt i node to pd :
  AnimatedValue.done node = false ->
  Animation.immediate anim = false ->
  (AnimationConfig.tension (Animation.config anim) <=? 0) = false ->
  AnimationConfig.duration (Animation.config anim) = None ->
  decay_truthy (AnimationConfig.decay (Animation.config anim)) = true ->
  channel_to node payload toValues i = Some to ->
  parentDone payload i = Some pd ->
  let config := Animation.config anim in
  let from := nth i (Animation.fromValues anim) nan in
  let elapsedTime := AnimatedValue.elapsedTime node + dt in
  let decayRate := Spec.decayRate (AnimationConfig.decay config) in
  let seed := seedVelocity config i node in
  let e := Spec.decay_factor (Math_exp G) decayRate elapsedTime in
  let position := Spec.decay_position from seed decayRate e in
  let velocity := Spec.decay_velocity seed e in
  let finished :=
    (Spec.decay_done (AnimatedValue.lastPosition node) position
     || JS.Number_isNaN position) && pd in
  exists r,
    advance_node G anim payload toValues dt i node = Some r
    /\ AnimatedValue.elapsedTime (step_node r) = elapsedTime
    /\ AnimatedValue.lastVelocity (step_node r) = Some velocity
    /\ (JS.truthy (JS.num (AnimationConfig.round config)) = false ->
        AnimatedValue.lastPosition (step_node r) = position)
    /\ AnimatedValue.done (step_node r) = finished
    /\ step_busy r = negb finished.
Proof.
  intros Hdone Himm Hten Hdur Hdecay Hto Hpd config from elapsedTime decayRate
    seed e position velocity finished.
  destruct (advance_node_motion anim payload toValues dt i node to pd
              (mkMotion position velocity
                 (Spec.decay_done (AnimatedValue.lastPosition node) position))
              Hdone Himm Hten Hto Hpd)
    as (r & Hr & Hbusy & _ & Hd & He & _ & Hv & Hp).
  { unfold channel_motion. cbv zeta. rewrite Hdur, Hdecay. reflexivity. }
  exists r. cbn in Hbusy, Hd, Hv, Hp.
  repeat split; assumption.
Qed.

Lemma spring_loop_substeps config to precision restVelocity bf isGrowing n p v :
  let r :=
    Spec.spring_substeps (AnimationConfig.tension config)
      (AnimationConfig.friction config) (AnimationConfig.mass config)
      to precision restVelocity bf isGrowing n (p, v) in
  spring_loop config to precision restVelocity bf isGrowing n (mkMotion p v false)
  = mkMotion (fst (fst r)) (snd (fst r)) (snd r).
Proof.
  revert p v. induction n as [| n IH]; intros p v; [reflexivity |].
  cbn [spring_loop Spec.spring_substeps position velocity finished fst snd].
  unfold Spec.resting, Spec.deflect, Spec.euler_substep.
  cbn [fst snd].
  destruct (restVelocity <? JS.Math_abs v) eqn:Hmoving; cbn [negb andb];
    [| destruct (JS.Math_abs (to - p) <=? precision) eqn:Hnear;
       [reflexivity |]];
    (destruct bf as [bf |];
     [destruct ((p =? to) || Bool.eqb (to <? p) isGrowing) |];
     cbn [fst snd]; rewrite IH; reflexivity).
Qed.

(** The sub-step loop in terms of plain iteration: it takes [k <= n]
    sub-steps, no state before the [k]-th rests, and it stops short of [n]
    exactly when the [k]-th state rests. *)
Lemma spring_substeps_iter tension friction mass to precision restVelocity
  bf isGrowing n pv :
  exists k,
    (k <= n)%nat
    /\ Spec.spring_substeps tension friction mass to precision restVelocity
         bf isGrowing n pv
       = (Spec.substeps tension friction mass to bf isGrowing k pv, (k <? n)%nat)
    /\ (forall j, (j < k)%nat ->
          let s := Spec.substeps tension friction mass to bf isGrowing j pv in
          Spec.resting to precision restVelocity (fst s) (snd s) = false)
    /\ ((k < n)%nat ->
          let s := Spec.substeps tension friction mass to bf isGrowing k pv in
          Spec.resting to precision restVelocity (fst s) (snd s) = true).
Proof.
  revert pv. induction n as [| n IH]; intros pv.
  - exists 0%nat. repeat split; [lia | | lia]. intros j Hj. lia.
  - cbn [Spec.spring_substeps].
    destruct (Spec.resting to precision restVelocity (fst pv) (snd pv)) eqn:Hrest.
    + exists 0%nat. repeat split; [lia | | ].
      * intros j Hj. lia.
      * intros _. exact Hrest.
    + destruct (IH (Spec.euler_substep tension friction mass to
                      (Spec.deflect bf isGrowing to pv)))
        as (k & Hk & Heq & Hbefore & Hat).
      exists (S k). repeat split.
      * lia.
      * rewrite Heq. reflexivity.
      * intros [| j] Hj; [exact Hrest | apply Hbefore; lia].
      * intros Hlt. apply Hat. lia.
Qed.

(** C2: in spring mode (no duration, no decay, not immediate) with a tension
    above 0, one call of the channel callback on a node that is not done,
    for a [dt] of [n] sub-steps ([n] is [ceil(dt / 1)], at most [2^53]),
    takes the first [k <= n] sub-steps: at each of them the channel is not
    at rest, and when [k < n] it is at rest after them, which is the early
    exit.  A sub-step is the semi-implicit Euler step, after the deflection
    of the position and the velocity when [bounce] or [clamp] asks for it.
    The node gets the velocity reached; the position reached when nothing
    is rounded; and it is done exactly when the loop left early or the
    position is [NaN], and the parent channel, if there is one, is done. *)
Theorem spring_mode_advance anim payload toValues dt i node to pd n :
  AnimatedValue.done node = false ->
  Animation.immediate anim = false ->
  (AnimationConfig.tension (Animation.config anim) <=? 0) = false ->
  AnimationConfig.duration (Animation.config anim) = None ->
  decay_truthy (AnimationConfig.decay (Animation.config anim)) = false ->
  JS.loop_count (dt / 1) = Some n ->
  channel_to node payload toValues i = Some to ->
  parentDone payload i = Some pd ->
  let config := Animation.config anim in
  let from := nth i (Animation.fromValues anim) nan in
  let goal := goal_number to in
  let seed := seedVelocity config i node in
  let start :=
    (AnimatedValue.lastPosition node,
     match AnimatedValue.lastVelocity node with
     | Some v => v
     | None => seed
     end) in
  let precision :=
    JS.or_else (AnimationConfig.precision config)
      (Spec.default_precision from goal) in
  let restVelocity :=
    JS.or_else (AnimationConfig.restVelocity config)
      (Spec.default_restVelocity precision) in
  let bounceFactor :=
    if AnimationConfig.clamp config then Some 0
    else AnimationConfig.bounce config in
  let isGrowing := if from =? goal then 0 <? seed else from <? goal in
  let after k :=
    Spec.substeps (AnimationConfig.tension config) (AnimationConfig.friction config)
      (AnimationConfig.mass config) goal bounceFactor isGrowing k start in
  let resting k :=
    Spec.resting goal precision restVelocity (fst (after k)) (snd (after k)) in
  exists r k,
    advance_node G anim payload toValues dt i node = Some r
    /\ (k <= n)%nat
    /\ (forall j, (j < k)%nat -> resting j = false)
    /\ ((k < n)%nat -> resting k = true)
    /\ AnimatedValue.lastVelocity (step_node r) = Some (snd (after k))
    /\ (JS.truthy (JS.num (AnimationConfig.round config)) = false ->
        AnimatedValue.lastPosition (step_node r) = fst (after k))
    /\ AnimatedValue.done (step_node r)
       = ((k <? n)%nat || JS.Number_isNaN (fst (after k))) && pd.
Proof.
  intros Hdone Himm Hten Hdur Hdecay Hn Hto Hpd config from goal seed start
    precision restVelocity bounceFactor isGrowing after resting.
  destruct (spring_substeps_iter (AnimationConfig.tension config)
              (AnimationConfig.friction config) (AnimationConfig.mass config)
              goal precision restVelocity bounceFactor isGrowing n start)
    as (k & Hk & Heq & Hbefore & Hat).
  destruct (advance_node_motion anim payload toValues dt i node to pd
              (mkMotion (fst (after k)) (snd (after k)) (k <? n)%nat)
              Hdone Himm Hten Hto Hpd)
    as (r & Hr & _ & _ & Hd & _ & _ & Hv & Hp).
  { unfold channel_motion. cbv zeta. rewrite Hdur, Hdecay.
    unfold spring_easing. rewrite Hn.
    f_equal. rewrite spring_loop_substeps.
    match goal with
    | |- context [Spec.spring_substeps ?a ?b ?c ?d ?e ?f ?g ?h n ?s] =>
        change (Spec.spring_substeps a b c d e f g h n s)
          with (Spec.spring_substeps (AnimationConfig.tension config)
                  (AnimationConfig.friction config)
                  (AnimationConfig.mass config) goal precision restVelocity
                  bounceFactor isGrowing n start)
    end.
    rewrite Heq. reflexivity. }
  exists r, k. cbn in Hd, Hv, Hp.
  repeat split; assumption.
Qed.

(** The goal of a channel does not depend on what [advance] stores in it. *)
Lemma channel_to_ctor node node' payload toValues i :
  AnimatedValue.ctor node' = AnimatedValue.ctor node ->
  channel_to node' payload toValues i = channel_to node payload toValues i.
Proof. intros H. unfold channel_to. rewrite H. reflexivity. Qed.

(** C9: with a tension of 0 or less, any number of calls of the channel
    callback of [advance] on a channel of an animation that is not immediate
    leave the position, the value, the velocity and the elapsed time of the
    channel as they are, and the first call marks it done. *)
Theorem loose_channel_keeps_its_position anim payload toValues i dts node :
  Animation.immediate anim = false ->
  (AnimationConfig.tension (Animation.config anim) <=? 0) = true ->
  channel_to node payload toValues i <> None ->
  exists node',
    advance_node_each G anim payload toValues i dts node = Some node'
    /\ AnimatedValue.lastPosition node' = AnimatedValue.lastPosition node
    /\ AnimatedValue._value node' = AnimatedValue._value node
    /\ AnimatedValue.lastVelocity node' = AnimatedValue.lastVelocity node
    /\ AnimatedValue.elapsedTime node' = AnimatedValue.elapsedTime node
    /\ (dts <> [] -> AnimatedValue.done node' = true).
Proof.
  intros Himm Hten. revert node.
  induction dts as [| dt dts IH]; intros node Hto.
  - exists node. repeat split. intros H. contradiction.
  - cbn [advance_node_each]. unfold advance_node.
    destruct (AnimatedValue.done node) eqn:Hdone.
    + cbn [step_node]. destruct (IH node Hto) as (node' & H1 & H2 & H3 & H4 & H5 & H6).
      exists node'. repeat split; try assumption.
      intros _. destruct dts as [| dt' dts'].
      * cbn in H1. injection H1 as <-. exact Hdone.
      * apply H6. discriminate.
    + destruct (channel_to node payload toValues i) as [to |] eqn:Hc;
        [| contradiction].
      rewrite Himm, Hten. cbn [step_node].
      destruct (IH (AnimatedValue.set_done true node))
        as (node' & H1 & H2 & H3 & H4 & H5 & H6).
      { rewrite (channel_to_ctor node) by reflexivity. rewrite Hc. discriminate. }
      exists node'. repeat split; try assumption.
      intros _. destruct dts as [| dt' dts'].
      * cbn in H1. injection H1 as <-. reflexivity.
      * apply H6. discriminate.
Qed.

End IntegratorProperties.

(** ** Numbers *)

(** [===] on numbers is symmetric. *)
Lemma number_eq_sym (x y : float) : (x =? y)%float = (y =? x)%float.
Proof.
  rewrite !FloatAxioms.eqb_spec. unfold SpecFloat.SFeqb, SpecFloat.SFcompare.
  destruct (Prim2SF x) as [s1 | s1 | | s1 m1 e1],
           (Prim2SF y) as [s2 | s2 | | s2 m2 e2];
    try reflexivity; try (destruct s1; reflexivity);
    try (destruct s2; reflexivity);
    try (destruct s1, s2; reflexivity).
  rewrite (Z.compare_antisym e1 e2).
  change (Pos.compare_cont Eq m2 m1) with (Pos.compare m2 m1).
  change (Pos.compare_cont Eq m1 m2) with (Pos.compare m1 m2).
  rewrite (Pos.compare_antisym m1 m2).
  destruct s1, s2; try reflexivity;
    destruct (e1 ?= e2)%Z; cbn; try reflexivity;
    destruct (m1 ?= m2)%positive; reflexivity.
Qed.

(** ** The heap of nodes *)

Section HeapProperties.

Lemma length_update h id f : length (update h id f) = length h.
Proof.
  revert id. induction h as [| c h IH]; intros id; [reflexivity |].
  destruct id as [| id]; cbn; [reflexivity | now rewrite IH].
Qed.

Lemma length_update_all ids f h : length (update_all ids f h) = length h.
Proof.
  unfold update_all. revert h.
  induction ids as [| id ids IH]; intros h; cbn [fold_left]; [reflexivity |].
  rewrite IH. apply length_update.
Qed.

Lemma cell_update_other h id j f : j <> id -> cell (update h id f) j = cell h j.
Proof.
  unfold cell. revert id j.
  induction h as [| c h IH]; intros id j Hne; [reflexivity |].
  destruct id as [| id], j as [| j]; cbn; try reflexivity.
  - contradiction.
  - apply IH. congruence.
Qed.

Lemma cell_update_at h id f :
  id < length h -> cell (update h id f) id = f (cell h id).
Proof.
  unfold cell. revert id.
  induction h as [| c h IH]; intros id Hlt; [inversion Hlt |].
  destruct id as [| id]; cbn; [reflexivity |].
  apply IH. cbn in Hlt. lia.
Qed.

Lemma update_beyond h id f : length h <= id -> update h id f = h.
Proof.
  revert id. induction h as [| c h IH]; intros id Hle; [reflexivity |].
  destruct id as [| id]; cbn in *; [lia |].
  rewrite IH by lia. reflexivity.
Qed.

(** A cell outside the heap reads as a node that is done. *)
Lemma cell_beyond h id :
  length h <= id -> cell h id = AnimatedValue.create (VNum nan).
Proof. intros H. unfold cell. apply nth_overflow. exact H. Qed.

Lemma update_const h id f :
  update h id (fun _ => f (cell h id)) = update h id f.
Proof.
  unfold cell. revert id.
  induction h as [| c h IH]; intros id; [reflexivity |].
  destruct id as [| id]; cbn; [reflexivity |].
  rewrite IH. reflexivity.
Qed.

(** Marking a channel done changes its [done] flag and nothing else. *)
Lemma cell_update_done h id j :
  AnimatedValue.done (cell (update h id (AnimatedValue.set_done true)) j)
  = AnimatedValue.done (cell h j) || (Nat.eqb j id).
Proof.
  destruct (Nat.eqb_spec j id) as [-> | Hne].
  - rewrite orb_true_r.
    destruct (Nat.lt_ge_cases id (length h)) as [Hlt | Hge].
    + rewrite cell_update_at by exact Hlt. reflexivity.
    + rewrite update_beyond, cell_beyond by exact Hge. reflexivity.
  - rewrite orb_false_r, cell_update_other by exact Hne. reflexivity.
Qed.

Lemma cell_update_all_done ids h j :
  AnimatedValue.done (cell (update_all ids (AnimatedValue.set_done true) h) j)
  = AnimatedValue.done (cell h j) || existsb (Nat.eqb j) ids.
Proof.
  unfold update_all. revert h.
  induction ids as [| id ids IH]; intros h; cbn [fold_left existsb].
  - now rewrite orb_false_r.
  - rewrite IH, cell_update_done. now rewrite orb_assoc.
Qed.

End HeapProperties.

(** ** What the methods leave alone *)

Ltac split_cases :=
  repeat match goal with
         | |- context [match ?x with _ => _ end] => destruct x
         end.

Section Frame.

Context (G : Globals) (F : FluidGraph).
Context {A : Type} (proj : SpringValue.t -> A).

Hypothesis H_animation :
  forall x s, proj (SpringValue.set_animation x s) = proj s.
Hypothesis H_node : forall x s, proj (SpringValue.set_node x s) = proj s.
Hypothesis H_heap : forall x s, proj (SpringValue.set_heap x s) = proj s.
Hypothesis H_phase : forall x s, proj (SpringValue.set_phase x s) = proj s.
Hypothesis H_state : forall x s, proj (SpringValue.set_state x s) = proj s.
Hypothesis H_defaultProps :
  forall x s, proj (SpringValue.set_defaultProps x s) = proj s.
Hypothesis H_priority :
  forall x s, proj (SpringValue.set_priority x s) = proj s.
Hypothesis H_log : forall x s, proj (SpringValue.set_log x s) = proj s.

Ltac frame :=
  repeat first
    [ rewrite H_animation
    | rewrite H_node
    | rewrite H_heap
    | rewrite H_phase
    | rewrite H_state
    | rewrite H_defaultProps
    | rewrite H_priority
    | rewrite H_log ].

Lemma emit_inert e s : proj (emit e s) = proj s.
Proof. unfold emit. now frame. Qed.

Lemma callProp_inert h e s : proj (callProp h e s) = proj s.
Proof. destruct h; cbn; [apply emit_inert | reflexivity]. Qed.

Lemma setActiveBit_inert b s : proj (setActiveBit b s) = proj s.
Proof. unfold setActiveBit. now frame. Qed.

Lemma _onStart_inert s : proj (_onStart s) = proj s.
Proof.
  unfold _onStart. split_cases; [reflexivity |].
  rewrite callProp_inert. now frame.
Qed.

Lemma _onChange_inert v idle s : proj (_onChange v idle s) = proj s.
Proof.
  unfold _onChange. rewrite emit_inert, callProp_inert.
  destruct idle; [reflexivity | apply _onStart_inert].
Qed.

Lemma _onChange_idle_inert v s : proj (_onChange v true s) = proj s.
Proof. unfold _onChange. now rewrite emit_inert, callProp_inert. Qed.

Lemma andThen_inert {B : Type} (o : Outcome unit)
  (k : SpringValue.t -> Outcome B) s :
  proj (outcome_state o) = proj s ->
  (forall s1, proj (outcome_state (k s1)) = proj s1) ->
  proj (outcome_state (andThen o k)) = proj s.
Proof.
  intros Ho Hk. destruct o as [[] s1 | e s1]; cbn in *; [| exact Ho].
  rewrite Hk. exact Ho.
Qed.

Lemma returned_inert o s s' :
  proj (outcome_state o) = proj s -> returned o = Some s' -> proj s' = proj s.
Proof. destruct o; cbn; [intros H [= <-]; exact H | discriminate]. Qed.

Lemma setAnimated_inert nd s : proj (outcome_state (setAnimated nd s)) = proj s.
Proof. unfold setAnimated. destruct (SpringValue.frozen s); cbn; now frame. Qed.

Lemma create_node_inert v s : proj (outcome_state (create_node G v s)) = proj s.
Proof.
  unfold create_node. destruct (Animated_create G v _) as [nd h].
  rewrite setAnimated_inert. now frame.
Qed.

Lemma remake_payload_inert v s : proj (remake_payload G v s) = proj s.
Proof.
  unfold remake_payload. destruct (Animated_create G v _) as [nd h]. now frame.
Qed.

Lemma animated_setValue_inert v nd s :
  proj (animated_setValue G v nd s) = proj s.
Proof.
  unfold animated_setValue. destruct nd, v; try reflexivity;
    try (now frame).
  destruct (Nat.eqb _ _); [now frame | apply remake_payload_inert].
Qed.

Lemma _set_inert arg force s :
  proj (outcome_state (_set G F arg force s)) = proj s.
Proof.
  unfold _set. destruct (getFluidValue F arg); [| reflexivity].
  destruct (force || _); [| reflexivity].
  destruct (SpringValue.node s); [| apply create_node_inert].
  apply andThen_inert.
  - destruct (AnimatedType_eqb _ _);
      [apply animated_setValue_inert | apply create_node_inert].
  - intros s1. apply _onChange_idle_inert.
Qed.

Lemma call_onRest_inert cancel f s : proj (call_onRest G F cancel f s) = proj s.
Proof. destruct f; cbn; [reflexivity | apply emit_inert]. Qed.

Lemma call_each_inert cancel q s : proj (call_each G F cancel q s) = proj s.
Proof.
  unfold call_each. revert s.
  induction q as [| f q IH]; intros s; cbn; [reflexivity |].
  rewrite IH. apply call_onRest_inert.
Qed.

Lemma _stop_inert cancel s : proj (_stop G F cancel s) = proj s.
Proof.
  unfold _stop. destruct (isAnimating s); [| reflexivity].
  destruct (Animation.onRest _).
  - rewrite emit_inert. frame. apply setActiveBit_inert.
  - rewrite call_each_inert. frame. rewrite emit_inert.
    frame. apply setActiveBit_inert.
Qed.

Lemma finish_inert s : proj (outcome_state (finish G F s)) = proj s.
Proof.
  unfold finish. destruct (isAnimating s); [| reflexivity].
  apply andThen_inert.
  - destruct (decay_truthy _); [| rewrite _set_inert]; apply _onStart_inert.
  - intros s1. apply _stop_inert.
Qed.

Lemma _resume_inert s : proj (outcome_state (_resume G F s)) = proj s.
Proof.
  unfold _resume. destruct (skipAnimation G);
    [apply finish_inert | apply emit_inert].
Qed.

Lemma animated_reset_inert goal s :
  proj (outcome_state (animated_reset G goal s)) = proj s.
Proof. unfold animated_reset. split_cases; cbn; now frame. Qed.

Lemma _start_inert s : proj (outcome_state (_start G F s)) = proj s.
Proof.
  unfold _start. apply andThen_inert; [apply animated_reset_inert |].
  intros s1.
  set (s2 := if Animation.immediate _ then s1 else _).
  assert (H2 : proj s2 = proj s1).
  { unfold s2. destruct (Animation.immediate _); [reflexivity |].
    now frame. }
  clearbody s2.
  destruct (isAnimating s2); [exact H2 |].
  destruct (isPaused _).
  - cbn. frame. now rewrite setActiveBit_inert.
  - rewrite _resume_inert. frame. now rewrite setActiveBit_inert.
Qed.

Lemma _detach_inert s : proj (_detach s) = proj s.
Proof. unfold _detach. split_cases; try reflexivity. apply emit_inert. Qed.

Lemma _attach_inert s : proj (_attach F s) = proj s.
Proof.
  unfold _attach. split_cases; frame; try reflexivity;
    apply emit_inert.
Qed.

Lemma _focus_inert v s : proj (_focus F v s) = proj s.
Proof.
  unfold _focus. destruct (strict_neq _ _); [| reflexivity].
  destruct (negb _).
  - rewrite _attach_inert. frame. apply _detach_inert.
  - now frame.
Qed.

Lemma stop_inert cancel s : proj (stop G F cancel s) = proj s.
Proof.
  unfold stop. rewrite _stop_inert, _focus_inert. now frame.
Qed.

Lemma _prepareNode_inert props s :
  proj (outcome_state (_prepareNode G F props s)) = proj s.
Proof.
  unfold _prepareNode. destruct (hasAnimated s); [reflexivity |].
  destruct (Props.reverse props); cbv beta iota zeta;
    (destruct (getFluidValue F _);
     [| destruct (SpringValue.node s); [reflexivity |]];
     (apply andThen_inert; [apply _set_inert | reflexivity])).
Qed.

Lemma merge_range_inert range props s :
  proj (snd (merge_range G F range props s)) = proj s.
Proof.
  unfold merge_range.
  set (s2 := SpringValue.set_defaultProps _ (callProp _ _ s)).
  assert (H2 : proj s2 = proj s)
    by (unfold s2; frame; apply callProp_inert).
  clearbody s2.
  destruct (effective_range _ _ _ _) as [to from]; cbn [snd].
  all: match goal with
       | |- context [if negb (isEqual ?a ?b)
                     then SpringValue.set_animation ?x ?s0 else ?s0] =>
           set (s3 := if negb (isEqual a b)
                      then SpringValue.set_animation x s0 else s0);
           assert (H3 : proj s3 = proj s)
             by (unfold s3; destruct (negb (isEqual a b));
                 [now frame | exact H2]);
           clearbody s3
       end.
  all: match goal with
       | |- context [if negb (isEqual ?a ?b) then _focus F ?t ?s0 else ?s0] =>
           set (s4 := if negb (isEqual a b) then _focus F t s0 else s0);
           assert (H4 : proj s4 = proj s)
             by (unfold s4; destruct (negb (isEqual a b));
                 [now rewrite _focus_inert | exact H3]);
           clearbody s4
       end.
  all: frame; exact H4.
Qed.

Lemma merge_settle_inert reset finished started s :
  proj (snd (merge_settle G F reset finished started s)) = proj s.
Proof.
  unfold merge_settle. split_cases; cbn [snd]; try reflexivity.
  apply _stop_inert.
Qed.

Lemma merge_store_inert props r reset started immediate goal s :
  proj (outcome_state (merge_store G F props r reset started immediate goal s))
  = proj s.
Proof.
  unfold merge_store.
  set (s1 := if started || isFluid (m_prevTo r) then _ else s).
  assert (H1 : proj s1 = proj s).
  { unfold s1. destruct (started || _); [now frame | reflexivity]. }
  clearbody s1.
  apply andThen_inert.
  - destruct (Bool.eqb _ immediate); [exact H1 |].
    destruct (negb immediate && negb reset);
      [rewrite _set_inert | cbn]; now frame.
  - intros s2. cbn [outcome_state].
    set (s3 := if started then SpringValue.set_animation _ s2 else s2).
    assert (H3 : proj s3 = proj s2).
    { unfold s3. destruct started; [now frame | reflexivity]. }
    clearbody s3.
    destruct started.
    + rewrite call_each_inert. now frame.
    + destruct (reset || _); [now frame | exact H3].
Qed.

Lemma runAsync_inert callId s : proj (runAsync callId s) = proj s.
Proof. unfold runAsync. rewrite emit_inert. now frame. Qed.

Lemma merge_dispatch_inert props r reset started value s :
  proj (outcome_state (merge_dispatch G F props r reset started value s))
  = proj s.
Proof.
  unfold merge_dispatch. apply andThen_inert.
  - destruct reset; [apply _set_inert | reflexivity].
  - intros s1.
    destruct (isAsyncTo _); [cbn; now rewrite runAsync_inert |].
    destruct started.
    + rewrite _start_inert. destruct reset; [now rewrite setActiveBit_inert |].
      reflexivity.
    + destruct (isAnimating s1 && _); cbn; [now frame |].
      unfold resolve. now rewrite emit_inert.
Qed.

Lemma merge_props_inert range props r s :
  proj (outcome_state (merge_props G F range props r s)) = proj s.
Proof.
  unfold merge_props.
  destruct (SpringValue.node s) as [nd |];
    [| cbn; unfold resolve; apply emit_inert].
  destruct (m_to r) as [to |];
    [| cbn; unfold resolve; apply emit_inert].
  match goal with
  | |- context [if ?c && negb ?i then Threw _ _ else _] =>
      destruct (c && negb i); [reflexivity |];
      apply andThen_inert;
        [destruct c; [apply _set_inert | reflexivity] |]
  end.
  intros s1.
  match goal with
  | |- context [merge_settle G F ?a ?b ?c s1] =>
      pose proof (merge_settle_inert a b c s1) as H2;
      destruct (merge_settle G F a b c s1) as [started s2]
  end.
  cbn [snd] in H2. rewrite <- H2.
  apply andThen_inert.
  - destruct (isAsyncTo _); [reflexivity | apply merge_store_inert].
  - intros s3. apply merge_dispatch_inert.
Qed.

Lemma _merge_inert range props s :
  (forall x s, proj (SpringValue.set_lastToId x s) = proj s) ->
  proj (outcome_state (_merge G F range props s)) = proj s.
Proof.
  intros H_lastToId. unfold _merge.
  destruct (Props.cancel props).
  { cbn. unfold resolve. rewrite emit_inert. apply stop_inert. }
  destruct (_ && negb _).
  { cbn. unfold resolve. apply emit_inert. }
  match goal with
  | |- context [merge_range G F range props ?s0] =>
      pose proof (merge_range_inert range props s0) as H1;
      destruct (merge_range G F range props s0) as [r s1]
  end.
  cbn [snd] in H1. rewrite merge_props_inert, H1.
  destruct (_ || _); [apply H_lastToId | reflexivity].
Qed.

Lemma _update_inert props s :
  (forall x s, proj (SpringValue.set_lastCallId x s) = proj s) ->
  proj (outcome_state (_update G F props s)) = proj s.
Proof.
  intros H_lastCallId. unfold _update.
  pose proof (_prepareNode_inert props
                (callProp (or_default (Props.onProps props)
                             (DefaultProps.onProps (SpringValue._defaultProps s)))
                   CallOnProps s)) as H1.
  rewrite callProp_inert in H1.
  destruct (_prepareNode G F props _) as [range s1 | e s1];
    cbn [outcome_state] in *; [| exact H1].
  destruct (SpringValue.frozen s1); cbn; [exact H1 |].
  rewrite H_lastCallId. exact H1.
Qed.

End Frame.

Ltac framed lemma := rewrite lemma by (intros; reflexivity).

(** From [H : call = outcome], what the frame lemma of the call says of the
    state of the outcome. *)
Ltac carried proj lemma H :=
  match type of H with
  | ?o = ?r =>
      let Hc := fresh "Hc" in
      assert (Hc : proj (outcome_state r) = proj (outcome_state o))
        by (rewrite H; reflexivity);
      rewrite lemma in Hc by (intros; reflexivity);
      cbn [outcome_state] in Hc
  end.

(** ** What makes a method throw *)

Section Outcomes.

Context (G : Globals) (F : FluidGraph).

Lemma andThen_returned {B : Type} o (k : SpringValue.t -> Outcome B) b s' :
  andThen o k = Returned b s' ->
  exists s1, o = Returned tt s1 /\ k s1 = Returned b s'.
Proof.
  destruct o as [[] s1 | e s1]; cbn; [| discriminate].
  intros H. exists s1. split; [reflexivity | exact H].
Qed.

Lemma andThen_threw {B : Type} o (k : SpringValue.t -> Outcome B) e s' :
  andThen o k = Threw e s' ->
  o = Threw e s' \/ exists s1, o = Returned tt s1 /\ k s1 = Threw e s'.
Proof.
  destruct o as [[] s1 | e1 s1]; cbn.
  - intros H. right. exists s1. split; [reflexivity | exact H].
  - intros [= <- <-]. left. reflexivity.
Qed.

(** The state of an outcome that is known. *)
Lemma outcome_state_eq {A B : Type} (proj : SpringValue.t -> B)
  (o : Outcome A) s :
  proj (outcome_state o) = proj s ->
  (forall a s', o = Returned a s' -> proj s' = proj s)
  /\ (forall e s', o = Threw e s' -> proj s' = proj s).
Proof. intros H. split; intros x s' ->; exact H. Qed.

(** [setAnimated] throws on a frozen spring, and only there. *)
Lemma setAnimated_live nd s :
  SpringValue.frozen s = false ->
  setAnimated nd s = Returned tt (SpringValue.set_node (Some nd) s).
Proof. intros H. unfold setAnimated. rewrite H. reflexivity. Qed.

Lemma setAnimated_threw nd s e s' :
  setAnimated nd s = Threw e s' ->
  e = TypeError /\ SpringValue.frozen s = true /\ s' = s.
Proof.
  unfold setAnimated. destruct (SpringValue.frozen s); [| discriminate].
  intros [= <- <-]. repeat split.
Qed.

Lemma create_node_live v s :
  SpringValue.frozen s = false ->
  create_node G v s = Returned tt (remake_payload G v s).
Proof.
  intros H. unfold create_node, remake_payload.
  destruct (Animated_create G v _) as [nd h].
  apply setAnimated_live. exact H.
Qed.

Lemma create_node_returned v s s' :
  create_node G v s = Returned tt s' ->
  s' = remake_payload G v s /\ SpringValue.frozen s = false.
Proof.
  unfold create_node, remake_payload, setAnimated.
  destruct (Animated_create G v _) as [nd h].
  cbn. destruct (SpringValue.frozen s); [discriminate |].
  intros [= <-]. split; reflexivity.
Qed.

Lemma create_node_threw v s e s' :
  create_node G v s = Threw e s' ->
  e = TypeError
  /\ SpringValue.frozen s = true
  /\ s' = SpringValue.set_heap
            (snd (Animated_create G v (SpringValue.heap s))) s.
Proof.
  unfold create_node. destruct (Animated_create G v _) as [nd h].
  intros H. apply setAnimated_threw in H. destruct H as (He & Hf & Hs).
  repeat split; assumption.
Qed.

Lemma _set_threw arg force s e s' :
  _set G F arg force s = Threw e s' ->
  e = TypeError /\ SpringValue.frozen s = true.
Proof.
  unfold _set. destruct (getFluidValue F arg) as [value |]; [| discriminate].
  destruct (force || _); [| discriminate].
  destruct (SpringValue.node s) as [nd |];
    [| intros H; apply create_node_threw in H; destruct H as (He & Hf & _);
       split; assumption].
  destruct (AnimatedType_eqb _ _); cbn; [discriminate |].
  destruct (create_node G value s) as [[] s1 | e1 s1] eqn:Hc; cbn;
    [discriminate |].
  intros [= <- <-]. apply create_node_threw in Hc.
  destruct Hc as (He & Hf & _). split; assumption.
Qed.

Lemma _set_live arg force s :
  SpringValue.frozen s = false ->
  exists s', _set G F arg force s = Returned tt s'.
Proof.
  intros Hf. destruct (_set G F arg force s) as [[] s' | e s'] eqn:H.
  - exists s'. reflexivity.
  - apply _set_threw in H. destruct H as [_ H]. congruence.
Qed.

Lemma finish_threw s e s' :
  finish G F s = Threw e s' ->
  e = TypeError /\ SpringValue.frozen s = true.
Proof.
  unfold finish. destruct (isAnimating s); [| discriminate].
  intros H. apply andThen_threw in H. destruct H as [H | (s1 & _ & H)];
    [| discriminate].
  destruct (decay_truthy _); [discriminate |].
  apply _set_threw in H. destruct H as [He Hf]. split; [exact He |].
  rewrite <- Hf. symmetry. framed (_onStart_inert SpringValue.frozen).
  reflexivity.
Qed.

Lemma finish_live s :
  SpringValue.frozen s = false ->
  exists s', finish G F s = Returned tt s'.
Proof.
  intros Hf. destruct (finish G F s) as [[] s' | e s'] eqn:H.
  - exists s'. reflexivity.
  - apply finish_threw in H. destruct H as [_ H]. congruence.
Qed.

Lemma _resume_threw s e s' :
  _resume G F s = Threw e s' ->
  e = TypeError /\ SpringValue.frozen s = true /\ skipAnimation G = true.
Proof.
  unfold _resume. destruct (skipAnimation G); [| discriminate].
  intros H. apply finish_threw in H. destruct H as [He Hf].
  repeat split; assumption.
Qed.

(** [_start] throws on a spring without a node; with a node, only when
    [skipAnimation] makes it finish a frozen spring. *)
Lemma _start_threw s e s' :
  _start G F s = Threw e s' ->
  e = TypeError
  /\ (SpringValue.node s = None
      \/ SpringValue.frozen s = true /\ skipAnimation G = true).
Proof.
  unfold _start. intros H. apply andThen_threw in H.
  destruct H as [H | (s1 & Hr & H)].
  - unfold animated_reset in H.
    destruct (SpringValue.node s) as [[id | ids] |]; try discriminate.
    injection H as <- _. split; [reflexivity | left; reflexivity].
  - carried SpringValue.frozen (animated_reset_inert G SpringValue.frozen) Hr.
    rename Hc into Hf. revert H.
    match goal with
    | |- (if isAnimating ?x then _ else _) = _ -> _ =>
        destruct (isAnimating x); [discriminate |]
    end.
    match goal with
    | |- (if isPaused ?x then _ else _) = _ -> _ =>
        destruct (isPaused x); [discriminate |]
    end.
    intros H. apply _resume_threw in H. destruct H as (He & Hfz & Hskip).
    split; [exact He |]. right. split; [| exact Hskip].
    rewrite <- Hf. rewrite <- Hfz.
    destruct (Animation.immediate _); reflexivity.
Qed.

Lemma _start_live s :
  SpringValue.node s <> None ->
  SpringValue.frozen s = false \/ skipAnimation G = false ->
  exists s', _start G F s = Returned tt s'.
Proof.
  intros Hn Hf. destruct (_start G F s) as [[] s' | e s'] eqn:H.
  - exists s'. reflexivity.
  - apply _start_threw in H. destruct H as [_ [H | [H1 H2]]];
      [contradiction | destruct Hf; congruence].
Qed.

Lemma _prepareNode_threw props s e s' :
  _prepareNode G F props s = Threw e s' ->
  e = TypeError /\ SpringValue.frozen s = true.
Proof.
  unfold _prepareNode. destruct (hasAnimated s); [discriminate |].
  destruct (Props.reverse props); cbv beta iota zeta;
    (destruct (getFluidValue F _);
     [| destruct (SpringValue.node s); [discriminate |]];
     (intros H; apply andThen_threw in H;
      destruct H as [H | (s1 & _ & H)]; [| discriminate];
      apply _set_threw in H; exact H)).
Qed.

(** [_update] throws on a frozen spring, and only there. *)
Lemma _update_threw props s e s' :
  _update G F props s = Threw e s' ->
  (e = TypeError \/ e = FrozenError) /\ SpringValue.frozen s = true.
Proof.
  unfold _update.
  set (s0 := callProp _ CallOnProps s).
  assert (H0 : SpringValue.frozen s0 = SpringValue.frozen s)
    by (unfold s0; framed (callProp_inert SpringValue.frozen); reflexivity).
  destruct (_prepareNode G F props s0) as [range s1 | e1 s1] eqn:Hp.
  - carried SpringValue.frozen (_prepareNode_inert G F SpringValue.frozen) Hp.
    rename Hc into H1.
    destruct (SpringValue.frozen s1) eqn:Hf; [| discriminate].
    intros [= <- _]. split; [right; reflexivity | congruence].
  - intros [= <- _]. apply _prepareNode_threw in Hp. destruct Hp as [He Hf].
    split; [left; exact He | congruence].
Qed.

Lemma _update_live props s :
  SpringValue.frozen s = false ->
  exists range props' s',
    _update G F props s = Returned (range, props') s'.
Proof.
  intros Hf. destruct (_update G F props s) as [[range props'] s' | e s'] eqn:H.
  - exists range, props', s'. reflexivity.
  - apply _update_threw in H. destruct H as [_ H]. congruence.
Qed.

End Outcomes.

Section MergeProperties.

Context (G : Globals) (F : FluidGraph).


End MergeProperties.

(** ** [idle], [stop] and [cancel] *)

Section StopProperties.

Context (G : Globals) (F : FluidGraph).

(** C10: [idle] is true whenever the spring is paused, and it is false
    exactly when the spring is animating or has an async [to] and is not
    paused. *)
Theorem idle_when_paused_or_at_rest s :
  (isPaused s = true -> idle s = true)
  /\ (idle s = false <->
      (isAnimating s = true
       \/ RunAsyncState.asyncTo (SpringValue._state s) <> None)
      /\ isPaused s = false).
Proof.
  unfold idle. split.
  - intros Hp. rewrite Hp. apply orb_true_r.
  - rewrite orb_false_iff, negb_false_iff, orb_true_iff.
    destruct (RunAsyncState.asyncTo (SpringValue._state s)) as [chain |];
      cbn [is_some]; split.
    + intros [_ Hp]. split; [right; discriminate | exact Hp].
    + intros [_ Hp]. split; [right; reflexivity | exact Hp].
    + intros [[Ha | Ht] Hp]; [| discriminate].
      split; [left; exact Ha | exact Hp].
    + intros [[Ha | Ht] Hp]; [| contradiction].
      split; [left; exact Ha | exact Hp].
Qed.

Lemma cell_update_getValue h id j b :
  node_getValue G (cell (update h id (AnimatedValue.set_done b)) j)
  = node_getValue G (cell h j).
Proof.
  unfold cell. revert id j.
  induction h as [| c h IH]; intros id j; [reflexivity |].
  destruct id as [| id]; destruct j as [| j]; cbn; try reflexivity.
  apply IH.
Qed.

Lemma cell_update_all_getValue ids h j b :
  node_getValue G (cell (update_all ids (AnimatedValue.set_done b) h) j)
  = node_getValue G (cell h j).
Proof.
  unfold update_all. revert h.
  induction ids as [| id ids IH]; intros h; [reflexivity |].
  cbn [fold_left]. rewrite IH. apply cell_update_getValue.
Qed.

(** [get] reads the node and, through it, the values in the heap. *)
Lemma get_ext s s' :
  SpringValue.node s' = SpringValue.node s ->
  (forall j, node_getValue G (cell (SpringValue.heap s') j)
             = node_getValue G (cell (SpringValue.heap s) j)) ->
  get G s' = get G s.
Proof.
  intros Hn Hh. unfold get. rewrite Hn.
  destruct (SpringValue.node s) as [[id | ids] |]; try reflexivity.
  - rewrite Hh. reflexivity.
  - do 2 f_equal. apply map_ext. intros id. rewrite Hh. reflexivity.
Qed.

(** Every entry of the queue reports the cancelled result, in order. *)
Lemma call_each_cancel q s :
  call_each G F true q s
  = SpringValue.set_log
      (SpringValue.log s ++ reports (Cancelled (get G s)) q) s.
Proof.
  unfold call_each. revert s.
  induction q as [| f q IH]; intros s.
  - cbn. rewrite app_nil_r. destruct s; reflexivity.
  - cbn [fold_left]. rewrite IH. destruct f as [| callee to]; [reflexivity |].
    cbn [call_onRest reports flat_map]. unfold emit.
    change (get G (SpringValue.set_log _ s)) with (get G s).
    cbn [SpringValue.log SpringValue.set_log app].
    rewrite <- app_assoc. reflexivity.
Qed.

Lemma reports_In callee to result q :
  In (RestCheck callee to) q -> In (report callee result) (reports result q).
Proof.
  intros H. unfold reports. apply in_flat_map.
  exists (RestCheck callee to). split; [exact H | left; reflexivity].
Qed.

(** [_stop] leaves the value alone and ends the animation. *)
Lemma _stop_get cancel s : get G (_stop G F cancel s) = get G s.
Proof.
  unfold _stop. destruct (isAnimating s); [| reflexivity].
  destruct (Animation.onRest _);
    [| framed (call_each_inert G F (get G))];
    (apply get_ext; [reflexivity |]; intros j; cbn;
     apply cell_update_all_getValue).
Qed.

Lemma _stop_isAnimating cancel s : isAnimating (_stop G F cancel s) = false.
Proof.
  unfold _stop. destruct (isAnimating s) eqn:Ha; [| exact Ha].
  destruct (Animation.onRest _); [reflexivity |].
  framed (call_each_inert G F isAnimating). reflexivity.
Qed.

(** [_focus] writes [animation.to] and nothing else of the animation. *)
Lemma _focus_animation v s :
  SpringValue.animation (_focus F v s)
  = Animation.set_to
      (if strict_neq v (Animation.to (SpringValue.animation s)) then v
       else Animation.to (SpringValue.animation s))
      (SpringValue.animation s).
Proof.
  unfold _focus. destruct (strict_neq _ _).
  - destruct (negb _); [| reflexivity].
    unfold _attach, _detach. destruct s as [k a n h p st d c t ch pr fr l].
    cbn. destruct (Animation.to a) as [[x | id] |]; cbn;
      destruct v as [[y | id'] |]; reflexivity.
  - destruct (SpringValue.animation s). reflexivity.
Qed.

Lemma stop_get cancel s : get G (stop G F cancel s) = get G s.
Proof.
  unfold stop. rewrite _stop_get. framed (_focus_inert F (get G)).
  reflexivity.
Qed.

Lemma stop_isAnimating cancel s : isAnimating (stop G F cancel s) = false.
Proof. apply _stop_isAnimating. Qed.

Lemma _stop_to cancel s :
  Animation.to (SpringValue.animation (_stop G F cancel s))
  = Animation.to (SpringValue.animation s).
Proof.
  unfold _stop. destruct (isAnimating s); [| reflexivity].
  destruct (Animation.onRest _); [reflexivity |].
  framed (call_each_inert G F
            (fun s => Animation.to (SpringValue.animation s))).
  reflexivity.
Qed.

(** What a cancelling [_stop] of an active animation adds to the log: the
    idle event, then the cancelled result of every entry of the queue, the
    first one left out when the animation never changed the value. *)
Lemma _stop_cancel_log s :
  isAnimating s = true ->
  SpringValue.log (_stop G F true s)
  = SpringValue.log s ++ [EmitIdle]
    ++ reports (Cancelled (get G s))
         (match Animation.onRest (SpringValue.animation s) with
          | [] => []
          | first :: rest =>
              if Animation.changed (SpringValue.animation s)
              then first :: rest else RestNoop :: rest
          end).
Proof.
  intros Hact. unfold _stop. rewrite Hact.
  cbn [setActiveBit SpringValue.animation SpringValue.set_phase
       SpringValue.set_heap emit SpringValue.set_log].
  destruct (Animation.onRest (SpringValue.animation s)) as [| first rest].
  - reflexivity.
  - rewrite call_each_cancel.
    match goal with
    | |- context [Cancelled (get G ?x)] =>
        replace (get G x) with (get G s)
          by (symmetry; apply get_ext; [reflexivity |]; intros j; cbn;
              apply cell_update_all_getValue)
    end.
    unfold emit.
    cbn [SpringValue.log SpringValue.set_log SpringValue.set_animation
         SpringValue.set_heap SpringValue.set_phase].
    rewrite <- app_assoc. reflexivity.
Qed.

(** C4: an update with [cancel] makes [_merge] stop the spring and resolve
    the update as cancelled: [_merge] returns in the state that [stop(true)]
    leaves, with one more event at the end of the log, the resolution of
    the update as cancelled with the current value, and the spring is not
    animating and has its value; and [stop(true)] on an animating spring
    ends the animation, keeps the current value, makes that value the goal,
    and reports a cancelled result with that value to every resolver waiting
    in the [onRest] queue (to the [onRest] prop as well when the value has
    changed). *)
Theorem cancel_stops_and_resolves_cancelled :
  (forall range props s,
      Props.cancel props = true ->
      _merge G F range props s
      = Returned tt
          (resolve (Props.callId props) (Cancelled (get G s))
             (stop G F true s))
      /\ isAnimating (stop G F true s) = false
      /\ get G (stop G F true s) = get G s
      /\ exists s',
           _merge G F range props s = Returned tt s'
           /\ SpringValue.log s'
              = SpringValue.log (stop G F true s)
                ++ [Resolve (Props.callId props) (Cancelled (get G s))]
           /\ isAnimating s' = false
           /\ get G s' = get G s
           /\ s' = SpringValue.set_log (SpringValue.log s') (stop G F true s))
  /\ (forall s,
         isAnimating s = true ->
         let s' := stop G F true s in
         let current := get G s in
         let queue := Animation.onRest (SpringValue.animation s) in
         isAnimating s' = false
         /\ get G s' = current
         /\ (Animation.to (SpringValue.animation s') = option_map TVal current
             \/ isEqual (option_map TVal current)
                  (Animation.to (SpringValue.animation s')) = true)
         /\ (forall callee to,
                In (RestCheck callee to) (tl queue) ->
                In (report callee (Cancelled current)) (SpringValue.log s'))
         /\ (Animation.changed (SpringValue.animation s) = true ->
             forall callee to,
               In (RestCheck callee to) queue ->
               In (report callee (Cancelled current)) (SpringValue.log s'))).
Proof.
  split.
  - intros range props s Hcancel. unfold _merge. rewrite Hcancel.
    rewrite stop_get.
    split; [reflexivity |].
    split; [apply stop_isAnimating |].
    split; [reflexivity |].
    eexists. split; [reflexivity |].
    split; [reflexivity |].
    split; [apply stop_isAnimating |].
    split; [apply stop_get | reflexivity].
  - intros s Hactive s' current queue.
    split; [apply stop_isAnimating |].
    split; [apply stop_get |].
    unfold s', stop.
    set (s1 := SpringValue.set_state _ s).
    set (s2 := _focus F (option_map TVal (get G s1)) s1).
    assert (Hanim : SpringValue.animation s2
                    = Animation.set_to
                        (if strict_neq (option_map TVal current)
                              (Animation.to (SpringValue.animation s))
                         then option_map TVal current
                         else Animation.to (SpringValue.animation s))
                        (SpringValue.animation s))
      by (unfold s2; rewrite _focus_animation; reflexivity).
    assert (Hget : get G s2 = current)
      by (unfold s2; framed (_focus_inert F (get G)); reflexivity).
    assert (Hact : isAnimating s2 = true)
      by (unfold s2; framed (_focus_inert F isAnimating); exact Hactive).
    rewrite _stop_to, (_stop_cancel_log s2 Hact), Hanim, Hget.
    cbn [Animation.onRest Animation.set_to Animation.changed Animation.to].
    fold queue.
    split.
    + destruct (strict_neq _ _) eqn:Hs; [left; reflexivity |].
      right. unfold strict_neq in Hs.
      destruct current as [[x | str | xs] |],
        (Animation.to _) as [[[y | st | ys] | id] |];
        cbn in Hs |- *; try discriminate; try reflexivity;
        now apply negb_false_iff in Hs.
    + split.
      * intros callee to Hin. apply in_or_app. right. right.
        apply (reports_In callee to).
        destruct queue as [| first rest]; [destruct Hin |].
        destruct (Animation.changed _); right; exact Hin.
      * intros Hch callee to Hin. rewrite Hch. apply in_or_app. right. right.
        apply (reports_In callee to).
        destruct queue as [| first rest]; [destruct Hin | exact Hin].
Qed.

End StopProperties.

(** ** The same update again *)

Section MergeRangeProperties.

Context (G : Globals) (F : FluidGraph).

(** Two values that [isEqual] tells apart are not the same object. *)
Lemma strict_neq_of_isEqual a b : isEqual a b = false -> strict_neq a b = true.
Proof.
  intros H. unfold strict_neq.
  destruct a as [[[x | sx | xs] | i] |], b as [[[y | sy | ys] | j] |];
    try reflexivity; rewrite H; reflexivity.
Qed.

(** The locals and the state that lines 554-619 produce. *)
Lemma merge_range_spec range props s :
  let defaults := merged_defaults props s in
  let prevTo := Animation.to (SpringValue.animation s) in
  let prevFrom := Animation.from (SpringValue.animation s) in
  let to := fst (effective_range range props prevTo prevFrom) in
  let from := snd (effective_range range props prevTo prevFrom) in
  let config := Animation.config (SpringValue.animation s) in
  let r := fst (merge_range G F range props s) in
  let s' := snd (merge_range G F range props s) in
  r = mkMergeRange to (getFluidValue F from) prevTo
        (negb (isEqual to prevTo)) (negb (isEqual from prevFrom))
        (AnimationConfig.decay config) (AnimationConfig.velocity config)
  /\ SpringValue._defaultProps s' = defaults
  /\ Animation.config (SpringValue.animation s')
     = merge_config_prop G props defaults config
  /\ Animation.to (SpringValue.animation s')
     = (if isEqual to prevTo then prevTo else to)
  /\ Animation.from (SpringValue.animation s')
     = (if isEqual from prevFrom then prevFrom else from).
Proof.
  cbv zeta. unfold merge_range.
  set (s1 := callProp _ CallOnDelayEnd s).
  set (s2 := SpringValue.set_defaultProps (merged_defaults props s1) s1).
  assert (Ha : SpringValue.animation s2 = SpringValue.animation s)
    by (unfold s2, s1; cbn; framed (callProp_inert SpringValue.animation);
        reflexivity).
  assert (D2 : SpringValue._defaultProps s2 = merged_defaults props s)
    by (unfold s2, s1, merged_defaults; cbn;
        framed (callProp_inert SpringValue._defaultProps); reflexivity).
  clearbody s2. clear s1.
  rewrite Ha.
  destruct (effective_range range props _ _) as [to from]. cbn [fst snd].
  set (s3 := if negb (isEqual from _)
             then SpringValue.set_animation _ s2 else s2).
  assert (H3 : SpringValue.animation s3
               = Animation.set_from
                   (if isEqual from (Animation.from (SpringValue.animation s))
                    then Animation.from (SpringValue.animation s) else from)
                   (SpringValue.animation s)).
  { unfold s3. destruct (isEqual from _); cbn [negb].
    - rewrite Ha. destruct (SpringValue.animation s). reflexivity.
    - cbn. rewrite ?Ha. reflexivity. }
  assert (D3 : SpringValue._defaultProps s3 = merged_defaults props s).
  { unfold s3. destruct (negb _); exact D2. }
  clearbody s3.
  set (s4 := if negb (isEqual to _) then _focus F to s3 else s3).
  assert (H4 : SpringValue.animation s4
               = Animation.set_to
                   (if isEqual to (Animation.to (SpringValue.animation s))
                    then Animation.to (SpringValue.animation s) else to)
                   (SpringValue.animation s3)).
  { unfold s4. destruct (isEqual to _) eqn:He; cbn [negb].
    - rewrite H3. destruct (SpringValue.animation s). reflexivity.
    - rewrite _focus_animation, H3. cbn [Animation.to Animation.set_from].
      rewrite (strict_neq_of_isEqual _ _ He). reflexivity. }
  assert (D4 : SpringValue._defaultProps s4 = merged_defaults props s).
  { unfold s4. destruct (negb _); [| exact D3].
    framed (_focus_inert F SpringValue._defaultProps). exact D3. }
  clearbody s4.
  cbn [SpringValue.animation SpringValue.set_animation
       SpringValue._defaultProps Animation.config Animation.to Animation.from
       Animation.set_config].
  rewrite H4, H3, D4.
  cbn [Animation.config Animation.to Animation.from Animation.set_to
       Animation.set_from].
  repeat split; reflexivity.
Qed.







End MergeRangeProperties.

(** ** Errors *)

Section ErrorProperties.

Context (G : Globals) (F : FluidGraph).


End ErrorProperties.

(** ** A goal reached while animating *)

Section SettleProperties.

Context (G : Globals) (F : FluidGraph).

(** A spring that has a node keeps having one. *)
Lemma remake_payload_node v s : SpringValue.node (remake_payload G v s) <> None.
Proof.
  unfold remake_payload. destruct (Animated_create G v _). discriminate.
Qed.

Lemma animated_setValue_node v nd s :
  SpringValue.node s <> None ->
  SpringValue.node (animated_setValue G v nd s) <> None.
Proof.
  intros H. unfold animated_setValue.
  destruct nd, v; try exact H.
  destruct (Nat.eqb _ _); [exact H | apply remake_payload_node].
Qed.

Lemma _set_node arg force s :
  SpringValue.node s <> None ->
  SpringValue.node (outcome_state (_set G F arg force s)) <> None.
Proof.
  intros H. unfold _set.
  destruct (getFluidValue F arg) as [value |]; [| exact H].
  destruct (force || _); [| exact H].
  destruct (SpringValue.node s) as [nd |] eqn:Hn; [| contradiction].
  destruct (AnimatedType_eqb _ _); cbn [andThen outcome_state].
  - framed (_onChange_idle_inert SpringValue.node).
    apply animated_setValue_node. rewrite Hn. discriminate.
  - destruct (create_node G value s) as [[] s1 | e s1] eqn:Hc;
      cbn [andThen outcome_state].
    + framed (_onChange_idle_inert SpringValue.node).
      apply create_node_returned in Hc. destruct Hc as [-> _].
      apply remake_payload_node.
    + apply create_node_threw in Hc. destruct Hc as (_ & _ & ->).
      cbn. rewrite Hn. discriminate.
Qed.

Lemma merge_store_threw props r reset started immediate goal s e s' :
  merge_store G F props r reset started immediate goal s = Threw e s' ->
  e = TypeError /\ SpringValue.frozen s = true.
Proof.
  unfold merge_store. intros H. apply andThen_threw in H.
  destruct H as [H | (s1 & _ & H)]; [| discriminate].
  destruct (Bool.eqb _ immediate); [discriminate |].
  destruct (negb immediate && negb reset); [| discriminate].
  apply _set_threw in H. destruct H as [He Hf]. split; [exact He |].
  rewrite <- Hf. destruct (started || _); reflexivity.
Qed.

Lemma merge_store_node props r reset started immediate goal s :
  SpringValue.node s <> None ->
  SpringValue.node
    (outcome_state (merge_store G F props r reset started immediate goal s))
  <> None.
Proof.
  intros Hn. unfold merge_store.
  set (s1 := if started || isFluid (m_prevTo r) then _ else s).
  assert (H1 : SpringValue.node s1 <> None)
    by (unfold s1; destruct (started || _); exact Hn).
  clearbody s1.
  set (o := if Bool.eqb _ immediate then Returned tt s1 else _).
  assert (Ho : SpringValue.node (outcome_state o) <> None).
  { unfold o. destruct (Bool.eqb _ immediate); [exact H1 |].
    destruct (negb immediate && negb reset); [| exact H1].
    apply _set_node. exact H1. }
  clearbody o. destruct o as [[] s2 | e2 s2]; cbn [andThen outcome_state] in *;
    [| exact Ho].
  destruct started.
  - framed (call_each_inert G F SpringValue.node). exact Ho.
  - destruct (reset || _); exact Ho.
Qed.

(** Lines 705-764 leave the [changed] flag of the animation alone. *)
Lemma merge_store_changed props r reset started immediate goal s :
  Animation.changed
    (SpringValue.animation
       (outcome_state (merge_store G F props r reset started immediate goal s)))
  = Animation.changed (SpringValue.animation s).
Proof.
  unfold merge_store.
  set (s1 := if started || isFluid (m_prevTo r) then _ else s).
  assert (H1 : Animation.changed (SpringValue.animation s1)
               = Animation.changed (SpringValue.animation s))
    by (unfold s1; destruct (started || _); reflexivity).
  clearbody s1.
  set (o := if Bool.eqb _ immediate then Returned tt s1 else _).
  assert (Ho : Animation.changed (SpringValue.animation (outcome_state o))
               = Animation.changed (SpringValue.animation s)).
  { unfold o. destruct (Bool.eqb _ immediate); [exact H1 |].
    destruct (negb immediate && negb reset); [| exact H1].
    framed (_set_inert G F
              (fun s => Animation.changed (SpringValue.animation s))).
    exact H1. }
  clearbody o. destruct o as [[] s2 | e2 s2]; cbn [andThen outcome_state] in *;
    [| exact Ho].
  destruct started.
  - framed (call_each_inert G F
              (fun s => Animation.changed (SpringValue.animation s))).
    exact Ho.
  - destruct (reset || _); exact Ho.
Qed.

(** The queue that lines 705-764 leave when the update starts an animation:
    the [onRest] prop, then the resolver of the update. *)
Lemma merge_store_started_queue props r reset immediate goal s s' :
  merge_store G F props r reset true immediate goal s = Returned tt s' ->
  exists first to,
    Animation.onRest (SpringValue.animation s')
    = [first; RestCheck (RestResolver (Props.callId props)) to].
Proof.
  unfold merge_store. intros H. apply andThen_returned in H.
  destruct H as (s2 & _ & H). injection H as <-.
  framed (call_each_inert G F
            (fun s => Animation.onRest (SpringValue.animation s))).
  cbn. eexists. eexists. reflexivity.
Qed.

(** Resetting a node clears its [done] flag. *)
Lemma node_reset_done goal n : AnimatedValue.done (node_reset G goal n) = false.
Proof.
  unfold node_reset, AnimatedString_reset, AnimatedValue_reset.
  destruct (AnimatedValue.ctor n); cbn;
    repeat match goal with
           | |- context [match ?x with _ => _ end] => destruct x; cbn
           end; reflexivity.
Qed.

Lemma update_all_reset_done goal ids :
  forall h j,
    In j ids \/ AnimatedValue.done (cell h j) = false ->
    j < length h ->
    AnimatedValue.done (cell (update_all ids (node_reset G goal) h) j) = false.
Proof.
  unfold update_all.
  induction ids as [| id ids IH]; intros h j Hj Hlt; cbn [fold_left].
  - destruct Hj as [[] | H]. exact H.
  - apply IH; [| rewrite length_update; exact Hlt].
    destruct (Nat.eq_dec j id) as [-> | Hne].
    + right. rewrite cell_update_at by exact Hlt. apply node_reset_done.
    + destruct Hj as [[H | H] | H].
      * congruence.
      * left. exact H.
      * right. rewrite cell_update_other by exact Hne. exact H.
Qed.

(** [_start] on a spring that is already animating keeps it in the frame
    loop and does not ask for [onStart] again: it resets the nodes of the
    spring and takes their positions as the new [from] values. *)
Lemma _start_active s nd :
  isAnimating s = true ->
  SpringValue.node s = Some nd ->
  exists s',
    _start G F s = Returned tt s'
    /\ SpringValue.phase s' = SpringValue.phase s
    /\ SpringValue.log s' = SpringValue.log s
    /\ SpringValue.node s' = SpringValue.node s
    /\ length (SpringValue.heap s') = length (SpringValue.heap s)
    /\ (exists fv,
          SpringValue.animation s'
          = Animation.set_fromValues fv (SpringValue.animation s))
    /\ (forall id,
          In id (animated_payload nd) ->
          id < length (SpringValue.heap s) ->
          AnimatedValue.done (cell (SpringValue.heap s') id) = false).
Proof.
  intros Hact Hn. unfold _start, animated_reset. rewrite Hn.
  set (goal := getFluidValue F _).
  set (h' := match nd with
             | ASingle id => update (SpringValue.heap s) id (node_reset G goal)
             | AArray ids =>
                 update_all ids (node_reset G None) (SpringValue.heap s)
             end).
  replace (match nd with
           | ASingle id =>
               Returned tt
                 (SpringValue.set_heap
                    (update (SpringValue.heap s) id (node_reset G goal)) s)
           | AArray ids =>
               Returned tt
                 (SpringValue.set_heap
                    (update_all ids (node_reset G None) (SpringValue.heap s)) s)
           end) with (Returned tt (SpringValue.set_heap h' s))
    by (destruct nd; reflexivity).
  cbn [andThen].
  assert (Hlen : length h' = length (SpringValue.heap s)).
  { unfold h'. destruct nd as [id | ids];
      [apply length_update | apply length_update_all]. }
  assert (Hdone : forall id,
             In id (animated_payload nd) ->
             id < length (SpringValue.heap s) ->
             AnimatedValue.done (cell h' id) = false).
  { intros id Hin Hlt. unfold h'. destruct nd as [id0 | ids]; cbn in Hin.
    - destruct Hin as [<- | []]. rewrite cell_update_at by exact Hlt.
      apply node_reset_done.
    - apply update_all_reset_done; [left; exact Hin | exact Hlt]. }
  clearbody h'.
  set (s1 := SpringValue.set_heap h' s).
  set (s2 := if Animation.immediate _ then s1 else _).
  assert (H2 : SpringValue.phase s2 = SpringValue.phase s
               /\ SpringValue.log s2 = SpringValue.log s
               /\ SpringValue.node s2 = SpringValue.node s
               /\ SpringValue.heap s2 = h'
               /\ exists fv,
                    SpringValue.animation s2
                    = Animation.set_fromValues fv (SpringValue.animation s)).
  { unfold s2. destruct (Animation.immediate _); cbn; repeat split.
    - exists (Animation.fromValues (SpringValue.animation s)).
      destruct (SpringValue.animation s). reflexivity.
    - eexists. reflexivity. }
  clearbody s2. destruct H2 as (Hp2 & Hl2 & Hn2 & Hh2 & Ha2).
  assert (Hact2 : isAnimating s2 = true)
    by (unfold isAnimating in *; rewrite Hp2; exact Hact).
  rewrite Hact2. exists s2. rewrite Hh2.
  split; [reflexivity |].
  split; [exact Hp2 |]. split; [exact Hl2 |]. split; [congruence |].
  split; [exact Hlen |]. split; [exact Ha2 | exact Hdone].
Qed.

(** C3: when [_merge], for an update whose [to] is not an async one, finds
    the goal equal to the value the animation starts from ([finished])
    while the spring is animating, then: if the animation has changed the
    value and the update does not reset it, the animation is started again:
    the spring stays in the frame loop with its [changed] flag set (so
    [onStart] is not called again), the nodes of the spring are reset (none
    is done) and the resolver of the update waits in the [onRest] queue,
    behind the [onRest] prop; if it has not changed the value yet, or the
    update resets it, and nothing else starts an animation, the animation
    is stopped and the update is resolved as a no-op, the last event of the
    log.  The only way for [_merge] not to return is the [TypeError] of a
    frozen spring. *)
Theorem goal_reached_while_active range props r s nd to s1 :
  SpringValue.node s = Some nd ->
  m_to r = Some to ->
  isAsyncTo (Props.to props) = false ->
  let reset := merge_reset range props r s in
  let value := merge_value G reset r s in
  let goal := computeGoalT G F (Some to) in
  let immediate := merge_immediate G props goal s in
  let mismatch :=
    m_hasToChanged r
    && negb (AnimatedType_eqb (getAnimatedType G F to) (animated_ctor s nd)) in
  (mismatch && negb immediate) = false ->
  (if mismatch then _set G F (option_map TVal goal) false s
   else Returned tt s) = Returned tt s1 ->
  merge_finished G reset value goal r s1 = true ->
  isAnimating s1 = true ->
  (Animation.changed (SpringValue.animation s1) = true ->
   reset = false ->
   returns_or (SpringValue.frozen s = true)
     (merge_props G F range props r s)
     (fun s' =>
        isAnimating s' = true
        /\ Animation.changed (SpringValue.animation s') = true
        /\ (exists first to',
              Animation.onRest (SpringValue.animation s')
              = [first; RestCheck (RestResolver (Props.callId props)) to'])
        /\ (exists nd',
              SpringValue.node s' = Some nd'
              /\ forall id,
                   In id (animated_payload nd') ->
                   id < length (SpringValue.heap s') ->
                   AnimatedValue.done (cell (SpringValue.heap s') id)
                   = false)))
  /\ ((Animation.changed (SpringValue.animation s1) = false \/ reset = true) ->
      merge_started G reset value goal r s1 = false ->
      returns_or (SpringValue.frozen s = true)
        (merge_props G F range props r s)
        (fun s' =>
           isAnimating s' = false
           /\ exists l,
                SpringValue.log s'
                = l ++ [Resolve (Props.callId props)
                          (Noop (match value with
                                 | Some v => Some v
                                 | None => get G s'
                                 end))])).
Proof.
  intros Hnode Hto Hasync reset value goal immediate mismatch Hmis Hs1 Hfin
    Hact.
  assert (Hfz : SpringValue.frozen s1 = SpringValue.frozen s).
  { destruct mismatch.
    - carried SpringValue.frozen (_set_inert G F SpringValue.frozen) Hs1.
      exact Hc.
    - injection Hs1 as <-. reflexivity. }
  assert (Hn1 : SpringValue.node s1 <> None).
  { destruct mismatch.
    - pose proof (_set_node (option_map TVal goal) false s) as H.
      rewrite Hs1 in H. apply H. rewrite Hnode. discriminate.
    - injection Hs1 as <-. rewrite Hnode. discriminate. }
  assert (Hstep :
            merge_props G F range props r s
            = let '(started, s2) :=
                merge_settle G F reset true
                  (merge_started G reset value goal r s1) s1 in
              andThen
                (merge_store G F props r reset started immediate goal s2)
                (fun s3 => merge_dispatch G F props r reset started value s3)).
  { unfold merge_props. rewrite Hnode, Hto.
    fold reset. fold value. fold goal. fold immediate. fold mismatch.
    rewrite Hmis, Hs1. cbn [andThen]. rewrite Hfin, Hasync. reflexivity. }
  rewrite Hstep. clear Hstep. clearbody reset.
  unfold merge_settle. rewrite Hact.
  change (true && true) with true. cbv iota.
  split.
  - intros Hch Hreset. rewrite Hch, Hreset. cbn [negb andb].
    destruct (merge_store G F props r false true immediate goal s1)
      as [[] s2 | e s2] eqn:Hst; cbn [andThen returns_or].
    + carried isAnimating (merge_store_inert G F isAnimating) Hst.
      rename Hc into Ha2. rewrite Hact in Ha2.
      pose proof (merge_store_node props r false true immediate goal s1 Hn1)
        as Hn2.
      pose proof (merge_store_changed props r false true immediate goal s1)
        as Hc2.
      rewrite Hst in Hn2, Hc2. cbn [outcome_state] in Hn2, Hc2.
      rewrite Hch in Hc2.
      destruct (merge_store_started_queue _ _ _ _ _ _ _ Hst)
        as (first & to' & Hq).
      destruct (SpringValue.node s2) as [nd2 |] eqn:Hnd2; [| contradiction].
      unfold merge_dispatch. cbn [andThen]. rewrite Hasync.
      destruct (_start_active s2 nd2 Ha2 Hnd2)
        as (s' & -> & Hp & _ & Hn' & Hlen & (fv & Hanim) & Hdone).
      split; [unfold isAnimating in *; rewrite Hp; exact Ha2 |].
      split; [rewrite Hanim; exact Hc2 |].
      split; [exists first, to'; rewrite Hanim; exact Hq |].
      exists nd2. split; [congruence |].
      intros id Hin Hlt. apply Hdone; [exact Hin | rewrite <- Hlen; exact Hlt].
    + apply merge_store_threw in Hst. destruct Hst as [He Hf].
      split; [exact He | congruence].
  - intros Hcase Hstarted. rewrite Hstarted. cbn [negb].
    replace (Animation.changed (SpringValue.animation s1) && negb reset)
      with false
      by (destruct Hcase as [-> | ->];
          [reflexivity | now rewrite andb_false_r]).
    assert (Hfz0 : SpringValue.frozen (_stop G F false s1)
                   = SpringValue.frozen s)
      by (framed (_stop_inert G F SpringValue.frozen); exact Hfz).
    destruct (merge_store G F props r reset false immediate goal
                (_stop G F false s1)) as [[] s2 | e s2] eqn:Hst;
      cbn [andThen returns_or].
    + carried isAnimating (merge_store_inert G F isAnimating) Hst.
      rename Hc into Ha2. rewrite _stop_isAnimating in Ha2.
      carried SpringValue.frozen (merge_store_inert G F SpringValue.frozen) Hst.
      rename Hc into Hf2.
      unfold merge_dispatch.
      destruct (if reset then _set G F (option_map TVal value) false s2
                else Returned tt s2) as [[] s3 | e s3] eqn:Hset;
        cbn [andThen returns_or].
      * assert (Ha3 : isAnimating s3 = false).
        { destruct reset.
          - carried isAnimating (_set_inert G F isAnimating) Hset. congruence.
          - injection Hset as <-. exact Ha2. }
        rewrite Hasync, Ha3. cbn [andb returns_or].
        split; [exact Ha3 |].
        exists (SpringValue.log s3). reflexivity.
      * destruct reset; [| discriminate].
        apply _set_threw in Hset. destruct Hset as [He Hf].
        split; [exact He | congruence].
    + apply merge_store_threw in Hst. destruct Hst as [He Hf].
      split; [exact He | congruence].
Qed.

End SettleProperties.

(** ** The sample springs *)

Section SampleRuns.

Import Sample.

Local Open Scope float_scope.



(** A duration of one second, 16 ms in, linear easing from 0 to 10. *)
Lemma duration_mode_advance_witness :
  exists r,
    advance_node G0 (channel_animation false duration_config) None
      (Some [VNum 10]) 16 0 channel_node = Some r
    /\ AnimatedValue.lastPosition (step_node r) = 0.16
    /\ AnimatedValue.done (step_node r) = false.
Proof.
  destruct (duration_mode_advance G0 (channel_animation false duration_config)
              None (Some [VNum 10]) 16 0 channel_node (Some (VNum 10)) true
              1000)
    as (r & Hr & _ & _ & Hp & Hd & _);
    try (vm_compute; reflexivity).
  exists r. split; [exact Hr |]. split.
  - rewrite Hp by (vm_compute; reflexivity). vm_compute. reflexivity.
  - rewrite Hd. vm_compute. reflexivity.
Defined.

(** With a tension of 0 next to the duration the channel is done at once,
    at a progress of 0.016. *)
Lemma loose_spring_ignores_its_duration : ~ Stated.duration_mode G0.
Proof.
  intros H.
  destruct (H (channel_animation false loose_duration_config) None
              (Some [VNum 10]) 16 0%nat channel_node (Some (VNum 10)) 1000
              eq_refl eq_refl eq_refl eq_refl)
    as (r & Hr & _ & _ & Hd).
  vm_compute in Hr. injection Hr as <-.
  vm_compute in Hd. discriminate Hd.
Qed.

(** A decay with a seed velocity of 1, 16 ms in. *)
Lemma decay_mode_advance_witness :
  exists r,
    advance_node G0 (channel_animation false decay_config) None
      (Some [VNum 10]) 16 0 channel_node = Some r
    /\ AnimatedValue.done (step_node r) = false.
Proof.
  destruct (decay_mode_advance G0 (channel_animation false decay_config)
              None (Some [VNum 10]) 16 0 channel_node (Some (VNum 10)) true)
    as (r & Hr & _ & _ & _ & Hd & _);
    try (vm_compute; reflexivity).
  exists r. split; [exact Hr |].
  rewrite Hd. vm_compute. reflexivity.
Defined.

(** With a tension of 0 next to the decay the channel is done at once,
    where the decay would have moved it by 16. *)
Lemma loose_spring_ignores_its_decay : ~ Stated.decay_mode G0.
Proof.
  intros H.
  destruct (H (channel_animation false loose_decay_config) None
              (Some [VNum 10]) 16 0%nat channel_node (Some (VNum 10))
              eq_refl eq_refl eq_refl eq_refl eq_refl)
    as (r & Hr & _ & _ & Hd).
  vm_compute in Hr. injection Hr as <-.
  vm_compute in Hd. discriminate Hd.
Qed.

(** The default spring (170, 26, 1) from 0 to 10: a frame of 16 ms takes all
    16 sub-steps and the channel is not done. *)
Lemma spring_mode_advance_witness :
  exists r,
    advance_node G0 (channel_animation false config0) None
      (Some [VNum 10]) 16 0 channel_node = Some r
    /\ AnimatedValue.lastPosition (step_node r)
       = fst (Spec.substeps 170 26 1 10 None true 16 (0, 0))
    /\ AnimatedValue.done (step_node r) = false.
Proof.
  destruct (spring_mode_advance G0 (channel_animation false config0)
              None (Some [VNum 10]) 16 0 channel_node (Some (VNum 10)) true 16)
    as (r & k & Hr & Hk & _ & Hrest & _ & Hp & Hd);
    try (vm_compute; reflexivity).
  assert (Hk16 : k = 16%nat).
  { destruct (Nat.eq_dec k 16) as [| Hne]; [assumption |]. exfalso.
    assert (Hlt : (k < 16)%nat) by lia. specialize (Hrest Hlt).
    do 16 (destruct k as [| k]; [vm_compute in Hrest; discriminate Hrest |]).
    lia. }
  subst k. exists r. split; [exact Hr |]. split.
  - rewrite Hp by (vm_compute; reflexivity). reflexivity.
  - rewrite Hd. vm_compute. reflexivity.
Defined.

(** With a tension of 0 the channel is done after one call of 1 ms,
    10 away from its goal: it took no sub-step and it is not at rest. *)
Lemma loose_spring_takes_no_substep : ~ Stated.spring_mode G0.
Proof.
  intros H.
  destruct (H (channel_animation false loose_config) None
              (Some [VNum 10]) 1 0%nat channel_node (Some (VNum 10)) 1%nat
              eq_refl eq_refl eq_refl eq_refl eq_refl eq_refl eq_refl)
    as (r & k & Hr & Hk & _ & Hrest & _ & Hd).
  vm_compute in Hr. injection Hr as <-.
  cbn [step_node AnimatedValue.done] in Hd.
  symmetry in Hd. apply Nat.ltb_lt in Hd.
  specialize (Hrest Hd).
  assert (k = 0%nat) by lia. subst k.
  vm_compute in Hrest. discriminate Hrest.
Qed.

(** Three calls on a loose channel, the last one of a whole second. *)
Lemma loose_channel_keeps_its_position_witness :
  exists node',
    advance_node_each G0 (channel_animation false loose_config) None
      (Some [VNum 10]) 0 [16; 16; 1000] channel_node = Some node'
    /\ AnimatedValue.lastPosition node' = 0
    /\ AnimatedValue.done node' = true.
Proof.
  destruct (loose_channel_keeps_its_position G0 (channel_animation false loose_config)
              None (Some [VNum 10]) 0 [16; 16; 1000] channel_node)
    as (node' & Hn & Hp & _ & _ & _ & Hd);
    try (vm_compute; reflexivity).
  - vm_compute. discriminate.
  - exists node'. split; [exact Hn |]. split; [exact Hp |].
    apply Hd. discriminate.
Defined.

(** An immediate animation puts its channel on the goal, with any
    tension. *)
Lemma immediate_loose_spring_moves : ~ Stated.loose_channel_never_moves G0.
Proof.
  intros H.
  destruct (advance_node_each G0 (channel_animation true loose_config) None
              (Some [VNum 10]) 0 [16] channel_node) as [node' |] eqn:Hn;
    [| vm_compute in Hn; discriminate Hn].
  specialize (H (channel_animation true loose_config) None (Some [VNum 10])
                0%nat [16] channel_node node' eq_refl Hn).
  vm_compute in Hn. injection Hn as <-.
  apply (f_equal (fun x => x =? 0)) in H. vm_compute in H. discriminate H.
Qed.

(** A loose spring is over after one frame: every channel is marked done
    where it is, and [advance] goes on to [finish] (line 301), which writes
    the goal to the node. *)
Lemma loose_spring_is_finished_at_once :
  exists s',
    advance_each G0 F0 [16] spring_loose = Some s'
    /\ positions spring_loose = [0]
    /\ positions s' = [1]
    /\ isAnimating s' = false.
Proof.
  eexists. split; [vm_compute; reflexivity |].
  repeat split; vm_compute; reflexivity.
Qed.

(** The spring on its way from 0 to 1 is told to go where it is: the
    animation is started again. *)
Lemma goal_reached_while_active_witness :
  exists s',
    merge_props G0 F0 range_current to_current (fst merged_current)
      (snd merged_current) = Returned tt s'
    /\ isAnimating s' = true
    /\ Animation.changed (SpringValue.animation s') = true
    /\ AnimatedValue.done (cell (SpringValue.heap s') 0) = false.
Proof.
  destruct (goal_reached_while_active G0 F0 range_current to_current
              (fst merged_current) (snd merged_current) (ASingle 0)
              (TVal (VNum 0.28451838280769204)) (snd merged_current)
              eq_refl eq_refl eq_refl eq_refl eq_refl eq_refl eq_refl)
    as [Hrestart _].
  specialize (Hrestart eq_refl eq_refl). revert Hrestart.
  destruct (merge_props G0 F0 range_current to_current (fst merged_current)
              (snd merged_current)) as [[] s' | e s'] eqn:Hm;
    cbn [returns_or].
  - intros (Ha & Hc & _ & nd' & Hn & Hd).
    exists s'. split; [reflexivity |]. split; [exact Ha |].
    split; [exact Hc |].
    vm_compute in Hm. injection Hm as <-.
    vm_compute in Hn. injection Hn as <-.
    apply Hd; [left; reflexivity | vm_compute; lia].
  - intros [_ Hf]. vm_compute in Hf. discriminate Hf.
Defined.

(** The same spring is told to go where it is, from where it is, with
    [reset]: the animation is stopped. *)
Lemma reset_stops_the_active_animation :
  ~ Stated.active_animation_restarts G0 F0.
Proof.
  intros H.
  specialize (H range_here reset_here (fst merged_here) (snd merged_here)
                (ASingle 0) (TVal (VNum 0.28451838280769204))
                (snd merged_here) eq_refl eq_refl eq_refl).
  vm_compute in H.
  specialize (H eq_refl eq_refl eq_refl eq_refl eq_refl eq_refl).
  discriminate H.
Qed.


(** [{ from: 5, to: 10 }] on the frozen [new SpringValue(0)] throws, and the
    value is 5 afterwards. *)
Lemma frozen_update_leaves_the_from_value :
  exists s',
    submit G0 F0 from_5_to_10 (freeze spring_at_0) = Threw FrozenError s'
    /\ get G0 (freeze spring_at_0) = Some (VNum 0)
    /\ get G0 s' = Some (VNum 5).
Proof.
  eexists. split; [vm_compute; reflexivity |].
  split; vm_compute; reflexivity.
Qed.



(** [{ cancel: true }] on the spring on its way from 0 to 1. *)
Lemma cancel_stops_and_resolves_cancelled_witness :
  (exists s',
      _merge G0 F0 (mkRange None None) (Props.set_callId 3 (with_cancel props0))
        spring_moving = Returned tt s'
      /\ SpringValue.log s'
         = SpringValue.log (stop G0 F0 true spring_moving)
           ++ [Resolve 3 (Cancelled (Some (VNum 0.28451838280769204)))]
      /\ isAnimating s' = false
      /\ get G0 s' = Some (VNum 0.28451838280769204))
  /\ isAnimating (stop G0 F0 true spring_moving) = false
  /\ get G0 (stop G0 F0 true spring_moving) = Some (VNum 0.28451838280769204)
  /\ In (Resolve 2 (Cancelled (Some (VNum 0.28451838280769204))))
       (SpringValue.log (stop G0 F0 true spring_moving)).
Proof.
  destruct (cancel_stops_and_resolves_cancelled G0 F0) as [Hmerge Hstop].
  destruct (Hmerge (mkRange None None) (Props.set_callId 3 (with_cancel props0))
              spring_moving eq_refl)
    as (_ & _ & _ & s' & Hm & Hl & Ha' & Hg' & _).
  destruct (Hstop spring_moving eq_refl) as (Ha & Hg & _ & Hq & _).
  split; [exists s'; repeat split; assumption |].
  split; [exact Ha |]. split; [exact Hg |].
  apply (Hq (RestResolver 2) (Some (TVal (VNum 1)))).
  vm_compute. left. reflexivity.
Defined.


End SampleRuns.

(** ** [advance] on the whole spring *)

Section AdvanceProperties.

Context (G : Globals) (F : FluidGraph).

(** The callback keeps the spring busy exactly when it leaves the node not
    done, and it never changes the class of the node. *)
Lemma advance_node_busy anim payload toValues dt i node r :
  advance_node G anim payload toValues dt i node = Some r ->
  AnimatedValue.done (step_node r) = negb (step_busy r)
  /\ AnimatedValue.ctor (step_node r) = AnimatedValue.ctor node.
Proof.
  unfold advance_node.
  destruct (AnimatedValue.done node) eqn:Hdone.
  { intros [= <-]. cbn. split; [exact Hdone | reflexivity]. }
  destruct (channel_to node payload toValues i) as [to |]; [| discriminate].
  assert (Hsettle : forall n v fin w,
             AnimatedValue.done n = false ->
             AnimatedValue.ctor n = AnimatedValue.ctor node ->
             settle G (Animation.config anim) payload i n v fin w = Some r ->
             AnimatedValue.done (step_node r) = negb (step_busy r)
             /\ AnimatedValue.ctor (step_node r) = AnimatedValue.ctor node).
  { intros n v fin w Hn Hc. unfold settle.
    destruct (parentDone payload i) as [pd |]; [| discriminate].
    set (fin' := if pd then fin else false).
    set (n1 := if fin' then AnimatedValue.set_done true n else n).
    pose proof (node_setValue_fields G v
                  (AnimationConfig.round (Animation.config anim)) n1) as Hf.
    destruct (node_setValue G v _ n1) as [n2 changed].
    cbn in Hf. destruct Hf as (Hd & _ & _ & _ & Hct).
    intros [= <-]. cbn. rewrite Hd, Hct. unfold n1.
    destruct fin'; cbn; [split; [reflexivity | exact Hc] |].
    split; [exact Hn | exact Hc]. }
  destruct (Animation.immediate anim).
  { destruct to as [position |]; [| discriminate].
    apply Hsettle; [exact Hdone | reflexivity]. }
  destruct (AnimationConfig.tension _ <=? 0)%float.
  { intros [= <-]. cbn. split; reflexivity. }
  cbv zeta.
  destruct (channel_motion G _ _ _ _ _ _ _) as [m |]; [| discriminate].
  apply Hsettle; cbn; [exact Hdone | reflexivity].
Qed.

(** A node that is done is left alone. *)
Lemma advance_node_done anim payload toValues dt i node :
  AnimatedValue.done node = true ->
  advance_node G anim payload toValues dt i node
  = Some (mkNodeStep node false false false).
Proof. intros H. unfold advance_node. rewrite H. reflexivity. Qed.

(** The loop over the channels writes to the heap and to the log only. *)
Lemma advance_values_inert {A : Type} (proj : SpringValue.t -> A)
  anim payload toValues dt ids :
  (forall x s, proj (SpringValue.set_heap x s) = proj s) ->
  (forall x s, proj (SpringValue.set_log x s) = proj s) ->
  forall i s idle changed s' idle' changed',
    advance_values G anim payload toValues dt i ids s idle changed
    = Some (s', idle', changed') ->
    proj s' = proj s.
Proof.
  intros Hh Hl.
  induction ids as [| id ids IH]; intros i s idle changed s' idle' changed'.
  - intros [= <- _ _]. reflexivity.
  - cbn [advance_values].
    destruct (advance_node G anim payload toValues dt i _) as [r |];
      [| discriminate].
    intros H. apply IH in H. rewrite H.
    destruct (step_warned r); [unfold emit; rewrite Hl |]; apply Hh.
Qed.

(** What the loop over the channels leaves: [idle] still holds exactly when
    every channel it went through is done, and the other cells of the heap
    are as they were. *)
Lemma advance_values_idle anim payload toValues dt ids :
  NoDup ids ->
  forall i s idle changed s' idle' changed',
    advance_values G anim payload toValues dt i ids s idle changed
    = Some (s', idle', changed') ->
    idle'
    = idle && forallb (fun id => AnimatedValue.done (cell (SpringValue.heap s') id))
                ids
    /\ (forall j, ~ In j ids ->
                  cell (SpringValue.heap s') j = cell (SpringValue.heap s) j).
Proof.
  induction ids as [| id ids IH]; intros Hnd i s idle changed s' idle' changed'.
  - intros [= <- <- _]. cbn. rewrite andb_true_r. split; reflexivity.
  - inversion Hnd as [| ? ? Hnotin Hnd']; subst.
    cbn [advance_values].
    destruct (advance_node G anim payload toValues dt i
                (cell (SpringValue.heap s) id)) as [r |] eqn:Hr;
      [| discriminate].
    intros H. apply (IH Hnd') in H. destruct H as [Hidle Hothers].
    assert (Hheap : forall j,
               cell (SpringValue.heap
                       (if step_warned r
                        then emit WarnNaN
                               (SpringValue.set_heap
                                  (update (SpringValue.heap s) id
                                     (fun _ => step_node r)) s)
                        else SpringValue.set_heap
                               (update (SpringValue.heap s) id
                                  (fun _ => step_node r)) s)) j
               = cell (update (SpringValue.heap s) id (fun _ => step_node r)) j)
      by (intros j; destruct (step_warned r); reflexivity).
    split.
    + rewrite Hidle. cbn [forallb]. rewrite <- andb_assoc. f_equal. f_equal.
      rewrite (Hothers id Hnotin), Hheap.
      destruct (advance_node_busy _ _ _ _ _ _ _ Hr) as [Hd _].
      destruct (Nat.lt_ge_cases id (length (SpringValue.heap s))) as [Hlt | Hge].
      * rewrite cell_update_at by exact Hlt. symmetry. exact Hd.
      * rewrite update_beyond by exact Hge.
        rewrite (cell_beyond _ _ Hge) in Hr.
        rewrite advance_node_done in Hr by reflexivity.
        injection Hr as <-. rewrite (cell_beyond _ _ Hge). reflexivity.
    + intros j Hj. rewrite (Hothers j) by (intros Hin; apply Hj; now right).
      rewrite Hheap. apply cell_update_other.
      intros ->. apply Hj. now left.
Qed.

(** [_stop] leaves the channels and the range of the animation alone, and
    of the animation only rewrites the [onRest] queue. *)
Lemma _stop_animation cancel s :
  exists q,
    SpringValue.animation (_stop G F cancel s)
    = Animation.set_onRest q (SpringValue.animation s).
Proof.
  unfold _stop. destruct (isAnimating s).
  - destruct (Animation.onRest (SpringValue.animation (setActiveBit false s)))
      as [| first rest] eqn:Hq.
    + exists []. cbn in *. rewrite <- Hq.
      destruct (SpringValue.animation s). reflexivity.
    + framed (call_each_inert G F SpringValue.animation).
      eexists. reflexivity.
  - exists (Animation.onRest (SpringValue.animation s)).
    destruct (SpringValue.animation s). reflexivity.
Qed.

Lemma _stop_heap cancel s :
  isAnimating s = true ->
  SpringValue.heap (_stop G F cancel s)
  = update_all (Animation.values (SpringValue.animation s))
      (AnimatedValue.set_done true) (SpringValue.heap s).
Proof.
  intros Ha. unfold _stop. rewrite Ha.
  destruct (Animation.onRest _); [reflexivity |].
  framed (call_each_inert G F SpringValue.heap). reflexivity.
Qed.

(** Every channel is done once [_stop] has stopped an animation. *)
Lemma _stop_all_done cancel s :
  isAnimating s = true -> all_done (_stop G F cancel s) = true.
Proof.
  intros Ha. unfold all_done. rewrite (_stop_heap cancel s Ha).
  destruct (_stop_animation cancel s) as [q ->].
  cbn [Animation.values Animation.set_onRest].
  apply forallb_forall. intros id Hin.
  rewrite cell_update_all_done. apply orb_true_iff. right.
  apply existsb_exists. exists id. split; [exact Hin | apply Nat.eqb_refl].
Qed.

(** [finish] up to [_stop]: the state that [_stop] is called on. *)
Lemma finish_unfold s s' :
  isAnimating s = true ->
  finish G F s = Returned tt s' ->
  exists s1,
    s' = _stop G F false s1
    /\ isAnimating s1 = true
    /\ Animation.changed (SpringValue.animation s1) = true
    /\ Animation.set_changed true (SpringValue.animation s)
       = SpringValue.animation s1.
Proof.
  intros Ha. unfold finish. rewrite Ha.
  set (s0 := _onStart s).
  assert (H0 : isAnimating s0 = true
               /\ SpringValue.animation s0
                  = Animation.set_changed true (SpringValue.animation s)).
  { unfold s0, _onStart. destruct (Animation.changed _) eqn:Hc.
    - split; [exact Ha |]. destruct (SpringValue.animation s).
      cbn in Hc. subst. reflexivity.
    - split.
      + framed (callProp_inert isAnimating). exact Ha.
      + framed (callProp_inert SpringValue.animation). reflexivity. }
  clearbody s0. destruct H0 as [Ha0 Hanim0].
  intros H. apply andThen_returned in H. destruct H as (s1 & Hs1 & H).
  injection H as <-. exists s1. split; [reflexivity |].
  destruct (decay_truthy _).
  - injection Hs1 as <-. rewrite Hanim0. repeat split; [exact Ha0 ..].
  - carried isAnimating (_set_inert G F isAnimating) Hs1.
    carried SpringValue.animation (_set_inert G F SpringValue.animation) Hs1.
    rewrite Hc0, Hc, Hanim0. repeat split; exact Ha0.
Qed.

Lemma returned_Some o s' : returned o = Some s' -> o = Returned tt s'.
Proof. destruct o as [[] s1 | e s1]; cbn; [intros [= <-] | discriminate]; reflexivity. Qed.

End AdvanceProperties.

Section FrameLoopProperties.

Context (G : Globals) (F : FluidGraph).

(** [advance] changes the animation only in its [changed] flag and its
    [onRest] queue. *)
Lemma advance_animation dt s s' :
  advance G F dt s = Some s' ->
  exists c q,
    SpringValue.animation s'
    = Animation.set_onRest q (Animation.set_changed c (SpringValue.animation s)).
Proof.
  unfold advance.
  destruct (advance_values G _ _ _ dt 0 _ s true false)
    as [[[s1 idle] changed] |] eqn:Hv; [| discriminate].
  pose proof (advance_values_inert G SpringValue.animation _ _ _ _ _
                (fun _ _ => eq_refl) (fun _ _ => eq_refl) _ _ _ _ _ _ _ Hv)
    as Ha.
  assert (Hsame : exists c q,
             SpringValue.animation s1
             = Animation.set_onRest q
                 (Animation.set_changed c (SpringValue.animation s))).
  { exists (Animation.changed (SpringValue.animation s)),
      (Animation.onRest (SpringValue.animation s)).
    rewrite Ha. destruct (SpringValue.animation s). reflexivity. }
  destruct idle.
  - intros Hf. apply returned_Some in Hf.
    destruct (isAnimating s1) eqn:Hact.
    + destruct (finish_unfold G F s1 s' Hact Hf) as (s2 & -> & _ & _ & Hs2).
      destruct (_stop_animation G F false s2) as [q ->].
      rewrite <- Hs2, Ha. exists true, q. reflexivity.
    + unfold finish in Hf. rewrite Hact in Hf. injection Hf as <-.
      exact Hsame.
  - destruct changed; intros [= <-]; [| exact Hsame].
    unfold _onChange.
    framed (emit_inert SpringValue.animation).
    framed (callProp_inert SpringValue.animation).
    unfold _onStart. destruct (Animation.changed _); [exact Hsame |].
    framed (callProp_inert SpringValue.animation).
    cbn. rewrite Ha. exists true, (Animation.onRest (SpringValue.animation s)).
    destruct (SpringValue.animation s). reflexivity.
Qed.

(** [advance] writes to the animation, the node, the heap, the phase and
    the log only. *)
Lemma advance_inert {A : Type} (proj : SpringValue.t -> A) dt s s' :
  (forall x s, proj (SpringValue.set_animation x s) = proj s) ->
  (forall x s, proj (SpringValue.set_node x s) = proj s) ->
  (forall x s, proj (SpringValue.set_heap x s) = proj s) ->
  (forall x s, proj (SpringValue.set_phase x s) = proj s) ->
  (forall x s, proj (SpringValue.set_log x s) = proj s) ->
  advance G F dt s = Some s' ->
  proj s' = proj s.
Proof.
  intros Ha Hn Hh Hp Hl. unfold advance.
  destruct (advance_values G _ _ _ dt 0 _ s true false)
    as [[[s1 idle] changed] |] eqn:Hv; [| discriminate].
  pose proof (advance_values_inert G proj _ _ _ _ _ Hh Hl _ _ _ _ _ _ _ Hv)
    as H1.
  destruct idle; [| destruct changed].
  - intros Hf. rewrite <- H1.
    apply (returned_inert proj (finish G F s1)); [| exact Hf].
    apply (finish_inert G F proj Ha Hn Hh Hp Hl).
  - intros [= <-]. rewrite (_onChange_inert proj Ha Hl). exact H1.
  - intros [= <-]. exact H1.
Qed.

(** X1: After a frame of an animating spring whose channels are distinct
    nodes, the spring is still animating exactly when some channel is not
    done: advance leaves the frame loop (through finish and _stop) if and
    only if every channel is done at the end of the frame. *)
Theorem advance_ends_when_all_done dt s s' :
  isAnimating s = true ->
  NoDup (Animation.values (SpringValue.animation s)) ->
  advance G F dt s = Some s' ->
  isAnimating s' = negb (all_done s').
Proof.
  intros Hact Hnd. unfold advance.
  destruct (advance_values G _ _ _ dt 0 _ s true false)
    as [[[s1 idle] changed] |] eqn:Hv; [| discriminate].
  pose proof (advance_values_inert G SpringValue.animation _ _ _ _ _
                (fun _ _ => eq_refl) (fun _ _ => eq_refl) _ _ _ _ _ _ _ Hv)
    as Ha.
  pose proof (advance_values_inert G isAnimating _ _ _ _ _
                (fun _ _ => eq_refl) (fun _ _ => eq_refl) _ _ _ _ _ _ _ Hv)
    as Hp.
  destruct (advance_values_idle G _ _ _ _ _ Hnd _ _ _ _ _ _ _ Hv) as [Hidle _].
  cbn [andb] in Hidle. rewrite Hact in Hp.
  destruct idle.
  - intros Hf. apply returned_Some in Hf.
    destruct (finish_unfold G F s1 s' Hp Hf) as (s2 & -> & Hact2 & _).
    rewrite _stop_isAnimating, (_stop_all_done G F false s2 Hact2).
    reflexivity.
  - assert (Hnot : all_done s1 = false)
      by (unfold all_done; rewrite Ha; symmetry; exact Hidle).
    destruct changed; intros [= <-]; [| rewrite Hnot; exact Hp].
    assert (Hd : all_done (_onChange (get G s1) false s1) = all_done s1).
    { unfold all_done.
      framed (_onChange_inert SpringValue.heap).
      unfold _onChange.
      framed (emit_inert SpringValue.animation).
      framed (callProp_inert SpringValue.animation).
      unfold _onStart. destruct (Animation.changed _); [reflexivity |].
      framed (callProp_inert SpringValue.animation). reflexivity. }
    rewrite Hd, Hnot. framed (_onChange_inert isAnimating). exact Hp.
Qed.

(** [_stop] clears the active bit and no other flag. *)
Lemma _stop_flags cancel s :
  hasAnimated (_stop G F cancel s) = hasAnimated s
  /\ isPaused (_stop G F cancel s) = isPaused s.
Proof.
  unfold _stop. destruct (isAnimating s); [| split; reflexivity].
  destruct (Animation.onRest _);
    [| framed (call_each_inert G F hasAnimated);
       framed (call_each_inert G F isPaused)];
    split; reflexivity.
Qed.

Lemma finish_flags s :
  hasAnimated (outcome_state (finish G F s)) = hasAnimated s
  /\ isPaused (outcome_state (finish G F s)) = isPaused s.
Proof.
  unfold finish. destruct (isAnimating s); [| split; reflexivity].
  set (o := if decay_truthy _ then Returned tt (_onStart s) else _).
  assert (Ho : hasAnimated (outcome_state o) = hasAnimated s
               /\ isPaused (outcome_state o) = isPaused s).
  { unfold o. destruct (decay_truthy _); cbn [outcome_state];
      [| framed (_set_inert G F hasAnimated); framed (_set_inert G F isPaused)];
      framed (_onStart_inert hasAnimated); framed (_onStart_inert isPaused);
      split; reflexivity. }
  clearbody o. destruct o as [[] s1 | e s1]; cbn [andThen outcome_state] in *;
    [| exact Ho].
  destruct (_stop_flags false s1) as [Hh Hp]. rewrite Hh, Hp. exact Ho.
Qed.

(** X2: A frame never touches the range of the animation or the
    bookkeeping of the updates: to, from, config, immediate, the list of
    channels, toValues and fromValues, _lastCallId, _lastToId, the default
    props, the async state and the paused and hasAnimated flags are the
    same after advance as before. *)
Theorem advance_keeps_the_range dt s s' :
  advance G F dt s = Some s' ->
  let a := SpringValue.animation s in
  let a' := SpringValue.animation s' in
  Animation.to a' = Animation.to a
  /\ Animation.from a' = Animation.from a
  /\ Animation.config a' = Animation.config a
  /\ Animation.immediate a' = Animation.immediate a
  /\ Animation.values a' = Animation.values a
  /\ Animation.toValues a' = Animation.toValues a
  /\ Animation.fromValues a' = Animation.fromValues a
  /\ SpringValue._lastCallId s' = SpringValue._lastCallId s
  /\ SpringValue._lastToId s' = SpringValue._lastToId s
  /\ SpringValue._defaultProps s' = SpringValue._defaultProps s
  /\ SpringValue._state s' = SpringValue._state s
  /\ isPaused s' = isPaused s
  /\ hasAnimated s' = hasAnimated s.
Proof.
  intros H a a'.
  destruct (advance_animation dt s s' H) as (c & q & Ha).
  unfold a', a. rewrite Ha. cbn.
  repeat split;
    try (apply (advance_inert _ dt s s'); try exact H; intros; reflexivity).
  - revert H. unfold advance.
    destruct (advance_values G _ _ _ dt 0 _ s true false)
      as [[[s1 idle] changed] |] eqn:Hv; [| discriminate].
    pose proof (advance_values_inert G isPaused _ _ _ _ _
                  (fun _ _ => eq_refl) (fun _ _ => eq_refl) _ _ _ _ _ _ _ Hv)
      as H1.
    destruct idle; [| destruct changed].
    + intros Hf. apply returned_Some in Hf.
      pose proof (proj2 (finish_flags s1)) as H2. rewrite Hf in H2.
      cbn [outcome_state] in H2. congruence.
    + intros [= <-]. framed (_onChange_inert isPaused). exact H1.
    + intros [= <-]. exact H1.
  - revert H. unfold advance.
    destruct (advance_values G _ _ _ dt 0 _ s true false)
      as [[[s1 idle] changed] |] eqn:Hv; [| discriminate].
    pose proof (advance_values_inert G hasAnimated _ _ _ _ _
                  (fun _ _ => eq_refl) (fun _ _ => eq_refl) _ _ _ _ _ _ _ Hv)
      as H1.
    destruct idle; [| destruct changed].
    + intros Hf. apply returned_Some in Hf.
      pose proof (proj1 (finish_flags s1)) as H2. rewrite Hf in H2.
      cbn [outcome_state] in H2. congruence.
    + intros [= <-]. framed (_onChange_inert hasAnimated). exact H1.
    + intros [= <-]. exact H1.
Qed.

(** The loop over the channels of a loose spring: every channel is marked
    done and nothing else happens. *)
Lemma advance_values_loose anim payload toValues dt ids :
  Animation.immediate anim = false ->
  (AnimationConfig.tension (Animation.config anim) <=? 0)%float = true ->
  forall i s idle changed,
    (forall k id,
        nth_error ids k = Some id ->
        channel_to (cell (SpringValue.heap s) id) payload toValues (i + k)
        <> None) ->
    advance_values G anim payload toValues dt i ids s idle changed
    = Some (SpringValue.set_heap
              (update_all ids (AnimatedValue.set_done true) (SpringValue.heap s))
              s, idle, changed).
Proof.
  intros Himm Hten.
  induction ids as [| id ids IH]; intros i s idle changed Hgoals.
  - cbn. destruct s. reflexivity.
  - cbn [advance_values].
    assert (Hr : advance_node G anim payload toValues dt i
                   (cell (SpringValue.heap s) id)
                 = Some (mkNodeStep
                           (AnimatedValue.set_done true
                              (cell (SpringValue.heap s) id))
                           false false false)).
    { unfold advance_node.
      destruct (AnimatedValue.done (cell (SpringValue.heap s) id)) eqn:Hd.
      - destruct (cell (SpringValue.heap s) id). cbn in Hd. subst. reflexivity.
      - specialize (Hgoals 0 id eq_refl). rewrite Nat.add_0_r in Hgoals.
        destruct (channel_to _ payload toValues i); [| contradiction].
        rewrite Himm, Hten. reflexivity. }
    rewrite Hr. cbn [step_node step_warned step_busy step_changed negb].
    rewrite andb_true_r, orb_false_r, update_const.
    rewrite IH.
    + reflexivity.
    + intros k id' Hk. cbn [SpringValue.heap SpringValue.set_heap].
      rewrite (channel_to_ctor (cell (SpringValue.heap s) id')
                 (cell (update (SpringValue.heap s) id
                          (AnimatedValue.set_done true)) id')).
      * replace (S i + k) with (i + S k) by lia. apply Hgoals. exact Hk.
      * destruct (Nat.eq_dec id' id) as [-> | Hne].
        -- destruct (Nat.lt_ge_cases id (length (SpringValue.heap s)))
             as [Hlt | Hge].
           ++ rewrite cell_update_at by exact Hlt. reflexivity.
           ++ rewrite update_beyond by exact Hge. reflexivity.
        -- rewrite cell_update_other by exact Hne. reflexivity.
Qed.

(** X3: With a tension of zero or less, an animation that is not immediate
    and has a goal for every channel ends in one frame of any length:
    advance(dt) marks every channel done without moving it and then runs
    [finish], so it returns what [finish] returns on the spring with all
    channels marked done; and it does return unless the spring is
    frozen. *)
Theorem loose_spring_finishes_at_once dt s :
  let anim := SpringValue.animation s in
  Animation.immediate anim = false ->
  (AnimationConfig.tension (Animation.config anim) <=? 0)%float = true ->
  (forall i id,
      nth_error (Animation.values anim) i = Some id ->
      channel_to (cell (SpringValue.heap s) id) (getPayload F (Animation.to anim))
        (advance_toValues F anim) i <> None) ->
  advance G F dt s = returned (finish G F (mark_done s))
  /\ (SpringValue.frozen s = false ->
      exists s',
        finish G F (mark_done s) = Returned tt s'
        /\ advance G F dt s = Some s').
Proof.
  intros anim Himm Hten Hgoals.
  assert (H : advance G F dt s = returned (finish G F (mark_done s))).
  { unfold advance. fold anim.
    rewrite (advance_values_loose anim _ _ dt _ Himm Hten 0 s true false Hgoals).
    reflexivity. }
  split; [exact H |].
  intros Hf. destruct (finish_live G F (mark_done s) Hf) as [s' Hs'].
  exists s'. split; [exact Hs' |]. rewrite H, Hs'. reflexivity.
Qed.

(** X4: [finish] on an animating spring leaves it not animating, with
    every channel done and the changed flag set, and keeps the goal and
    the config; when the config has a decay the current value is kept too.
    A second [finish] changes nothing.  [finish] does not return only on a
    frozen spring (the [TypeError] of the node it does not take), and not
    when the config has a decay. *)
Theorem finish_ends_the_animation s :
  isAnimating s = true ->
  let a := SpringValue.animation s in
  returns_or (SpringValue.frozen s = true
              /\ decay_truthy (AnimationConfig.decay (Animation.config a))
                 = false)
    (finish G F s)
    (fun s' =>
       let a' := SpringValue.animation s' in
       isAnimating s' = false
       /\ all_done s' = true
       /\ Animation.changed a' = true
       /\ Animation.to a' = Animation.to a
       /\ Animation.config a' = Animation.config a
       /\ (decay_truthy (AnimationConfig.decay (Animation.config a)) = true ->
           get G s' = get G s)
       /\ finish G F s' = Returned tt s').
Proof.
  intros Hact a.
  destruct (finish G F s) as [[] s' | e s'] eqn:Hfin; cbn [returns_or].
  - destruct (finish_unfold G F s s' Hact Hfin) as (s1 & Hf & Hact1 & Hch & Ha).
    assert (Hidle : isAnimating s' = false)
      by (rewrite Hf; apply _stop_isAnimating).
    split; [exact Hidle |].
    split; [rewrite Hf; apply _stop_all_done; exact Hact1 |].
    assert (Ha' : exists q,
               SpringValue.animation s'
               = Animation.set_onRest q (Animation.set_changed true a)).
    { rewrite Hf. destruct (_stop_animation G F false s1) as [q ->].
      exists q. rewrite <- Ha. reflexivity. }
    destruct Ha' as [q ->]. cbn.
    repeat split.
    + intros Hdecay. revert Hfin. unfold finish. rewrite Hact. fold a.
      rewrite Hdecay. cbn [andThen]. intros [= <-].
      rewrite _stop_get.
      apply (_onStart_inert (get G)); intros; reflexivity.
    + unfold finish. rewrite Hidle. reflexivity.
  - pose proof Hfin as Hthrew. apply finish_threw in Hthrew.
    destruct Hthrew as [He Hf]. split; [exact He |]. split; [exact Hf |].
    revert Hfin. unfold finish. rewrite Hact. fold a.
    destruct (decay_truthy _); [discriminate | reflexivity].
Qed.

End FrameLoopProperties.

(** ** The calls of [onStart] *)

Section OnStartCalls.

Context (G : Globals) (F : FluidGraph).

Lemma emit_calls e s :
  onStart_calls (SpringValue.log (emit e s))
  = onStart_calls (SpringValue.log s) ++ onStart_calls [e].
Proof. unfold emit, onStart_calls. cbn. apply filter_app. Qed.

Ltac logs :=
  repeat match goal with
         | |- context [SpringValue.log (SpringValue.set_animation ?x ?y)] =>
             change (SpringValue.log (SpringValue.set_animation x y))
               with (SpringValue.log y)
         | |- context [SpringValue.log (SpringValue.set_priority ?x ?y)] =>
             change (SpringValue.log (SpringValue.set_priority x y))
               with (SpringValue.log y)
         | |- context [SpringValue.log (SpringValue.set_heap ?x ?y)] =>
             change (SpringValue.log (SpringValue.set_heap x y))
               with (SpringValue.log y)
         | |- context [SpringValue.log (SpringValue.set_phase ?x ?y)] =>
             change (SpringValue.log (SpringValue.set_phase x y))
               with (SpringValue.log y)
         | |- context [SpringValue.log (SpringValue.set_state ?x ?y)] =>
             change (SpringValue.log (SpringValue.set_state x y))
               with (SpringValue.log y)
         end.

Ltac quiet :=
  logs;
  repeat (rewrite emit_calls; cbn [onStart_calls filter]; rewrite app_nil_r;
          logs).

Lemma _onChange_idle_calls v s :
  onStart_calls (SpringValue.log (_onChange v true s))
  = onStart_calls (SpringValue.log s).
Proof.
  unfold _onChange. quiet.
  destruct (Animation.onChange _); cbn [callProp]; [quiet |]; reflexivity.
Qed.

Lemma _set_calls arg force s :
  onStart_calls (SpringValue.log (outcome_state (_set G F arg force s)))
  = onStart_calls (SpringValue.log s).
Proof.
  unfold _set. destruct (getFluidValue F arg); [| reflexivity].
  destruct (force || _); [| reflexivity].
  destruct (SpringValue.node s).
  - destruct (AnimatedType_eqb _ _); cbn [andThen outcome_state].
    + rewrite _onChange_idle_calls.
      framed (animated_setValue_inert G SpringValue.log). reflexivity.
    + destruct (create_node G v s) as [[] s1 | e s1] eqn:Hc;
        cbn [andThen outcome_state];
        [rewrite _onChange_idle_calls |];
        carried SpringValue.log (create_node_inert G SpringValue.log) Hc;
        rewrite Hc0; reflexivity.
  - framed (create_node_inert G SpringValue.log). reflexivity.
Qed.

Lemma call_each_calls cancel q s :
  onStart_calls (SpringValue.log (call_each G F cancel q s))
  = onStart_calls (SpringValue.log s).
Proof.
  unfold call_each. revert s.
  induction q as [| f q IH]; intros s; [reflexivity |].
  cbn [fold_left]. rewrite IH.
  destruct f as [| [h | id] to]; cbn [call_onRest report]; [reflexivity | ..];
    quiet; reflexivity.
Qed.

Lemma _stop_calls cancel s :
  onStart_calls (SpringValue.log (_stop G F cancel s))
  = onStart_calls (SpringValue.log s).
Proof.
  unfold _stop. destruct (isAnimating s); [| reflexivity].
  destruct (Animation.onRest _); [| rewrite call_each_calls];
    cbn [SpringValue.log SpringValue.set_animation]; quiet; reflexivity.
Qed.

Lemma _focus_calls v s :
  onStart_calls (SpringValue.log (_focus F v s))
  = onStart_calls (SpringValue.log s).
Proof.
  unfold _focus. destruct (strict_neq _ _); [| reflexivity].
  destruct (negb _); [| reflexivity].
  unfold _attach, _detach.
  destruct v as [[x | id] |];
    destruct (Animation.to (SpringValue.animation s)) as [[y | id'] |];
    cbn -[emit onStart_calls]; quiet; reflexivity.
Qed.

(** [_onStart] calls the [onStart] prop when the animation has not changed
    the value yet, and then it has. *)
Lemma _onStart_calls s :
  onStart_calls (SpringValue.log (_onStart s))
  = onStart_calls (SpringValue.log s)
    ++ (if Animation.changed (SpringValue.animation s) then []
        else called (Animation.onStart (SpringValue.animation s)) CallOnStart).
Proof.
  unfold _onStart. destruct (Animation.changed _).
  - now rewrite app_nil_r.
  - destruct (Animation.onStart _); cbn [callProp called].
    + rewrite emit_calls. reflexivity.
    + now rewrite app_nil_r.
Qed.

Lemma _onStart_changed s :
  Animation.changed (SpringValue.animation (_onStart s)) = true.
Proof.
  unfold _onStart.
  destruct (Animation.changed (SpringValue.animation s)) eqn:H; [exact H |].
  framed (callProp_inert SpringValue.animation). reflexivity.
Qed.

Lemma advance_values_calls anim payload toValues dt ids :
  forall i s idle changed s' idle' changed',
    advance_values G anim payload toValues dt i ids s idle changed
    = Some (s', idle', changed') ->
    onStart_calls (SpringValue.log s') = onStart_calls (SpringValue.log s).
Proof.
  induction ids as [| id ids IH]; intros i s idle changed s' idle' changed'.
  - intros [= <- _ _]. reflexivity.
  - cbn [advance_values].
    destruct (advance_node G anim payload toValues dt i _) as [r |];
      [| discriminate].
    intros H. apply IH in H. rewrite H.
    destruct (step_warned r); [quiet |]; reflexivity.
Qed.

(** X5: A frame calls the onStart prop at most once, and only while the
    changed flag of the animation is not set: either the onStart calls in
    the log are the same after advance, or the animation has an onStart
    prop, changed was false and is true afterwards, and exactly one call
    of that prop was added. *)
Theorem onStart_is_called_once dt s s' :
  advance G F dt s = Some s' ->
  let a := SpringValue.animation s in
  onStart_calls (SpringValue.log s') = onStart_calls (SpringValue.log s)
  \/ (exists h,
         Animation.onStart a = Some h
         /\ Animation.changed a = false
         /\ Animation.changed (SpringValue.animation s') = true
         /\ onStart_calls (SpringValue.log s')
            = onStart_calls (SpringValue.log s) ++ [CallOnStart h]).
Proof.
  intros H a. revert H. unfold advance.
  destruct (advance_values G _ _ _ dt 0 _ s true false)
    as [[[s1 idle] changed] |] eqn:Hv; [| discriminate].
  pose proof (advance_values_inert G SpringValue.animation _ _ _ _ _
                (fun _ _ => eq_refl) (fun _ _ => eq_refl) _ _ _ _ _ _ _ Hv)
    as Ha.
  pose proof (advance_values_calls _ _ _ _ _ _ _ _ _ _ _ _ Hv) as Hl.
  assert (Hstart : forall s2,
             onStart_calls (SpringValue.log s2)
             = onStart_calls (SpringValue.log (_onStart s1)) ->
             Animation.changed (SpringValue.animation s2) = true ->
             onStart_calls (SpringValue.log s2)
             = onStart_calls (SpringValue.log s)
             \/ (exists h,
                    Animation.onStart a = Some h
                    /\ Animation.changed a = false
                    /\ Animation.changed (SpringValue.animation s2) = true
                    /\ onStart_calls (SpringValue.log s2)
                       = onStart_calls (SpringValue.log s) ++ [CallOnStart h])).
  { intros s2 Hlog Hch. rewrite Hlog, _onStart_calls, Ha, Hl. fold a.
    destruct (Animation.changed a); [left; apply app_nil_r |].
    destruct (Animation.onStart a) as [h |]; cbn [called].
    - right. exists h. repeat split. exact Hch.
    - left. apply app_nil_r. }
  destruct idle; [| destruct changed]; [intros Hf | intros [= <-] ..].
  - apply returned_Some in Hf. revert Hf.
    unfold finish. destruct (isAnimating s1); [| intros [= <-]; left; exact Hl].
    intros Hf. apply andThen_returned in Hf. destruct Hf as (s2 & Hs2 & Hf).
    injection Hf as <-.
    assert (H2 : onStart_calls (SpringValue.log s2)
                 = onStart_calls (SpringValue.log (_onStart s1))
                 /\ SpringValue.animation s2
                    = SpringValue.animation (_onStart s1)).
    { destruct (decay_truthy _); [injection Hs2 as <-; split; reflexivity |].
      pose proof (_set_calls (Animation.to (SpringValue.animation s1)) true
                    (_onStart s1)) as Hcalls.
      rewrite Hs2 in Hcalls. cbn [outcome_state] in Hcalls.
      carried SpringValue.animation (_set_inert G F SpringValue.animation) Hs2.
      split; assumption. }
    destruct H2 as [Hcalls Hanim].
    apply Hstart.
    + rewrite _stop_calls. exact Hcalls.
    + destruct (_stop_animation G F false s2) as [q ->].
      cbn [Animation.changed Animation.set_onRest].
      rewrite Hanim. apply _onStart_changed.
  - apply Hstart.
    + unfold _onChange. quiet.
      destruct (Animation.onChange _); cbn [callProp]; [quiet |]; reflexivity.
    + unfold _onChange.
      framed (emit_inert SpringValue.animation).
      framed (callProp_inert SpringValue.animation).
      apply _onStart_changed.
  - left. exact Hl.
Qed.

End OnStartCalls.

(** ** [stop], [set], [pause] and [resume] *)

Section ControlProperties.

Context (G : Globals) (F : FluidGraph).

(** Every entry of the queue reports whether the value is on the goal it
    captured, in order. *)
Lemma call_each_finished q s :
  call_each G F false q s
  = SpringValue.set_log
      (SpringValue.log s ++ flat_map (rest_report G F (get G s)) q) s.
Proof.
  unfold call_each. revert s.
  induction q as [| f q IH]; intros s.
  - cbn. rewrite app_nil_r. destruct s; reflexivity.
  - cbn [fold_left]. rewrite IH. destruct f as [| callee to]; [reflexivity |].
    cbn [call_onRest flat_map rest_report]. unfold emit.
    change (get G (SpringValue.set_log _ s)) with (get G s).
    cbn [SpringValue.log SpringValue.set_log app].
    rewrite <- app_assoc. reflexivity.
Qed.

(** What [_stop] without [cancel] adds to the log of an active animation. *)
Lemma _stop_finished_log s :
  isAnimating s = true ->
  SpringValue.log (_stop G F false s)
  = SpringValue.log s ++ [EmitIdle]
    ++ flat_map (rest_report G F (get G s))
         (match Animation.onRest (SpringValue.animation s) with
          | [] => []
          | first :: rest =>
              if Animation.changed (SpringValue.animation s)
              then first :: rest else RestNoop :: rest
          end).
Proof.
  intros Hact. unfold _stop. rewrite Hact.
  cbn [setActiveBit SpringValue.animation SpringValue.set_phase
       SpringValue.set_heap emit SpringValue.set_log].
  destruct (Animation.onRest (SpringValue.animation s)) as [| first rest].
  - reflexivity.
  - rewrite call_each_finished.
    match goal with
    | |- context [rest_report G F (get G ?x)] =>
        replace (get G x) with (get G s)
          by (symmetry; apply get_ext; [reflexivity |]; intros j; cbn;
              apply cell_update_all_getValue)
    end.
    unfold emit.
    cbn [SpringValue.log SpringValue.set_log SpringValue.set_animation
         SpringValue.set_heap SpringValue.set_phase].
    rewrite <- app_assoc. reflexivity.
Qed.

(** X6: [stop] without cancel on an animating spring leaves it not
    animating with every channel done, at the same current value, and
    calls no onStart. Every onRest handler queued behind the first is
    given a finished result that carries the current value, and whose
    finished flag says whether the current value equals the goal recorded
    when the handler was queued. *)
Theorem stop_reports_the_goal_reached s :
  isAnimating s = true ->
  let s' := stop G F false s in
  let current := get G s in
  isAnimating s' = false
  /\ all_done s' = true
  /\ get G s' = current
  /\ onStart_calls (SpringValue.log s') = onStart_calls (SpringValue.log s)
  /\ (forall callee to,
         In (RestCheck callee to)
           (tl (Animation.onRest (SpringValue.animation s))) ->
         In (report callee
               (Finished current
                  (isEqualV (computeGoal G current) (computeGoalT G F to))))
           (SpringValue.log s')).
Proof.
  intros Hact s' current.
  set (s1 := _focus F (option_map TVal (get G s))
               (SpringValue.set_state
                  (stopAsync None (SpringValue._state s)) s)).
  assert (Hs' : s' = _stop G F false s1) by reflexivity.
  assert (Hact1 : isAnimating s1 = true)
    by (unfold s1; framed (_focus_inert F isAnimating); exact Hact).
  assert (Hget1 : get G s1 = current)
    by (unfold s1; framed (_focus_inert F (get G)); reflexivity).
  assert (Hq1 : Animation.onRest (SpringValue.animation s1)
                = Animation.onRest (SpringValue.animation s))
    by (unfold s1; rewrite _focus_animation; reflexivity).
  split; [rewrite Hs'; apply _stop_isAnimating |].
  split; [rewrite Hs'; apply _stop_all_done; exact Hact1 |].
  split; [rewrite Hs', _stop_get; exact Hget1 |].
  split.
  - rewrite Hs', _stop_calls. unfold s1. rewrite _focus_calls. reflexivity.
  - intros callee to Hin. rewrite Hs', (_stop_finished_log s1 Hact1).
    rewrite Hget1, Hq1.
    apply in_or_app. right. apply in_or_app. right.
    apply in_flat_map. exists (RestCheck callee to). split; [| now left].
    destruct (Animation.onRest (SpringValue.animation s)) as [| first rest];
      [destruct Hin |].
    cbn [tl] in Hin. destruct (Animation.changed _); now right.
Qed.

(** X7: set(value) leaves the spring not animating. The goal to is then
    the value given, or the old goal when that is strictly equal (===) to
    it; onStart is not called, _lastCallId and _lastToId are unchanged,
    and if the spring was animating every channel is done afterwards.
    set(value) does not return only on a frozen spring, where the node it
    needs cannot be set (a TypeError). *)
Theorem set_stops_the_animation v s :
  returns_or (SpringValue.frozen s = true) (set G F v s)
    (fun s' =>
       isAnimating s' = false
       /\ (Animation.to (SpringValue.animation s') = v
           \/ strict_neq v (Animation.to (SpringValue.animation s)) = false
              /\ Animation.to (SpringValue.animation s')
                 = Animation.to (SpringValue.animation s))
       /\ onStart_calls (SpringValue.log s')
          = onStart_calls (SpringValue.log s)
       /\ (isAnimating s = true -> all_done s' = true)
       /\ SpringValue._lastCallId s' = SpringValue._lastCallId s
       /\ SpringValue._lastToId s' = SpringValue._lastToId s).
Proof.
  unfold set.
  destruct (_set G F v false (_focus F v s)) as [[] s1 | e s1] eqn:Hset;
    cbn [andThen returns_or].
  - pose proof (_set_calls G F v false (_focus F v s)) as Hcalls.
    rewrite Hset in Hcalls. cbn [outcome_state] in Hcalls.
    carried SpringValue.animation (_set_inert G F SpringValue.animation) Hset.
    rename Hc into Hanim.
    carried isAnimating (_set_inert G F isAnimating) Hset.
    rename Hc into Hact1.
    carried SpringValue._lastCallId (_set_inert G F SpringValue._lastCallId)
      Hset.
    rename Hc into Hcall.
    carried SpringValue._lastToId (_set_inert G F SpringValue._lastToId) Hset.
    rename Hc into Hto.
    split; [apply _stop_isAnimating |].
    split.
    { rewrite _stop_to, Hanim, _focus_animation.
      cbn [Animation.to Animation.set_to].
      destruct (strict_neq v _);
        [left; reflexivity | right; split; reflexivity]. }
    split; [rewrite _stop_calls, Hcalls, _focus_calls; reflexivity |].
    split.
    { intros Hact. apply _stop_all_done. rewrite Hact1.
      framed (_focus_inert F isAnimating). exact Hact. }
    split.
    + framed (_stop_inert G F SpringValue._lastCallId). rewrite Hcall.
      framed (_focus_inert F SpringValue._lastCallId). reflexivity.
    + framed (_stop_inert G F SpringValue._lastToId). rewrite Hto.
      framed (_focus_inert F SpringValue._lastToId). reflexivity.
  - apply _set_threw in Hset. destruct Hset as [He Hf]. split; [exact He |].
    rewrite <- Hf. symmetry. framed (_focus_inert F SpringValue.frozen).
    reflexivity.
Qed.

(** A number written to a numeric node is the value of the node, unless the
    node holds an equal number already (the other zero), which it keeps. *)
Lemma AnimatedValue_setValue_number x n :
  AnimatedValue.ctor (fst (AnimatedValue_setValue G (VNum x) None n))
  = AnimatedValue.ctor n
  /\ (AnimatedValue._value (fst (AnimatedValue_setValue G (VNum x) None n))
      = VNum x
      \/ exists y,
           AnimatedValue._value
             (fst (AnimatedValue_setValue G (VNum x) None n)) = VNum y
           /\ (y =? x)%float = true).
Proof.
  unfold AnimatedValue_setValue. cbn.
  destruct (AnimatedValue._value n) as [y | str | ys] eqn:Hv; cbn.
  - destruct (y =? x)%float eqn:Hyx; cbn; (split; [reflexivity |]).
    + right. exists y. split; [exact Hv | exact Hyx].
    + left. reflexivity.
  - split; [reflexivity | left; reflexivity].
  - split; [reflexivity | left; reflexivity].
Qed.

(** [_set] of a number that is not [NaN]: the spring then holds that number
    (up to the sign of zero). *)
Lemma _set_number x force s s' :
  (x =? x)%float = true ->
  (forall id, SpringValue.node s = Some (ASingle id) ->
              id < length (SpringValue.heap s)) ->
  _set G F (Some (TVal (VNum x))) force s = Returned tt s' ->
  exists y,
    get G s' = Some (VNum y)
    /\ (y =? x)%float = true.
Proof.
  intros Hx Hwf.
  assert (Hcreate : forall s1,
             create_node G (VNum x) s = Returned tt s1 ->
             exists y, get G s1 = Some (VNum y) /\ (y =? x)%float = true).
  { intros s1 H. apply create_node_returned in H. destruct H as [-> _].
    exists x. split; [| exact Hx].
    unfold remake_payload, get. cbn. unfold cell. rewrite app_nth2 by lia.
    rewrite Nat.sub_diag. reflexivity. }
  unfold _set. cbn [getFluidValue].
  destruct (SpringValue.node s) as [nd |] eqn:Hnd.
  - destruct (force || negb (isEqualV (Some (VNum x)) (get G s))) eqn:Hdo.
    + intros H. apply andThen_returned in H. destruct H as (s1 & Hs1 & H).
      injection H as <-. framed (_onChange_idle_inert (get G)).
      revert Hs1. cbn [getAnimatedType].
      destruct (AnimatedType_eqb (animated_ctor s nd) TyValue) eqn:Hty;
        [| apply Hcreate].
      intros [= <-].
      destruct nd as [id | ids]; [| discriminate Hty].
      cbn [animated_ctor] in Hty.
      unfold animated_setValue, get.
      cbn [SpringValue.node SpringValue.set_heap SpringValue.heap].
      rewrite Hnd. rewrite cell_update_at by (apply Hwf; reflexivity).
      unfold node_getValue, node_setValue.
      destruct (AnimatedValue.ctor (cell (SpringValue.heap s) id)) eqn:Hc;
        try discriminate Hty.
      destruct (AnimatedValue_setValue_number x (cell (SpringValue.heap s) id))
        as [Hct [Hv | (y & Hv & Hy)]]; rewrite Hct, Hc, Hv.
      * exists x. split; [reflexivity | exact Hx].
      * exists y. split; [reflexivity | exact Hy].
    + intros [= <-].
      apply orb_false_iff in Hdo. destruct Hdo as [_ He].
      apply negb_false_iff in He.
      destruct (get G s) as [[y | str | ys] |]; try discriminate He.
      exists y. split; [reflexivity |].
      cbn in He. rewrite number_eq_sym. exact He.
  - rewrite orb_true_r. apply Hcreate.
Qed.

(** X8: set(x) with a number x that is not NaN returns unless the spring is
    frozen (then it may throw a TypeError, and nothing else), and after it
    [get] returns a number equal (==) to x, whatever node the spring had
    before (a single-value node must be a live node). The number read back
    may be the old value when that was already equal to x, since an equal
    value is not written again. *)
Theorem set_number_is_read_back x s :
  (x =? x)%float = true ->
  (forall id, SpringValue.node s = Some (ASingle id) ->
              id < length (SpringValue.heap s)) ->
  returns_or (SpringValue.frozen s = true)
    (set G F (Some (TVal (VNum x))) s)
    (fun s' =>
       exists y,
         get G s' = Some (VNum y)
         /\ (y =? x)%float = true).
Proof.
  intros Hx Hwf. unfold set.
  destruct (_set G F (Some (TVal (VNum x))) false
              (_focus F (Some (TVal (VNum x))) s)) as [[] s1 | e s1] eqn:Hset;
    cbn [andThen returns_or].
  - rewrite _stop_get.
    apply (_set_number x false (_focus F (Some (TVal (VNum x))) s) s1 Hx);
      [| exact Hset].
    intros id. framed (_focus_inert F SpringValue.node).
    framed (_focus_inert F SpringValue.heap). apply Hwf.
  - apply _set_threw in Hset. destruct Hset as [He Hf]. split; [exact He |].
    rewrite <- Hf. symmetry. framed (_focus_inert F SpringValue.frozen).
    reflexivity.
Qed.

(** X9: [finish] on an animating spring without decay whose goal is a
    number x (not NaN) leaves [get] equal to x, and every onRest handler
    that was queued behind the first for this goal is given a finished
    result with finished = true. [finish] does not return only on a frozen
    spring, where the node it needs cannot be set (a TypeError). *)
Theorem finish_reaches_a_numeric_goal x s :
  isAnimating s = true ->
  decay_truthy
    (AnimationConfig.decay (Animation.config (SpringValue.animation s)))
  = false ->
  Animation.to (SpringValue.animation s) = Some (TVal (VNum x)) ->
  (x =? x)%float = true ->
  (forall id, SpringValue.node s = Some (ASingle id) ->
              id < length (SpringValue.heap s)) ->
  returns_or (SpringValue.frozen s = true) (finish G F s)
    (fun s' =>
       exists y,
         get G s' = Some (VNum y)
         /\ (y =? x)%float = true
         /\ (forall callee,
                In (RestCheck callee (Some (TVal (VNum x))))
                  (tl (Animation.onRest (SpringValue.animation s))) ->
                In (report callee (Finished (Some (VNum y)) true))
                  (SpringValue.log s'))).
Proof.
  intros Hact Hdecay Hto Hx Hwf.
  destruct (finish G F s) as [[] s' | e s'] eqn:Hfin; cbn [returns_or];
    [| apply finish_threw in Hfin; exact Hfin].
  revert Hfin. unfold finish. rewrite Hact, Hdecay, Hto.
  intros H. apply andThen_returned in H. destruct H as (s1 & Hs1 & H).
  injection H as <-.
  assert (Hy : exists y, get G s1 = Some (VNum y) /\ (y =? x)%float = true).
  { apply (_set_number x true (_onStart s) s1 Hx); [| exact Hs1].
    intros id. framed (_onStart_inert SpringValue.node).
    framed (_onStart_inert SpringValue.heap). apply Hwf. }
  destruct Hy as (y & Hget & Hyx).
  assert (Hact1 : isAnimating s1 = true).
  { carried isAnimating (_set_inert G F isAnimating) Hs1. rewrite Hc.
    framed (_onStart_inert isAnimating). exact Hact. }
  assert (Hq1 : Animation.onRest (SpringValue.animation s1)
                = Animation.onRest (SpringValue.animation s)).
  { carried SpringValue.animation (_set_inert G F SpringValue.animation) Hs1.
    rewrite Hc.
    unfold _onStart. destruct (Animation.changed _); [reflexivity |].
    framed (callProp_inert SpringValue.animation). reflexivity. }
  exists y. split; [rewrite _stop_get; exact Hget |].
  split; [exact Hyx |].
  intros callee Hin. rewrite (_stop_finished_log s1 Hact1), Hget, Hq1.
  apply in_or_app. right. apply in_or_app. right.
  apply in_flat_map. exists (RestCheck callee (Some (TVal (VNum x)))).
  split.
  - destruct (Animation.onRest (SpringValue.animation s)) as [| first rest];
      [destruct Hin |].
    cbn [tl] in Hin. destruct (Animation.changed _); now right.
  - cbn. rewrite Hyx. now left.
Qed.

End ControlProperties.

(** ** [pause], [resume] and the parent's events *)

Section PauseProperties.

Context (G : Globals) (F : FluidGraph).

(** X10: The pause action of an update sets the paused bit, which makes
    the spring idle, and changes neither whether the spring is animating
    nor its value. onPause is called only when the spring was not paused
    already, and pausing a paused spring changes nothing. *)
Theorem pause_is_idempotent s :
  let s' := pause_action s in
  isPaused s' = true
  /\ idle s' = true
  /\ pause_action s' = s'
  /\ isAnimating s' = isAnimating s
  /\ get G s' = get G s
  /\ SpringValue.log s'
     = SpringValue.log s
       ++ (if isPaused s then []
           else called (Animation.onPause (SpringValue.animation s))
                  CallOnPause).
Proof.
  intros s'. unfold s', pause_action.
  destruct (isPaused s) eqn:Hp.
  - rewrite Hp. unfold idle. rewrite Hp, orb_true_r, app_nil_r.
    repeat split; reflexivity.
  - set (s1 := SpringValue.set_state _ (setPausedBit true s)).
    assert (Hp1 : isPaused (callProp (Animation.onPause (SpringValue.animation s1))
                              CallOnPause s1) = true)
      by (framed (callProp_inert isPaused); reflexivity).
    rewrite Hp1. unfold idle. rewrite Hp1, orb_true_r.
    repeat split.
    + framed (callProp_inert isAnimating). reflexivity.
    + framed (callProp_inert (get G)). reflexivity.
    + unfold s1. cbn [SpringValue.animation SpringValue.set_state setPausedBit
                      SpringValue.set_phase].
      destruct (Animation.onPause _); cbn; [reflexivity |].
      now rewrite app_nil_r.
Qed.

(** X11: With skipAnimation off, pausing a spring that is not paused and
    then resuming it returns and restores the phase, the animation, the
    node and the channels. The log gains the onPause call, a start of the
    frame loop if the spring is animating, and the onResume call, in that
    order. *)
Theorem resume_undoes_pause s :
  isPaused s = false ->
  skipAnimation G = false ->
  exists s',
    resume_action G F (pause_action s) = Returned tt s'
    /\ SpringValue.phase s' = SpringValue.phase s
    /\ SpringValue.animation s' = SpringValue.animation s
    /\ SpringValue.heap s' = SpringValue.heap s
    /\ SpringValue.node s' = SpringValue.node s
    /\ SpringValue.log s'
       = SpringValue.log s
         ++ called (Animation.onPause (SpringValue.animation s)) CallOnPause
         ++ (if isAnimating s then [FrameLoopStart] else [])
         ++ called (Animation.onResume (SpringValue.animation s)) CallOnResume.
Proof.
  intros Hp Hskip. unfold pause_action, resume_action, _resume.
  rewrite Hp, Hskip.
  destruct s as [k a n h [ha act pa] st d c t ch pr fr l].
  cbn in Hp. subst pa.
  destruct act, (Animation.onPause a) eqn:Hpause,
    (Animation.onResume a) eqn:Hresume;
    cbn; rewrite ?Hpause, ?Hresume; cbn; rewrite ?Hresume; cbn;
    (eexists; split; [reflexivity |]); cbn;
    rewrite <- ?app_assoc; cbn; rewrite ?app_nil_r;
    repeat split; reflexivity.
Qed.

(** [_start] on a spring with a node that is not animating enters the frame
    loop and arms [onStart]. *)
Lemma _start_idle s :
  SpringValue.node s <> None ->
  isAnimating s = false ->
  isPaused s = false ->
  skipAnimation G = false ->
  exists s',
    _start G F s = Returned tt s'
    /\ isAnimating s' = true
    /\ hasAnimated s' = true
    /\ SpringValue.log s' = SpringValue.log s ++ [FrameLoopStart]
    /\ Animation.changed (SpringValue.animation s') = false.
Proof.
  intros Hn Hact Hp Hskip. unfold _start.
  assert (H1 : exists s1,
             animated_reset G
               (getFluidValue F (Animation.to (SpringValue.animation s))) s
             = Returned tt s1
             /\ SpringValue.phase s1 = SpringValue.phase s
             /\ SpringValue.log s1 = SpringValue.log s).
  { unfold animated_reset.
    destruct (SpringValue.node s) as [[id | ids] |]; [| | contradiction];
      (eexists; split; [reflexivity |]); split; reflexivity. }
  destruct H1 as (s1 & -> & Hp1 & Hl1). cbn [andThen].
  set (s2 := if Animation.immediate _ then s1 else _).
  assert (H2 : SpringValue.phase s2 = SpringValue.phase s
               /\ SpringValue.log s2 = SpringValue.log s).
  { unfold s2. destruct (Animation.immediate _); cbn; rewrite ?Hp1, ?Hl1;
      split; reflexivity. }
  clearbody s2. destruct H2 as (Hp2 & Hl2).
  assert (Ha2 : isAnimating s2 = false)
    by (unfold isAnimating in *; rewrite Hp2; exact Hact).
  rewrite Ha2.
  assert (Hpa : isPaused
                  (SpringValue.set_animation
                     (Animation.set_changed false
                        (SpringValue.animation (setActiveBit true s2)))
                     (setActiveBit true s2)) = false)
    by (unfold isPaused in *; cbn; rewrite Hp2; exact Hp).
  rewrite Hpa. unfold _resume. rewrite Hskip.
  eexists. split; [reflexivity |]. unfold emit. cbn.
  rewrite Hl2. repeat split; reflexivity.
Qed.

Lemma _start_to s :
  skipAnimation G = false ->
  Animation.to (SpringValue.animation (outcome_state (_start G F s)))
  = Animation.to (SpringValue.animation s).
Proof.
  intros Hskip. unfold _start.
  destruct (animated_reset G _ s) as [[] s1 | e s1] eqn:Hr;
    carried SpringValue.animation (animated_reset_inert G SpringValue.animation)
      Hr;
    cbn [andThen outcome_state]; [| rewrite Hc; reflexivity].
  set (s2 := if Animation.immediate _ then s1 else _).
  assert (H2 : Animation.to (SpringValue.animation s2)
               = Animation.to (SpringValue.animation s)).
  { unfold s2. destruct (Animation.immediate _); cbn; rewrite Hc; reflexivity. }
  clearbody s2.
  destruct (isAnimating s2); [exact H2 |].
  destruct (isPaused _); [exact H2 |].
  unfold _resume. rewrite Hskip. exact H2.
Qed.

(** X12: A change event of the parent restarts the animation of a spring
    that has a node: with skipAnimation off and the spring not paused,
    onParentChange returns and the spring is animating afterwards, with
    the same goal and the same _lastToId. If it was animating already,
    nothing is logged and the changed flag is kept; otherwise the frame
    loop is started, changed is cleared so that onStart is called again,
    and hasAnimated is set. On a spring without a node the event throws a
    TypeError and the spring is as before. *)
Theorem parent_change_restarts s :
  isPaused s = false ->
  skipAnimation G = false ->
  (SpringValue.node s = None ->
   onParentChange G F ParentChange s = Threw TypeError s)
  /\ (SpringValue.node s <> None ->
      exists s',
        onParentChange G F ParentChange s = Returned tt s'
        /\ isAnimating s' = true
        /\ (isAnimating s = true ->
            SpringValue.log s' = SpringValue.log s
            /\ Animation.changed (SpringValue.animation s')
               = Animation.changed (SpringValue.animation s))
        /\ (isAnimating s = false ->
            SpringValue.log s' = SpringValue.log s ++ [FrameLoopStart]
            /\ Animation.changed (SpringValue.animation s') = false
            /\ hasAnimated s' = true)
        /\ Animation.to (SpringValue.animation s')
           = Animation.to (SpringValue.animation s)
        /\ SpringValue._lastToId s' = SpringValue._lastToId s).
Proof.
  intros Hp Hskip. unfold onParentChange. split.
  { intros Hn. unfold _start, animated_reset. rewrite Hn. reflexivity. }
  intros Hn.
  assert (Hsame : forall s',
             _start G F s = Returned tt s' ->
             Animation.to (SpringValue.animation s')
             = Animation.to (SpringValue.animation s)
             /\ SpringValue._lastToId s' = SpringValue._lastToId s).
  { intros s' H. split.
    - pose proof (_start_to s Hskip) as Ht. rewrite H in Ht. exact Ht.
    - carried SpringValue._lastToId (_start_inert G F SpringValue._lastToId) H.
      exact Hc. }
  destruct (isAnimating s) eqn:Hact.
  - destruct (SpringValue.node s) as [nd |] eqn:Hnd; [| contradiction].
    destruct (_start_active G F s nd Hact Hnd)
      as (s' & Hs' & Hph & Hl & _ & _ & [fv Ha] & _).
    exists s'. split; [exact Hs' |].
    split; [unfold isAnimating in *; rewrite Hph; exact Hact |].
    split; [intros _; split; [exact Hl | rewrite Ha; reflexivity] |].
    split; [discriminate |]. apply Hsame. exact Hs'.
  - destruct (_start_idle s Hn Hact Hp Hskip) as (s' & Hs' & Ha & Hh & Hl & Hc).
    exists s'. split; [exact Hs' |].
    split; [exact Ha |]. split; [discriminate |].
    split; [intros _; repeat split; assumption |]. apply Hsame. exact Hs'.
Qed.

End PauseProperties.

(** ** Updates: errors, call ids and the queue *)

Section UpdateProperties.

Context (G : Globals) (F : FluidGraph).



Lemma _merge_lastToId range props s :
  SpringValue._lastToId (outcome_state (_merge G F range props s))
  = if negb (Props.cancel props)
       && (is_some (range_to range) || is_some (range_from range))
       && (SpringValue._lastToId s <? Props.callId props)%float
    then Props.callId props
    else SpringValue._lastToId s.
Proof.
  unfold _merge. destruct (Props.cancel props); cbn [negb andb].
  - cbn [outcome_state]. unfold resolve.
    framed (emit_inert SpringValue._lastToId).
    framed (stop_inert G F SpringValue._lastToId). reflexivity.
  - destruct (is_some _ || is_some _); cbn [andb];
      [destruct (_ <? _)%float; cbn [negb]; [| reflexivity] |];
      match goal with
      | |- context [merge_range G F range props ?s0] =>
          assert (H1 : SpringValue._lastToId
                         (snd (merge_range G F range props s0))
                       = SpringValue._lastToId s0)
            by (framed (merge_range_inert G F SpringValue._lastToId);
                reflexivity);
          destruct (merge_range G F range props s0) as [r s1]
      end;
      cbn [snd] in H1;
      framed (merge_props_inert G F SpringValue._lastToId); exact H1.
Qed.

(** X13: Every update that _update accepts gets the call id _lastCallId +
    1, a sum of binary64 numbers, and _lastCallId is that id afterwards.
    Its merge leaves _lastCallId alone; it makes _lastToId the call id
    when the update is not cancelled, gives a to or a from value and
    _lastToId < callId, and leaves _lastToId alone otherwise. When such an
    update finds _lastToId < callId false (as when the counter has stopped
    growing at 2^53), the merge changes nothing and resolves the update
    as cancelled. *)
Theorem update_draws_the_next_callId props s range props' s1 :
  _update G F props s = Returned (range, props') s1 ->
  let callId := (SpringValue._lastCallId s + 1)%float in
  let takes :=
    negb (Props.cancel props)
    && (is_some (range_to range) || is_some (range_from range)) in
  let s2 := outcome_state (_merge G F range props' s1) in
  Props.callId props' = callId
  /\ SpringValue._lastCallId s1 = callId
  /\ SpringValue._lastToId s1 = SpringValue._lastToId s
  /\ SpringValue._lastCallId s2 = callId
  /\ SpringValue._lastToId s2
     = (if takes && (SpringValue._lastToId s <? callId)%float
        then callId else SpringValue._lastToId s)
  /\ (takes = true ->
      (SpringValue._lastToId s <? callId)%float = false ->
      _merge G F range props' s1
      = Returned tt
          (SpringValue.set_log
             (SpringValue.log s1 ++ [Resolve callId (Cancelled (get G s1))])
             s1)).
Proof.
  intros Hu callId takes s2. subst s2. unfold _update in Hu.
  set (s0 := callProp _ CallOnProps s) in Hu.
  destruct (_prepareNode G F props s0) as [range0 s3 | e s3] eqn:Hprep;
    [| discriminate].
  assert (Hc : SpringValue._lastCallId s3 = SpringValue._lastCallId s).
  { carried SpringValue._lastCallId
      (_prepareNode_inert G F SpringValue._lastCallId) Hprep.
    rewrite Hc. unfold s0.
    framed (callProp_inert SpringValue._lastCallId). reflexivity. }
  assert (Ht : SpringValue._lastToId s3 = SpringValue._lastToId s).
  { carried SpringValue._lastToId
      (_prepareNode_inert G F SpringValue._lastToId) Hprep.
    rewrite Hc0. unfold s0.
    framed (callProp_inert SpringValue._lastToId). reflexivity. }
  destruct (SpringValue.frozen s3); [discriminate |].
  injection Hu as <- <- <-. rewrite Hc. fold callId.
  assert (Hcancel : Props.cancel (Props.set_callId callId props)
                    = Props.cancel props) by reflexivity.
  assert (Hid : Props.callId (Props.set_callId callId props) = callId)
    by reflexivity.
  split; [reflexivity |]. split; [reflexivity |]. split; [exact Ht |].
  split.
  { framed (_merge_inert G F SpringValue._lastCallId). reflexivity. }
  split.
  { rewrite _merge_lastToId, Hcancel, Hid.
    cbn [SpringValue._lastToId SpringValue.set_lastCallId]. rewrite Ht.
    reflexivity. }
  intros Htakes Hstale. unfold takes in Htakes.
  apply andb_true_iff in Htakes. destruct Htakes as [Hno Hrange].
  apply negb_true_iff in Hno.
  unfold _merge. rewrite Hcancel, Hno, Hid, Hrange.
  cbn [SpringValue._lastToId SpringValue.set_lastCallId]. rewrite Ht, Hstale.
  reflexivity.
Qed.

(** [merge_dispatch] on a spring that has a node throws only the
    [TypeError] of a frozen spring. *)
Lemma merge_dispatch_threw props r reset started value s e s' :
  SpringValue.node s <> None ->
  merge_dispatch G F props r reset started value s = Threw e s' ->
  e = TypeError /\ SpringValue.frozen s = true.
Proof.
  intros Hn H. unfold merge_dispatch in H. apply andThen_threw in H.
  destruct H as [H | (s1 & Hs1 & H)].
  - destruct reset; [apply _set_threw in H; exact H | discriminate].
  - assert (H1 : SpringValue.node s1 <> None
                 /\ SpringValue.frozen s1 = SpringValue.frozen s).
    { destruct reset; [| injection Hs1 as <-; split; [exact Hn | reflexivity]].
      split.
      - pose proof (_set_node G F (option_map TVal value) false s Hn) as H1.
        rewrite Hs1 in H1. exact H1.
      - carried SpringValue.frozen (_set_inert G F SpringValue.frozen) Hs1.
        exact Hc. }
    destruct H1 as [Hn1 Hf1].
    destruct (isAsyncTo _); [discriminate |].
    destruct started; [| destruct (isAnimating s1 && _); discriminate].
    apply _start_threw in H. destruct H as [He [H | [H _]]].
    + destruct reset; contradiction.
    + split; [exact He |]. rewrite <- Hf1, <- H. destruct reset; reflexivity.
Qed.

(** What [merge_props] throws: the [TypeError] of a frozen spring, or the
    error of an update whose goal has another type than the node. *)
Lemma merge_props_threw range props r s e s' :
  merge_props G F range props r s = Threw e s' ->
  e = TypeError /\ SpringValue.frozen s = true
  \/ exists nd to,
       SpringValue.node s = Some nd
       /\ m_to r = Some to
       /\ m_hasToChanged r = true
       /\ AnimatedType_eqb (getAnimatedType G F to) (animated_ctor s nd)
          = false
       /\ merge_immediate G props (computeGoalT G F (Some to)) s = false
       /\ e = TypeMismatchError (animated_ctor s nd) (getAnimatedType G F to)
       /\ s' = s.
Proof.
  unfold merge_props.
  destruct (SpringValue.node s) as [nd |] eqn:Hnd; [| discriminate].
  destruct (m_to r) as [to |] eqn:Hto; [| discriminate].
  set (mismatch := m_hasToChanged r && negb (AnimatedType_eqb _ _)).
  destruct (mismatch && negb _) eqn:Hthrow.
  - intros [= <- <-]. right. exists nd, to.
    apply andb_true_iff in Hthrow. destruct Hthrow as [Hm Hi].
    apply andb_true_iff in Hm. destruct Hm as [Hchg Hty].
    apply negb_true_iff in Hi, Hty. repeat split; assumption.
  - intros H. left. apply andThen_threw in H.
    destruct H as [H | (s1 & Hs1 & H)].
    { destruct mismatch; [apply _set_threw in H; exact H | discriminate]. }
    assert (Hn : SpringValue.node s <> None) by (rewrite Hnd; discriminate).
    assert (H1 : SpringValue.node s1 <> None
                 /\ SpringValue.frozen s1 = SpringValue.frozen s).
    { destruct mismatch;
        [| injection Hs1 as <-; split; [exact Hn | reflexivity]].
      split.
      - match type of Hs1 with
        | _set G F ?arg false s = _ =>
            pose proof (_set_node G F arg false s Hn) as H1
        end.
        rewrite Hs1 in H1. exact H1.
      - carried SpringValue.frozen (_set_inert G F SpringValue.frozen) Hs1.
        exact Hc. }
    destruct H1 as [Hn1 Hf1]. revert H.
    match goal with
    | |- context [merge_settle G F ?a ?b ?c s1] =>
        pose proof (merge_settle_inert G F SpringValue.node
                      ltac:(intros; reflexivity) ltac:(intros; reflexivity)
                      ltac:(intros; reflexivity) ltac:(intros; reflexivity)
                      a b c s1) as Hn2;
        pose proof (merge_settle_inert G F SpringValue.frozen
                      ltac:(intros; reflexivity) ltac:(intros; reflexivity)
                      ltac:(intros; reflexivity) ltac:(intros; reflexivity)
                      a b c s1) as Hf2;
        destruct (merge_settle G F a b c s1) as [started s2]
    end.
    cbn [snd] in Hn2, Hf2. intros H. apply andThen_threw in H.
    destruct H as [H | (s3 & Hs3 & H)].
    { destruct (isAsyncTo _); [discriminate |].
      apply merge_store_threw in H. destruct H as [He Hf].
      split; [exact He | congruence]. }
    assert (H3 : SpringValue.node s3 <> None
                 /\ SpringValue.frozen s3 = SpringValue.frozen s2).
    { destruct (isAsyncTo _);
        [injection Hs3 as <-; split; [congruence | reflexivity] |].
      split.
      - match type of Hs3 with
        | merge_store G F ?p ?r ?a ?b ?c ?d s2 = _ =>
            pose proof (merge_store_node G F p r a b c d s2) as H3
        end.
        rewrite Hs3 in H3. apply H3. congruence.
      - carried SpringValue.frozen
          (merge_store_inert G F SpringValue.frozen) Hs3.
        exact Hc. }
    destruct H3 as [Hn3 Hf3].
    apply merge_dispatch_threw in H; [| exact Hn3].
    destruct H as [He Hf]. split; [exact He | congruence].
Qed.

(** X14: What an update throws, and when. _update throws exactly when the
    spring is frozen: the frozen error, or a TypeError when the spring
    has not animated yet and the node it needs cannot be set. _merge
    throws either a TypeError, on a frozen spring only, or the
    type-mismatch error, for an update that is not cancelled, whose goal
    differs from the goal before, whose animated type differs from the
    type of the node of the spring, and that is not immediate. So an
    update submitted to a spring that is not frozen throws nothing but
    the type-mismatch error. *)
Theorem update_errors_and_their_causes :
  (forall props s,
      SpringValue.frozen s = true ->
      exists e s',
        _update G F props s = Threw e s'
        /\ (e = FrozenError \/ e = TypeError /\ hasAnimated s = false))
  /\ (forall props s e s',
         _update G F props s = Threw e s' ->
         SpringValue.frozen s = true
         /\ (e = FrozenError \/ e = TypeError /\ hasAnimated s = false))
  /\ (forall range props s e s',
         _merge G F range props s = Threw e s' ->
         e = TypeError /\ SpringValue.frozen s = true
         \/ Props.cancel props = false
            /\ exists nd to,
                 SpringValue.node s' = Some nd
                 /\ Animation.to (SpringValue.animation s') = Some to
                 /\ isEqual (Some to) (Animation.to (SpringValue.animation s))
                    = false
                 /\ AnimatedType_eqb (getAnimatedType G F to)
                      (animated_ctor s' nd) = false
                 /\ merge_immediate G props (computeGoalT G F (Some to)) s'
                    = false
                 /\ e = TypeMismatchError (animated_ctor s' nd)
                          (getAnimatedType G F to))
  /\ (forall props s e s',
         SpringValue.frozen s = false ->
         submit G F props s = Threw e s' ->
         exists nodeType goalType, e = TypeMismatchError nodeType goalType).
Proof.
  assert (Hupdate : forall props s e s',
             _update G F props s = Threw e s' ->
             SpringValue.frozen s = true
             /\ (e = FrozenError \/ e = TypeError /\ hasAnimated s = false)).
  { intros props s e s' H. split; [apply _update_threw in H; apply H |].
    unfold _update in H.
    set (s0 := callProp _ CallOnProps s) in H.
    destruct (_prepareNode G F props s0) as [range s1 | e1 s1] eqn:Hprep.
    - destruct (SpringValue.frozen s1); [| discriminate].
      injection H as <- _. left. reflexivity.
    - injection H as <- _. right.
      pose proof Hprep as Hthrew. apply _prepareNode_threw in Hthrew.
      split; [apply Hthrew |].
      unfold _prepareNode in Hprep.
      assert (Hh : hasAnimated s0 = hasAnimated s)
        by (unfold s0; framed (callProp_inert hasAnimated); reflexivity).
      rewrite <- Hh. destruct (hasAnimated s0); [discriminate | reflexivity]. }
  assert (Hmerge : forall range props s e s',
             _merge G F range props s = Threw e s' ->
             e = TypeError /\ SpringValue.frozen s = true
             \/ Props.cancel props = false
                /\ exists nd to,
                     SpringValue.node s' = Some nd
                     /\ Animation.to (SpringValue.animation s') = Some to
                     /\ isEqual (Some to)
                          (Animation.to (SpringValue.animation s)) = false
                     /\ AnimatedType_eqb (getAnimatedType G F to)
                          (animated_ctor s' nd) = false
                     /\ merge_immediate G props
                          (computeGoalT G F (Some to)) s' = false
                     /\ e = TypeMismatchError (animated_ctor s' nd)
                              (getAnimatedType G F to)).
  { intros range props s e s' H. unfold _merge in H.
    destruct (Props.cancel props); [discriminate |].
    destruct (_ && negb _); [discriminate |].
    match type of H with
    | context [merge_range G F range props ?s0] =>
        pose proof (merge_range_spec G F range props s0) as Hspec;
        assert (Hprev : Animation.to (SpringValue.animation s0)
                        = Animation.to (SpringValue.animation s))
          by (destruct (is_some _ || is_some _); reflexivity);
        assert (Hfz : SpringValue.frozen (snd (merge_range G F range props s0))
                      = SpringValue.frozen s)
          by (framed (merge_range_inert G F SpringValue.frozen);
              destruct (is_some _ || is_some _); reflexivity);
        destruct (merge_range G F range props s0) as [r s1]
    end.
    cbv zeta in Hspec. cbn [fst snd] in Hspec, Hfz.
    destruct Hspec as (Hr & _ & _ & Hto & _).
    apply merge_props_threw in H.
    destruct H as [[He Hf] | (nd & to & Hnd & Hmto & Hchg & Hty & Himm & He & ->)].
    - left. split; [exact He | congruence].
    - right. split; [reflexivity |].
      rewrite Hr in Hmto, Hchg. cbn [m_to m_hasToChanged] in Hmto, Hchg.
      apply negb_true_iff in Hchg. rewrite Hchg, Hmto in Hto.
      exists nd, to. rewrite Hmto, Hprev in Hchg.
      repeat split; assumption. }
  split.
  { intros props s Hf.
    destruct (_update G F props s) as [[range props'] s' | e s'] eqn:H.
    - exfalso. revert H. unfold _update.
      set (s0 := callProp _ CallOnProps s).
      destruct (_prepareNode G F props s0) as [range0 s1 | e1 s1] eqn:Hprep;
        [| discriminate].
      carried SpringValue.frozen (_prepareNode_inert G F SpringValue.frozen)
        Hprep.
      assert (H1 : SpringValue.frozen s1 = true).
      { rewrite Hc. unfold s0.
        framed (callProp_inert SpringValue.frozen). exact Hf. }
      rewrite H1. discriminate.
    - exists e, s'. split; [reflexivity |]. apply (Hupdate _ _ _ _ H). }
  split; [exact Hupdate |]. split; [exact Hmerge |].
  intros props s e s' Hf H. unfold submit in H.
  destruct (_update G F props s) as [[range props'] s1 | e1 s1] eqn:Hu.
  - carried SpringValue.frozen (_update_inert G F SpringValue.frozen) Hu.
    apply Hmerge in H.
    destruct H as [[_ H] | (_ & nd & to & _ & _ & _ & _ & _ & He)].
    + congruence.
    + eexists _, _. exact He.
  - apply _update_threw in Hu. destruct Hu as [_ Hu]. congruence.
Qed.



End UpdateProperties.

(** ** The queue, the constructor and [createUpdate] *)

Section QueueProperties.

Context (G : Globals) (F : FluidGraph).

Ltac crunch t := let v := eval vm_compute in t in change t with v.

(** X17: new SpringValue(x) for a number x that is not NaN gives a spring
    at rest on x: [get] and goal are x, from is x, velocity is 0, the
    spring is idle, not animating and has never animated, and its one
    update resolved as a no-op with the value x. *)
Theorem constructor_rests_on_its_value x :
  (x =? x)%float = true ->
  exists s,
    construct G F (Some (ArgValue (TVal (VNum x)))) None = Returned tt s
    /\ get G s = Some (VNum x)
    /\ get_goal F s = Some (VNum x)
    /\ Animation.from (SpringValue.animation s) = Some (TVal (VNum x))
    /\ get_velocity s = Some (VelNum 0)
    /\ isAnimating s = false
    /\ hasAnimated s = false
    /\ idle s = true
    /\ SpringValue.log s = [Resolve 1 (Noop (Some (VNum x)))].
Proof.
  intros Hx.
  unfold construct, start, submit_each, submit.
  cbn [fst spring].
  set (props := props_as_default _).
  crunch (_update G F props Sample.spring0).
  cbv iota beta.
  unfold _merge.
  cbn [Props.cancel range_to range_from is_some orb andb
       SpringValue._lastToId negb Props.callId].
  change ((0 <? 1)%float) with true. cbn [negb].
  match goal with
  | |- context [merge_range G F ?r ?p ?s0] => crunch (merge_range G F r p s0)
  end.
  cbv iota beta.
  unfold merge_props. cbn [SpringValue.node m_to].
  match goal with
  | |- context [merge_reset ?r ?p ?m ?s0] => crunch (merge_reset r p m s0)
  end.
  match goal with
  | |- context [computeGoalT G F ?t] => crunch (computeGoalT G F t)
  end.
  match goal with
  | |- context [merge_value G ?a ?b ?c] => crunch (merge_value G a b c)
  end.
  match goal with
  | |- context [merge_immediate G ?a ?b ?c] => crunch (merge_immediate G a b c)
  end.
  cbn [m_hasToChanged andb negb getAnimatedType animated_ctor AnimatedType_eqb
       cell nth SpringValue.heap AnimatedValue.ctor andThen].
  match goal with
  | |- context [merge_finished G ?a ?b ?c ?d ?e] =>
      crunch (merge_finished G a b c d e)
  end.
  match goal with
  | |- context [merge_started G ?a ?b ?c ?d ?e] =>
      crunch (merge_started G a b c d e)
  end.
  rewrite Hx.
  match goal with
  | |- context [merge_settle G F ?a ?b ?c ?d] =>
      crunch (merge_settle G F a b c d)
  end.
  cbv iota beta.
  cbn [isAsyncTo Props.to].
  match goal with
  | |- context [merge_store G F ?a ?b ?c ?d ?e ?f ?g] =>
      crunch (merge_store G F a b c d e f g)
  end.
  cbn [andThen].
  match goal with
  | |- context [merge_dispatch G F ?a ?b ?c ?d ?e ?f] =>
      crunch (merge_dispatch G F a b c d e f)
  end.
  eexists. split; [reflexivity |].
  repeat split; vm_compute; reflexivity.
Qed.

End QueueProperties.

Section CreateUpdateProperties.

Lemma Set_add_In key keys k :
  In k (Set_add key keys) <-> In k keys \/ k = key.
Proof.
  unfold Set_add. destruct (existsb (String.eqb key) keys) eqn:He.
  - split; [now left |]. intros [H | ->]; [exact H |].
    apply existsb_exists in He. destruct He as (k' & Hin & Heq).
    apply String.eqb_eq in Heq. subst. exact Hin.
  - rewrite in_app_iff. cbn. intuition congruence.
Qed.

Lemma Set_add_NoDup key keys : NoDup keys -> NoDup (Set_add key keys).
Proof.
  intros H. unfold Set_add.
  destruct (existsb (String.eqb key) keys) eqn:He; [exact H |].
  apply NoDup_app; [exact H | repeat constructor; intros [] |].
  intros k Hin [Hk | []]. subst k.
  assert (Hex : existsb (String.eqb key) keys = true)
    by (apply existsb_exists; exists key; split;
        [exact Hin | apply String.eqb_refl]).
  congruence.
Qed.

Lemma findDefined_In values :
  forall keys k,
    In k (findDefined values keys)
    <-> In k keys \/ exists v, In (k, Some v) values.
Proof.
  unfold findDefined.
  induction values as [| [key [v |]] values IH]; intros keys k;
    cbn [fold_left fst snd].
  - split; [now left | intros [H | [v []]]; exact H].
  - rewrite IH, Set_add_In. split.
    + intros [[H | ->] | [w H]];
        [now left | right; exists v; now left | right; exists w; now right].
    + intros [H | [w [H | H]]];
        [left; now left | left; right; congruence | right; now exists w].
  - rewrite IH. split.
    + intros [H | [w H]]; [now left | right; exists w; now right].
    + intros [H | [w [H | H]]];
        [now left | discriminate | right; now exists w].
Qed.

Lemma findDefined_NoDup values :
  forall keys, NoDup keys -> NoDup (findDefined values keys).
Proof.
  unfold findDefined.
  induction values as [| [key [v |]] values IH]; intros keys H;
    cbn [fold_left fst snd]; [exact H | | apply IH; exact H].
  apply IH, Set_add_NoDup, H.
Qed.

(** X18: The keys prop that createUpdate computes holds exactly the keys
    that have a value other than null or undefined in the to object or in
    the from object, each of them once; it is null exactly when there is
    no such key. *)
Theorem createUpdate_keys_are_the_defined_keys to from :
  let keys :=
    match createUpdate_keys to from with Some ks => ks | None => [] end in
  (forall k, In k keys <-> defines to k \/ defines from k)
  /\ NoDup keys
  /\ (createUpdate_keys to from = None <->
      forall k, ~ (defines to k \/ defines from k)).
Proof.
  intros keys.
  set (all :=
         match from with
         | LookupObject f =>
             findDefined f
               (match to with LookupObject g => findDefined g [] | _ => [] end)
         | _ => match to with LookupObject g => findDefined g [] | _ => [] end
         end).
  assert (Hkeys : keys = all /\ (createUpdate_keys to from = None <-> all = [])).
  { unfold keys, createUpdate_keys. fold all.
    destruct all; split; try reflexivity; split; congruence. }
  destruct Hkeys as [-> Hnone].
  assert (Hin : forall k, In k all <-> defines to k \/ defines from k).
  { intros k. unfold all, defines.
    destruct from as [| t | f], to as [| t' | g];
      rewrite ?findDefined_In; cbn [In]; tauto. }
  split; [exact Hin |]. split.
  - unfold all. destruct from, to;
      repeat apply findDefined_NoDup; constructor.
  - rewrite Hnone. split.
    + intros Hall k Hk. apply Hin in Hk. rewrite Hall in Hk. exact Hk.
    + intros Hno. destruct all as [| k rest]; [reflexivity |].
      exfalso. apply (Hno k), Hin. now left.
Qed.

End CreateUpdateProperties.

(** ** Starting an animation *)

Section StartProperties.

Context (G : Globals) (F : FluidGraph).

(** [_start] on a spring that has a node, up to the test of [isAnimating]:
    the nodes are reset and the positions are read; the phase, the log and
    the flags of the animation are as before. *)
Lemma _start_prepare s :
  SpringValue.node s <> None ->
  exists s2,
    _start G F s
    = (if isAnimating s2 then Returned tt s2
       else
         let s3 :=
           SpringValue.set_animation
             (Animation.set_changed false
                (SpringValue.animation (setActiveBit true s2)))
             (setActiveBit true s2) in
         if isPaused s3 then Returned tt s3 else _resume G F s3)
    /\ SpringValue.phase s2 = SpringValue.phase s
    /\ SpringValue.log s2 = SpringValue.log s
    /\ Animation.values (SpringValue.animation s2)
       = Animation.values (SpringValue.animation s)
    /\ SpringValue.frozen s2 = SpringValue.frozen s.
Proof.
  intros Hn. unfold _start.
  assert (H1 : exists s1,
             animated_reset G
               (getFluidValue F (Animation.to (SpringValue.animation s))) s
             = Returned tt s1
             /\ SpringValue.phase s1 = SpringValue.phase s
             /\ SpringValue.log s1 = SpringValue.log s
             /\ SpringValue.animation s1 = SpringValue.animation s
             /\ SpringValue.frozen s1 = SpringValue.frozen s).
  { unfold animated_reset.
    destruct (SpringValue.node s) as [[id | ids] |]; [| | contradiction];
      (eexists; split; [reflexivity |]); repeat split; reflexivity. }
  destruct H1 as (s1 & -> & Hp & Hl & Ha & Hf). cbn [andThen].
  eexists. split; [reflexivity |].
  destruct (Animation.immediate _); cbn; rewrite ?Hp, ?Hl, ?Ha, ?Hf;
    repeat split; reflexivity.
Qed.

(** [_start] on a spring without a node. *)
Lemma _start_without_node s :
  SpringValue.node s = None -> _start G F s = Threw TypeError s.
Proof. intros Hn. unfold _start, animated_reset. rewrite Hn. reflexivity. Qed.

(** X19: _start on a paused spring with a node that is not animating
    (skipAnimation off) returns: it sets the active bit and clears
    changed, but does not enter the frame loop and logs nothing, so the
    spring stays idle. The resume action then starts the frame loop and
    calls onResume, and the spring is no longer idle. On a spring without
    a node _start throws a TypeError and the spring is as before. *)
Theorem start_while_paused_waits s :
  isAnimating s = false ->
  isPaused s = true ->
  skipAnimation G = false ->
  (SpringValue.node s = None -> _start G F s = Threw TypeError s)
  /\ (SpringValue.node s <> None ->
      exists s' s'',
        _start G F s = Returned tt s'
        /\ isAnimating s' = true
        /\ idle s' = true
        /\ SpringValue.log s' = SpringValue.log s
        /\ Animation.changed (SpringValue.animation s') = false
        /\ resume_action G F s' = Returned tt s''
        /\ SpringValue.log s''
           = SpringValue.log s ++ [FrameLoopStart]
             ++ called (Animation.onResume (SpringValue.animation s'))
                  CallOnResume
        /\ idle s'' = false).
Proof.
  intros Hact Hp Hskip. split; [apply _start_without_node |]. intros Hn.
  destruct (_start_prepare s Hn) as (s2 & Hs & Hp2 & Hl2 & _).
  assert (Ha2 : isAnimating s2 = false)
    by (unfold isAnimating in *; rewrite Hp2; exact Hact).
  assert (Hpa2 : isPaused s2 = true)
    by (unfold isPaused in *; rewrite Hp2; exact Hp).
  rewrite Ha2 in Hs. cbv zeta in Hs.
  change (isPaused
            (SpringValue.set_animation
               (Animation.set_changed false
                  (SpringValue.animation (setActiveBit true s2)))
               (setActiveBit true s2)))
    with (isPaused s2) in Hs.
  rewrite Hpa2 in Hs. rewrite Hs.
  eexists. eexists. split; [reflexivity |].
  split; [reflexivity |].
  split; [unfold idle; cbn; unfold isPaused in Hpa2; rewrite Hpa2;
          reflexivity |].
  split; [exact Hl2 |]. split; [reflexivity |].
  unfold resume_action.
  change (isPaused
            (SpringValue.set_animation
               (Animation.set_changed false
                  (SpringValue.animation (setActiveBit true s2)))
               (setActiveBit true s2)))
    with (isPaused s2).
  rewrite Hpa2. unfold _resume. rewrite Hskip.
  cbn [setPausedBit setActiveBit isAnimating SpringValue.phase
       SpringValue.set_phase SpringValue.set_animation phase_isAnimating
       andThen].
  split; [reflexivity |].
  split.
  - destruct (Animation.onResume _); cbn; rewrite Hl2, <- ?app_assoc;
      reflexivity.
  - unfold idle.
    framed (callProp_inert isAnimating). framed (callProp_inert isPaused).
    reflexivity.
Qed.

(** X20: With the skipAnimation global set, _start on a spring with a node
    that is neither animating nor paused finishes the animation at once:
    afterwards the spring is not animating, hasAnimated and changed are
    set, every channel is done, and the onStart prop of the animation, if
    any, was called exactly once. _start does not return only on a frozen
    spring, where the node that finish needs cannot be set (a TypeError).
    On a spring without a node _start throws a TypeError and the spring
    is as before. *)
Theorem skipAnimation_finishes_at_once s :
  skipAnimation G = true ->
  isAnimating s = false ->
  isPaused s = false ->
  (SpringValue.node s = None -> _start G F s = Threw TypeError s)
  /\ (SpringValue.node s <> None ->
      returns_or (SpringValue.frozen s = true) (_start G F s)
        (fun s' =>
           isAnimating s' = false
           /\ hasAnimated s' = true
           /\ all_done s' = true
           /\ Animation.changed (SpringValue.animation s') = true
           /\ onStart_calls (SpringValue.log s')
              = onStart_calls (SpringValue.log s)
                ++ called (Animation.onStart (SpringValue.animation s'))
                     CallOnStart)).
Proof.
  intros Hskip Hact Hp. split; [apply _start_without_node |]. intros Hn.
  destruct (_start_prepare s Hn) as (s2 & Hs & Hp2 & Hl2 & _ & Hf2).
  assert (Ha2 : isAnimating s2 = false)
    by (unfold isAnimating in *; rewrite Hp2; exact Hact).
  assert (Hpa2 : isPaused s2 = false)
    by (unfold isPaused in *; rewrite Hp2; exact Hp).
  rewrite Ha2 in Hs. cbv zeta in Hs.
  set (s3 := SpringValue.set_animation _ (setActiveBit true s2)) in Hs.
  change (isPaused s3) with (isPaused s2) in Hs.
  rewrite Hpa2 in Hs. unfold _resume in Hs. rewrite Hskip in Hs.
  assert (Hact3 : isAnimating s3 = true) by reflexivity.
  rewrite Hs.
  destruct (finish G F s3) as [[] s' | e s'] eqn:Hfin; cbn [returns_or].
  2:{ apply finish_threw in Hfin. destruct Hfin as [He Hf].
      split; [exact He |]. rewrite <- Hf2. exact Hf. }
  destruct (finish_unfold G F s3 s' Hact3 Hfin) as (s4 & Hf & Hact4 & Hch4 & Ha4).
  split; [rewrite Hf; apply _stop_isAnimating |].
  split.
  { pose proof (proj1 (finish_flags G F s3)) as Hh. rewrite Hfin in Hh.
    exact Hh. }
  split; [rewrite Hf; apply _stop_all_done; exact Hact4 |].
  assert (Hanim : exists q,
             SpringValue.animation s'
             = Animation.set_onRest q
                 (Animation.set_changed true (SpringValue.animation s3))).
  { rewrite Hf. destruct (_stop_animation G F false s4) as [q ->].
    exists q. rewrite Ha4. reflexivity. }
  destruct Hanim as [q Hanim]. rewrite Hanim.
  split; [reflexivity |].
  cbn [Animation.onStart Animation.set_onRest Animation.set_changed].
  assert (Hstart : onStart_calls (SpringValue.log (_onStart s3))
                   = onStart_calls (SpringValue.log s)
                     ++ called (Animation.onStart (SpringValue.animation s3))
                          CallOnStart).
  { rewrite _onStart_calls. unfold s3 at 2 3. cbn. rewrite Hl2. reflexivity. }
  rewrite <- Hstart. revert Hfin. unfold finish. rewrite Hact3.
  intros Hfin. apply andThen_returned in Hfin.
  destruct Hfin as (s5 & Hs5 & Hfin). injection Hfin as <-.
  rewrite _stop_calls.
  destruct (decay_truthy _); [injection Hs5 as <-; reflexivity |].
  pose proof (_set_calls G F (Animation.to (SpringValue.animation s3)) true
                (_onStart s3)) as Hcalls.
  rewrite Hs5 in Hcalls. exact Hcalls.
Qed.

(** [_set] of a value gives a spring that is not frozen a node. *)
Lemma _set_value_node v force s s' :
  _set G F (Some (TVal v)) force s = Returned tt s' ->
  SpringValue.node s = None ->
  SpringValue.node s' <> None.
Proof.
  unfold _set. cbn [getFluidValue]. intros H Hn. rewrite Hn in H.
  rewrite orb_true_r in H. apply create_node_returned in H.
  destruct H as [-> _]. apply remake_payload_node.
Qed.

(** X21: When an update with reset starts an animation (no async to,
    skipAnimation off), the spring is animating afterwards with
    hasAnimated set and the changed flag cleared, even if it was animating
    already, so that onStart is called again; unless the spring is paused,
    the last event is the start of the frame loop. This part of _merge
    does not return only when it throws a TypeError: on a frozen spring,
    or on a spring without a node that is given no value to start
    from. *)
Theorem reset_arms_onStart_again props r value s :
  isAsyncTo (Props.to props) = false ->
  skipAnimation G = false ->
  returns_or
    (SpringValue.frozen s = true
     \/ SpringValue.node s = None /\ value = None)
    (merge_dispatch G F props r true true value s)
    (fun s' =>
       isAnimating s' = true
       /\ hasAnimated s' = true
       /\ Animation.changed (SpringValue.animation s') = false
       /\ (isPaused s = false ->
           exists l, SpringValue.log s' = l ++ [FrameLoopStart])).
Proof.
  intros Hasync Hskip. unfold merge_dispatch. rewrite Hasync.
  destruct (_set G F (option_map TVal value) false s) as [[] s0 | e s0] eqn:Hset;
    cbn [andThen].
  2:{ apply _set_threw in Hset. destruct Hset as [He Hf].
      split; [exact He | left; exact Hf]. }
  set (s1 := setActiveBit false s0).
  assert (Hp1 : isPaused s1 = isPaused s).
  { carried isPaused (_set_inert G F isPaused) Hset. rewrite <- Hc.
    reflexivity. }
  destruct (SpringValue.node s0) as [nd |] eqn:Hn0.
  - assert (Hn1 : SpringValue.node s1 <> None)
      by (unfold s1; cbn; rewrite Hn0; discriminate).
    destruct (_start_prepare s1 Hn1) as (s2 & Hs & Hp2 & Hl2 & _).
    assert (Ha2 : isAnimating s2 = false)
      by (unfold isAnimating; rewrite Hp2; reflexivity).
    rewrite Ha2 in Hs. cbv zeta in Hs.
    set (s3 := SpringValue.set_animation _ (setActiveBit true s2)) in Hs.
    rewrite Hs. unfold _resume. rewrite Hskip.
    destruct (isPaused s3) eqn:Hpa3; cbn [returns_or].
    + repeat split. intros Hp. exfalso.
      change (isPaused s3) with (isPaused s2) in Hpa3.
      unfold isPaused in Hpa3, Hp1, Hp. rewrite Hp2 in Hpa3. congruence.
    + repeat split. intros _. eexists. reflexivity.
  - rewrite (_start_without_node s1) by exact Hn0. cbn [returns_or].
    split; [reflexivity |]. right.
    destruct (SpringValue.node s) as [nd |] eqn:Hn.
    + exfalso.
      pose proof (_set_node G F (option_map TVal value) false s) as H.
      rewrite Hset in H. apply H; [rewrite Hn; discriminate | exact Hn0].
    + split; [reflexivity |]. destruct value as [v |]; [| reflexivity].
      exfalso. apply (_set_value_node v false s s0 Hset Hn). exact Hn0.
Qed.

End StartProperties.

(** ** Immediate animations *)

Section ImmediateProperties.

Context (G : Globals) (F : FluidGraph).

(** The loop over the channels of an immediate animation whose goal is not
    a parent spring: it returns when every channel has a goal, and it
    leaves [idle] as it is. *)
Lemma advance_values_immediate anim toValues dt ids :
  Animation.immediate anim = true ->
  forall i s idle changed,
    (forall k id,
        nth_error ids k = Some id ->
        exists v,
          channel_to (cell (SpringValue.heap s) id) None toValues (i + k)
          = Some (Some v)) ->
    exists s' changed',
      advance_values G anim None toValues dt i ids s idle changed
      = Some (s', idle, changed').
Proof.
  intros Himm.
  induction ids as [| id ids IH]; intros i s idle changed Hgoals.
  - eexists _, _. reflexivity.
  - cbn [advance_values].
    destruct (Hgoals 0 id eq_refl) as [v Hv]. rewrite Nat.add_0_r in Hv.
    assert (Hr : exists r,
               advance_node G anim None toValues dt i
                 (cell (SpringValue.heap s) id) = Some r
               /\ step_busy r = false).
    { unfold advance_node.
      destruct (AnimatedValue.done (cell (SpringValue.heap s) id));
        [eexists; split; reflexivity |].
      rewrite Hv, Himm. unfold settle. cbn [parentDone].
      destruct (node_setValue G v _ _) as [n2 ch].
      eexists. split; reflexivity. }
    destruct Hr as (r & Hr & Hbusy). rewrite Hr, Hbusy.
    cbn [negb]. rewrite andb_true_r.
    apply IH.
    intros k id' Hk.
    destruct (Hgoals (S k) id' Hk) as [v' Hv'].
    exists v'. replace (S i + k) with (i + S k) by lia. rewrite <- Hv'.
    apply channel_to_ctor.
    destruct (advance_node_busy G _ _ _ _ _ _ _ Hr) as [_ Hc].
    assert (Hcell : AnimatedValue.ctor
                      (cell (update (SpringValue.heap s) id
                               (fun _ => step_node r)) id')
                    = AnimatedValue.ctor (cell (SpringValue.heap s) id')).
    { destruct (Nat.eq_dec id' id) as [-> | Hne].
      - destruct (Nat.lt_ge_cases id (length (SpringValue.heap s)))
          as [Hlt | Hge].
        + rewrite cell_update_at by exact Hlt. exact Hc.
        + rewrite update_beyond by exact Hge. reflexivity.
      - rewrite cell_update_other by exact Hne. reflexivity. }
    destruct (step_warned r); exact Hcell.
Qed.

(** X22: A frame of an immediate animation whose goal is not a payload of
    parent nodes and gives every channel a goal value ends the animation:
    advance returns, the spring is not animating afterwards, and if it was
    animating every channel is done. The frame does not return only when
    its finish throws: on a frozen spring that is animating without a
    decay. *)
Theorem immediate_animation_takes_one_frame dt s :
  let anim := SpringValue.animation s in
  Animation.immediate anim = true ->
  getPayload F (Animation.to anim) = None ->
  (forall i id,
      nth_error (Animation.values anim) i = Some id ->
      exists v,
        channel_to (cell (SpringValue.heap s) id) None (advance_toValues F anim) i
        = Some (Some v)) ->
  match advance G F dt s with
  | Some s' =>
      isAnimating s' = false
      /\ (isAnimating s = true -> all_done s' = true)
  | None =>
      SpringValue.frozen s = true
      /\ isAnimating s = true
      /\ decay_truthy (AnimationConfig.decay (Animation.config anim)) = false
  end.
Proof.
  intros anim Himm Hpayload Hgoals. unfold advance. fold anim.
  rewrite Hpayload.
  destruct (advance_values_immediate anim (advance_toValues F anim) dt
              (Animation.values anim) Himm 0 s true false Hgoals)
    as (s1 & changed & Hv).
  rewrite Hv.
  pose proof (advance_values_inert G isAnimating _ _ _ _ _
                (fun _ _ => eq_refl) (fun _ _ => eq_refl) _ _ _ _ _ _ _ Hv)
    as Hp.
  pose proof (advance_values_inert G SpringValue.frozen _ _ _ _ _
                (fun _ _ => eq_refl) (fun _ _ => eq_refl) _ _ _ _ _ _ _ Hv)
    as Hf.
  pose proof (advance_values_inert G SpringValue.animation _ _ _ _ _
                (fun _ _ => eq_refl) (fun _ _ => eq_refl) _ _ _ _ _ _ _ Hv)
    as Ha.
  destruct (finish G F s1) as [[] s' | e s'] eqn:Hfin; cbn [returned].
  - destruct (isAnimating s) eqn:Hact.
    + destruct (finish_unfold G F s1 s' Hp Hfin) as (s2 & -> & Hact2 & _).
      split; [apply _stop_isAnimating |].
      intros _. apply _stop_all_done. exact Hact2.
    + split; [| discriminate]. unfold finish in Hfin. rewrite Hp in Hfin.
      injection Hfin as <-. exact Hp.
  - pose proof Hfin as Hthrew. apply finish_threw in Hthrew.
    split; [rewrite <- Hf; apply Hthrew |].
    revert Hfin. unfold finish. rewrite Hp.
    destruct (isAnimating s); [| discriminate].
    split; [reflexivity |]. unfold anim. rewrite <- Ha.
    destruct (decay_truthy _); [discriminate | reflexivity].
Qed.

End ImmediateProperties.

(** ** [_prepareNode] *)

Section PrepareProperties.

Context (G : Globals) (F : FluidGraph).

(** X23: Before the spring has ever animated, _prepareNode puts its value
    on the from prop of the update, or on the to prop when the update has
    reverse: when that is a number x other than NaN, _prepareNode returns
    unless the spring is frozen (then it may throw a TypeError, and
    nothing else), and [get] is equal to x afterwards. The range it
    returns is the to and from of the update, not swapped by reverse, and
    the animation, the phase and _lastCallId are unchanged. *)
Theorem prepareNode_puts_the_value_on_from props s x :
  hasAnimated s = false ->
  (x =? x)%float = true ->
  (forall id, SpringValue.node s = Some (ASingle id) ->
              id < length (SpringValue.heap s)) ->
  let key := match SpringValue.key s with Some k => k | None => EmptyString end in
  let to := lookup_prop (Props.to props) key in
  let from := lookup_prop (Props.from props) key in
  getFluidValue F (if Props.reverse props then to else from) = Some (VNum x) ->
  match _prepareNode G F props s with
  | Returned range s' =>
      range = mkRange to from
      /\ (exists y, get G s' = Some (VNum y) /\ (y =? x)%float = true)
      /\ SpringValue.animation s' = SpringValue.animation s
      /\ SpringValue.phase s' = SpringValue.phase s
      /\ SpringValue._lastCallId s' = SpringValue._lastCallId s
  | Threw e _ => e = TypeError /\ SpringValue.frozen s = true
  end.
Proof.
  intros Hnot Hx Hwf key to from Hfrom.
  destruct (_prepareNode G F props s) as [range s' | e s'] eqn:Hprep;
    [| apply _prepareNode_threw in Hprep; exact Hprep].
  revert Hprep. unfold _prepareNode. fold key. fold to. fold from.
  rewrite Hnot.
  assert (Hset : forall s1,
             _set G F (Some (TVal (VNum x))) false s = Returned tt s1 ->
             (exists y, get G s1 = Some (VNum y) /\ (y =? x)%float = true)
             /\ SpringValue.animation s1 = SpringValue.animation s
             /\ SpringValue.phase s1 = SpringValue.phase s
             /\ SpringValue._lastCallId s1 = SpringValue._lastCallId s).
  { intros s1 H1.
    split; [apply (_set_number G F x false s s1 Hx Hwf H1) |].
    carried SpringValue.animation (_set_inert G F SpringValue.animation) H1.
    carried SpringValue.phase (_set_inert G F SpringValue.phase) H1.
    carried SpringValue._lastCallId (_set_inert G F SpringValue._lastCallId)
      H1.
    repeat split; assumption. }
  destruct (Props.reverse props); cbv beta iota zeta; rewrite Hfrom;
    intros H; apply andThen_returned in H; destruct H as (s1 & Hs1 & H);
    injection H as <- <-; (split; [reflexivity |]); apply Hset; exact Hs1.
Qed.

End PrepareProperties.

(** ** The properties on the sample springs *)

Section MoreSampleRuns.

Import Sample Run.

Local Open Scope float_scope.

(** The first frame of the spring started towards 1 leaves it in the frame
    loop, with its channel not done. *)
Lemma advance_ends_when_all_done_witness :
  isAnimating spring_first_frame = negb (all_done spring_first_frame)
  /\ isAnimating spring_first_frame = true.
Proof.
  split; [| reflexivity].
  apply (advance_ends_when_all_done G0 F0 16 spring_started);
    [reflexivity | repeat constructor; intros [] | vm_compute; reflexivity].
Defined.

Lemma advance_keeps_the_range_witness :
  Animation.to (SpringValue.animation spring_first_frame)
  = Some (TVal (VNum 1))
  /\ SpringValue._lastCallId spring_first_frame = 2.
Proof.
  destruct (advance_keeps_the_range G0 F0 16 spring_started spring_first_frame)
    as (Hto & _ & _ & _ & _ & _ & _ & Hid & _);
    [vm_compute; reflexivity |].
  split; [rewrite Hto | rewrite Hid]; reflexivity.
Defined.

(** The loose spring: one frame marks its channel done and finishes. *)
Lemma loose_spring_finishes_at_once_witness :
  exists s',
    advance G0 F0 16 spring_loose = Some s'
    /\ finish G0 F0 (mark_done spring_loose) = Returned tt s'.
Proof.
  destruct (loose_spring_finishes_at_once G0 F0 16 spring_loose) as [_ Hret];
    try reflexivity.
  - intros [| i] id; [| destruct i; discriminate].
    intros [= <-]. vm_compute. discriminate.
  - destruct (Hret eq_refl) as (s' & Hf & Ha).
    exists s'. split; assumption.
Defined.

Lemma finish_ends_the_animation_witness :
  exists s',
    finish G0 F0 spring_moving = Returned tt s'
    /\ isAnimating s' = false
    /\ all_done s' = true.
Proof.
  pose proof (finish_ends_the_animation G0 F0 spring_moving eq_refl) as H.
  cbv zeta in H.
  destruct (finish G0 F0 spring_moving) as [[] s' | e s'];
    cbn [returns_or] in H.
  - exists s'. destruct H as (H1 & H2 & _).
    split; [reflexivity |]. split; assumption.
  - destruct H as (_ & H & _). discriminate H.
Defined.

(** The first frame calls [onStart]; the spring under way does not. *)
Lemma onStart_is_called_once_witness :
  onStart_calls (SpringValue.log spring_first_frame) = [CallOnStart 1]
  /\ Animation.changed (SpringValue.animation spring_first_frame) = true.
Proof.
  destruct (onStart_is_called_once G0 F0 16 spring_started spring_first_frame)
    as [H | (h & _ & _ & Hc & H)];
    [vm_compute; reflexivity | vm_compute in H; discriminate H |].
  split; [reflexivity | exact Hc].
Defined.

(** [stop()] on the spring under way: the update that started it gets
    [finished: false]. *)
Lemma stop_reports_the_goal_reached_witness :
  In (Resolve 2 (Finished (Some (VNum 0.28451838280769204)) false))
    (SpringValue.log (stop G0 F0 false spring_moving))
  /\ isAnimating (stop G0 F0 false spring_moving) = false.
Proof.
  destruct (stop_reports_the_goal_reached G0 F0 spring_moving eq_refl)
    as (Ha & _ & _ & _ & Hq).
  split; [| exact Ha].
  apply (Hq (RestResolver 2) (Some (TVal (VNum 1)))).
  vm_compute. left. reflexivity.
Defined.

Lemma set_number_is_read_back_witness :
  exists s' y,
    set G0 F0 (Some (TVal (VNum 5))) spring_moving = Returned tt s'
    /\ get G0 s' = Some (VNum y)
    /\ (y =? 5) = true.
Proof.
  assert (H : returns_or (SpringValue.frozen spring_moving = true)
                (set G0 F0 (Some (TVal (VNum 5))) spring_moving)
                (fun s' =>
                   exists y, get G0 s' = Some (VNum y) /\ (y =? 5) = true)).
  { apply (set_number_is_read_back G0 F0 5 spring_moving); [reflexivity |].
    intros id [= <-]. vm_compute. lia. }
  destruct (set G0 F0 (Some (TVal (VNum 5))) spring_moving) as [[] s' | e s'];
    cbn [returns_or] in H.
  - destruct H as (y & Hg & Hy). exists s', y.
    split; [reflexivity |]. split; assumption.
  - destruct H as [_ H]. discriminate H.
Defined.

Lemma finish_reaches_a_numeric_goal_witness :
  exists s' y,
    finish G0 F0 spring_moving = Returned tt s'
    /\ get G0 s' = Some (VNum y)
    /\ (y =? 1) = true
    /\ In (Resolve 2 (Finished (Some (VNum y)) true)) (SpringValue.log s').
Proof.
  assert (H : returns_or (SpringValue.frozen spring_moving = true)
                (finish G0 F0 spring_moving)
                (fun s' =>
                   exists y,
                     get G0 s' = Some (VNum y)
                     /\ (y =? 1) = true
                     /\ (forall callee,
                            In (RestCheck callee (Some (TVal (VNum 1))))
                              (tl (Animation.onRest
                                     (SpringValue.animation spring_moving))) ->
                            In (report callee (Finished (Some (VNum y)) true))
                              (SpringValue.log s')))).
  { apply (finish_reaches_a_numeric_goal G0 F0 1 spring_moving);
      try reflexivity.
    intros id [= <-]. vm_compute. lia. }
  destruct (finish G0 F0 spring_moving) as [[] s' | e s'];
    cbn [returns_or] in H.
  - destruct H as (y & Hg & Hy & Hq). exists s', y.
    split; [reflexivity |]. split; [exact Hg |]. split; [exact Hy |].
    apply (Hq (RestResolver 2)). vm_compute. left. reflexivity.
  - destruct H as [_ H]. discriminate H.
Defined.

Lemma resume_undoes_pause_witness :
  exists s',
    resume_action G0 F0 (pause_action spring_moving) = Returned tt s'
    /\ SpringValue.phase s' = SpringValue.phase spring_moving
    /\ SpringValue.log s' = SpringValue.log spring_moving ++ [FrameLoopStart].
Proof.
  destruct (resume_undoes_pause G0 F0 spring_moving eq_refl eq_refl)
    as (s' & Hs & Hp & _ & _ & _ & Hl).
  exists s'. split; [exact Hs |]. split; [exact Hp |].
  rewrite Hl. reflexivity.
Defined.

Lemma parent_change_restarts_witness :
  exists s',
    onParentChange G0 F0 ParentChange spring_following = Returned tt s'
    /\ isAnimating s' = true
    /\ SpringValue.log s' = SpringValue.log spring_following ++ [FrameLoopStart].
Proof.
  destruct (parent_change_restarts G0 F0 spring_following eq_refl eq_refl)
    as [_ H].
  destruct H as (s' & Hs & Ha & _ & Hidle & _); [vm_compute; discriminate |].
  exists s'. split; [exact Hs |]. split; [exact Ha |].
  apply Hidle. reflexivity.
Defined.

(** At 2^53 the counter has stopped growing: the update gets the call id
    that the last one had, and is resolved as cancelled. *)
Lemma update_draws_the_next_callId_witness :
  exists range props' s1,
    _update G0 F0 to_10 spring_worn = Returned (range, props') s1
    /\ Props.callId props' = SpringValue._lastCallId spring_worn
    /\ _merge G0 F0 range props' s1
       = Returned tt
           (SpringValue.set_log
              (SpringValue.log s1
               ++ [Resolve 9007199254740992 (Cancelled (get G0 s1))]) s1).
Proof.
  eexists _, _, _. split; [vm_compute; reflexivity |].
  match goal with
  | |- Props.callId ?p = _ /\ _merge G0 F0 ?r ?p ?s1 = _ =>
      destruct (update_draws_the_next_callId G0 F0 to_10 spring_worn r p s1
                  eq_refl) as (Hid & _ & _ & _ & _ & Hstale)
  end.
  split; [exact Hid |]. apply Hstale; reflexivity.
Defined.

(** A frozen spring that has no node yet throws the [TypeError] of the node
    it cannot take, before the frozen error is reached. *)
Lemma update_errors_and_their_causes_witness :
  exists s', _update G0 F0 to_10 (freeze spring0) = Threw TypeError s'.
Proof.
  destruct (proj1 (update_errors_and_their_causes G0 F0) to_10
              (freeze spring0) eq_refl) as (e & s' & Hu & [He | [He _]]).
  - rewrite He in Hu. vm_compute in Hu. discriminate Hu.
  - exists s'. rewrite <- He. exact Hu.
Defined.


Lemma constructor_rests_on_its_value_witness :
  exists s,
    construct G0 F0 (Some (ArgValue (TVal (VNum 0)))) None = Returned tt s
    /\ get G0 s = Some (VNum 0)
    /\ isAnimating s = false.
Proof.
  destruct (constructor_rests_on_its_value G0 F0 0 eq_refl)
    as (s & Hc & Hg & _ & _ & _ & Ha & _).
  exists s. repeat split; assumption.
Defined.

Lemma start_while_paused_waits_witness :
  exists s',
    _start G0 F0 spring_paused = Returned tt s'
    /\ isAnimating s' = true
    /\ SpringValue.log s' = SpringValue.log spring_paused.
Proof.
  destruct (start_while_paused_waits G0 F0 spring_paused eq_refl eq_refl eq_refl)
    as [_ H].
  destruct H as (s' & s'' & Hs & Ha & _ & Hl & _); [vm_compute; discriminate |].
  exists s'. split; [exact Hs |]. split; assumption.
Defined.

Lemma skipAnimation_finishes_at_once_witness :
  exists s',
    _start G1 F0 spring_settled = Returned tt s'
    /\ isAnimating s' = false
    /\ all_done s' = true.
Proof.
  destruct (skipAnimation_finishes_at_once G1 F0 spring_settled eq_refl eq_refl
              eq_refl) as [_ H].
  assert (Hn : SpringValue.node spring_settled <> None)
    by (vm_compute; discriminate).
  specialize (H Hn).
  destruct (_start G1 F0 spring_settled) as [[] s' | e s'];
    cbn [returns_or] in H.
  - destruct H as (Ha & _ & Hd & _). exists s'.
    split; [reflexivity |]. split; assumption.
  - destruct H as [_ H]. discriminate H.
Defined.

Lemma reset_arms_onStart_again_witness :
  exists s',
    merge_dispatch G0 F0 (Props.set_callId 3 back_to_0)
      (fst merged_current) true true (Some (VNum 0)) spring_moving
    = Returned tt s'
    /\ Animation.changed (SpringValue.animation s') = false.
Proof.
  pose proof (reset_arms_onStart_again G0 F0 (Props.set_callId 3 back_to_0)
                (fst merged_current) (Some (VNum 0)) spring_moving eq_refl
                eq_refl) as H.
  destruct (merge_dispatch G0 F0 _ _ true true _ spring_moving)
    as [[] s' | e s']; cbn [returns_or] in H.
  - destruct H as (_ & _ & Hc & _). exists s'. split; [reflexivity | exact Hc].
  - destruct H as [_ [H | [_ H]]]; discriminate H.
Defined.

Lemma immediate_animation_takes_one_frame_witness :
  exists s',
    advance G0 F0 16 spring_immediate = Some s'
    /\ isAnimating s' = false.
Proof.
  assert (H : match advance G0 F0 16 spring_immediate with
              | Some s' =>
                  isAnimating s' = false
                  /\ (isAnimating spring_immediate = true -> all_done s' = true)
              | None =>
                  SpringValue.frozen spring_immediate = true
                  /\ isAnimating spring_immediate = true
                  /\ decay_truthy
                       (AnimationConfig.decay
                          (Animation.config
                             (SpringValue.animation spring_immediate)))
                     = false
              end).
  { apply (immediate_animation_takes_one_frame G0 F0 16 spring_immediate);
      try reflexivity.
    intros [| i] id; [| destruct i; discriminate].
    intros [= <-]. eexists. vm_compute. reflexivity. }
  destruct (advance G0 F0 16 spring_immediate) as [s' |].
  - exists s'. split; [reflexivity | apply H].
  - destruct H as [H _]. discriminate H.
Defined.

(** [{ from: 5, to: 10 }] on the spring at 0, which has never animated. *)
Lemma prepareNode_puts_the_value_on_from_witness :
  exists s' y,
    _prepareNode G0 F0 from_5_to_10 spring_at_0
    = Returned (mkRange (Some (TVal (VNum 10))) (Some (TVal (VNum 5)))) s'
    /\ get G0 s' = Some (VNum y)
    /\ (y =? 5) = true.
Proof.
  assert (H : match _prepareNode G0 F0 from_5_to_10 spring_at_0 with
              | Returned range s' =>
                  range = mkRange (Some (TVal (VNum 10))) (Some (TVal (VNum 5)))
                  /\ (exists y, get G0 s' = Some (VNum y) /\ (y =? 5) = true)
                  /\ SpringValue.animation s' = SpringValue.animation spring_at_0
                  /\ SpringValue.phase s' = SpringValue.phase spring_at_0
                  /\ SpringValue._lastCallId s'
                     = SpringValue._lastCallId spring_at_0
              | Threw e _ =>
                  e = TypeError /\ SpringValue.frozen spring_at_0 = true
              end).
  { apply (prepareNode_puts_the_value_on_from G0 F0 from_5_to_10 spring_at_0 5);
      try reflexivity.
    intros id [= <-]. vm_compute. lia. }
  destruct (_prepareNode G0 F0 from_5_to_10 spring_at_0) as [range s' | e s'].
  - destruct H as (-> & (y & Hg & Hy) & _). exists s', y.
    split; [reflexivity |]. split; assumption.
  - destruct H as [_ H]. discriminate H.
Defined.

End MoreSampleRuns.
